(** * polyv/utils: the [boolean] and [lang] modules

    A shallow embedding of [src/boolean.js] and of the [lang] module
    ([isArrayLike], [isEmptyData], [extend], [cloneJSON], [tryParseJSON]),
    together with the part of the ECMAScript host they rely on: values,
    the object heap, string coercion, property access and the JSON codec. *)

From Stdlib Require Import ZArith NArith List Ascii String Lia.
From Stdlib Require Import Floats.SpecFloat.
From stdpp Require Import base option list gmap.

Local Open Scope N_scope.

(** ** ECMAScript strings

    A string is a sequence of UTF-16 code units.  Literals of the source
    are written [js "..."]. *)

Abbreviation jsstring := (list N).

Definition js (s : string) : jsstring :=
  (λ a, N_of_ascii a) <$> list_ascii_of_string s.

(** [jsq] is [js] with every apostrophe read as a double quote, so that
    JSON texts can be written down: [jsq "{'a':1}"] is the text
    [{"a":1}]. *)
Definition jsq (s : string) : jsstring :=
  (λ c, if c =? 39 then 34 else c) <$> js s.

Definition dquote : string := String "034"%char EmptyString.

(** [String.prototype.toUpperCase], one code unit at a time.  The mapping
    is the Unicode one on U+0000..U+00FF (with the two-letter image of
    U+00DF and the two images that leave Latin-1); code units above
    U+00FF are left as they are: their case mappings are not modelled,
    and none of them has the single letter Y or N as its upper case. *)
Definition toUpperCase_unit (c : N) : jsstring :=
  if (97 <=? c) && (c <=? 122) then [c - 32]
  else if c =? 181 then [924]
  else if c =? 223 then [83; 83]
  else if (224 <=? c) && (c <=? 254) && negb (c =? 247) then [c - 32]
  else if c =? 255 then [376]
  else [c].

Definition toUpperCase (s : jsstring) : jsstring :=
  s ≫= toUpperCase_unit.

(** White space and line terminators, the code units [trim] strips. *)
Definition isWhiteSpace (c : N) : bool :=
  ((9 <=? c) && (c <=? 13)) || (c =? 32) || (c =? 160) || (c =? 5760)
  || ((8192 <=? c) && (c <=? 8202)) || (c =? 8232) || (c =? 8233)
  || (c =? 8239) || (c =? 8287) || (c =? 12288) || (c =? 65279).

Fixpoint trimStart (s : jsstring) : jsstring :=
  match s with
  | c :: s' => if isWhiteSpace c then trimStart s' else s
  | [] => []
  end.

Definition trimEnd (s : jsstring) : jsstring := reverse (trimStart (reverse s)).

Definition trim (s : jsstring) : jsstring := trimEnd (trimStart s).

(** ** Numbers

    A Number is an IEEE 754 binary64 value, held in the Standard
    Library's [spec_float]: [S754_finite s m e] is (-1)^s * m * 2^e.  The
    operations below are exact and do not depend on the mantissa being
    normalised. *)

Abbreviation number := spec_float.

Definition number_of_Z (z : Z) : number :=
  match z with
  | Z0 => S754_zero false
  | Zpos p => S754_finite false p 0
  | Zneg p => S754_finite true p 0
  end.

Definition number_of_nat (n : nat) : number := number_of_Z (Z.of_nat n).

Definition zero : number := S754_zero false.
Definition one : number := number_of_Z 1.

Definition signed (s : bool) (m : positive) : Z := if s then Zneg m else Zpos m.

(** The order of two Numbers, [None] when one of them is NaN: two finite
    Numbers are compared on their mantissas brought to the smaller
    exponent. *)
Definition Number_compare (x y : number) : option comparison :=
  match x, y with
  | S754_finite sx mx ex, S754_finite sy my ey =>
      let e := Z.min ex ey in
      Some (signed sx mx * 2 ^ (ex - e) ?= signed sy my * 2 ^ (ey - e))%Z
  | _, _ => SFcompare x y
  end.

(** [x >= y]: false as soon as an operand is NaN. *)
Definition Number_ge (x y : number) : bool :=
  match Number_compare x y with
  | Some Gt | Some Eq => true
  | _ => false
  end.

(** [x === y] on Numbers. *)
Definition Number_equal (x y : number) : bool :=
  match Number_compare x y with
  | Some Eq => true
  | _ => false
  end.

(** [x % y]: the remainder of the truncating division, with the sign of
    the dividend; it is exact. *)
Definition Number_remainder (x y : number) : number :=
  match x, y with
  | S754_nan, _ | _, S754_nan => S754_nan
  | S754_infinity _, _ => S754_nan
  | _, S754_zero _ => S754_nan
  | S754_zero s, _ => S754_zero s
  | S754_finite s m e, S754_infinity _ => S754_finite s m e
  | S754_finite sx mx ex, S754_finite _ my ey =>
      let e := Z.min ex ey in
      let X := (Zpos mx * 2 ^ (ex - e))%Z in
      let Y := (Zpos my * 2 ^ (ey - e))%Z in
      match (X mod Y)%Z with
      | Zpos r => S754_finite sx r e
      | _ => S754_zero sx
      end
  end.

(** [n] is exactly the integer [k]. *)
Definition number_is_integer (n : number) (k : Z) : Prop :=
  match n with
  | S754_zero _ => k = 0%Z
  | S754_finite s m e =>
      (0 <= e ∧ k = signed s m * 2 ^ e)%Z ∨ (e < 0 ∧ signed s m = k * 2 ^ (- e))%Z
  | _ => False
  end.

(** ** Values, objects and the heap *)

Abbreviation loc := positive.

Inductive val : Type :=
  | VUndefined
  | VNull
  | VBool (b : bool)
  | VNum (n : number)
  | VStr (s : jsstring)
  | VSymbol (description : jsstring)
  | VRef (l : loc).

(** An object is an ordinary object, an Array or a function.  [props] are
    the own enumerable string-keyed data properties of an ordinary
    object, in creation order.  An Array is its list of elements (a hole
    is represented by the value it reads as, [undefined]); a function is
    opaque.  Objects inherit from the built-in prototypes only, so no
    inherited property is enumerable. *)
Inductive obj : Type :=
  | Obj (props : list (jsstring * val))
  | Arr (elems : list val)
  | Fun.

Abbreviation heap := (gmap loc obj).

(** Raised errors.  [NotModelled] is not an ECMAScript error: it marks
    host behaviour outside this development (a dangling reference, an
    assignment that would make an Array sparse, a user [toJSON], ...);
    an outcome of that kind says nothing about the program. *)
Inductive error : Type :=
  | Error (message : string)
  | TypeError (message : string)
  | SyntaxError (message : string)
  | NotModelled (what : string).

(** The outcome of an expression that reads the heap but leaves it as
    it is: a value, or a raised error. *)
Inductive result (A : Type) : Type :=
  | Ok (a : A)
  | Throw (e : error).
Arguments Ok {A} a.
Arguments Throw {A} e.

#[global] Instance result_ret : MRet result := λ A a, Ok a.
#[global] Instance result_bind : MBind result := λ A B f m,
  match m with
  | Ok a => f a
  | Throw e => Throw e
  end.
#[global] Instance result_fmap : FMap result := λ A B f m,
  match m with
  | Ok a => Ok (f a)
  | Throw e => Throw e
  end.

Inductive type_tag : Type :=
  | TUndefined | TObject | TBoolean | TNumber | TString | TSymbol | TFunction.

#[global] Instance type_tag_eq_dec : EqDecision type_tag.
Proof. solve_decision. Defined.

(** What the host supplies and this development leaves open: the digits
    of a Number, the value of a numeric literal, and the string an object
    coerces to (its [toString]/[valueOf], user code that may raise). *)
Class Host : Type := {
  Number_toString : number → jsstring;
  StringToNumber : jsstring → number;
  ObjectToString : heap → loc → result jsstring;
}.

Section Values.
Context `{Host} (h : heap).

(** [typeof v]; [null] and a dangling reference count as objects. *)
Definition typeof (v : val) : type_tag :=
  match v with
  | VUndefined => TUndefined
  | VNull => TObject
  | VBool _ => TBoolean
  | VNum _ => TNumber
  | VStr _ => TString
  | VSymbol _ => TSymbol
  | VRef l => match h !! l with Some Fun => TFunction | _ => TObject end
  end.

(** [v == null]. *)
Definition is_nullish (v : val) : bool :=
  match v with
  | VUndefined | VNull => true
  | _ => false
  end.

(** [String(v)]. *)
Definition ToString (v : val) : result jsstring :=
  match v with
  | VUndefined => Ok (js "undefined")
  | VNull => Ok (js "null")
  | VBool true => Ok (js "true")
  | VBool false => Ok (js "false")
  | VNum n => Ok (Number_toString n)
  | VStr s => Ok s
  | VSymbol d => Ok (js "Symbol(" ++ d ++ js ")")
  | VRef l => ObjectToString h l
  end.
End Values.

(** ** [Array.prototype.every] and [Array.prototype.some]

    Both visit the elements in index order and stop at the first element
    that decides the answer; an error raised by the callback ends the
    traversal. *)
Section ArrayIteration.
Context {A : Type} (callbackfn : A → result bool).

Fixpoint Array_every (values : list A) : result bool :=
  match values with
  | [] => Ok true
  | v :: rest =>
      b ← callbackfn v;
      if b : bool then Array_every rest else Ok false
  end.

Fixpoint Array_some (values : list A) : result bool :=
  match values with
  | [] => Ok false
  | v :: rest =>
      b ← callbackfn v;
      if b : bool then Ok true else Array_some rest
  end.
End ArrayIteration.

(** ** [src/boolean.js] *)
Section Boolean.
Context `{Host} (h : heap).

Definition boolToYN_error : error :=
  Error "The value argument must be a boolean type".

Definition ynToBool_error : error :=
  Error ("The value argument must be " ++ dquote ++ "Y" ++ dquote
         ++ " or " ++ dquote ++ "N" ++ dquote).

Definition boolToYN (value : val) : result jsstring :=
  if decide (typeof h value ≠ TBoolean) then Throw boolToYN_error
  else match value with
       | VBool true => Ok (js "Y")
       | _ => Ok (js "N")
       end.

Definition ynToBool (value : val) : result bool :=
  s ← ToString h value;
  let value := toUpperCase s in
  if bool_decide (value ≠ js "Y") && bool_decide (value ≠ js "N")
  then Throw ynToBool_error
  else Ok (bool_decide (value = js "Y")).

Definition allY (values : list val) : result bool :=
  Array_every ynToBool values.

Definition someY (values : list val) : result bool :=
  Array_some ynToBool values.

Definition allN (values : list val) : result bool :=
  Array_every (λ value, negb <$> ynToBool value) values.

Definition someN (values : list val) : result bool :=
  Array_some (λ value, negb <$> ynToBool value) values.

(** A flag: a value whose string coercion is "Y" or "N" up to case. *)
Definition flag_of (v : val) (b : bool) : Prop :=
  ∃ s, ToString h v = Ok s ∧
       toUpperCase s = (if b then js "Y" else js "N").

Definition valid_flag (v : val) : Prop := ∃ b, flag_of v b.

(** A value that coerces to a string which is not a flag. *)
Definition invalid_flag (v : val) : Prop :=
  ∃ s, ToString h v = Ok s ∧
       toUpperCase s ≠ js "Y" ∧ toUpperCase s ≠ js "N".
End Boolean.

(** ** Property access *)

Fixpoint digits_of_uint (d : Decimal.uint) : jsstring :=
  match d with
  | Decimal.Nil => []
  | Decimal.D0 d => 48 :: digits_of_uint d
  | Decimal.D1 d => 49 :: digits_of_uint d
  | Decimal.D2 d => 50 :: digits_of_uint d
  | Decimal.D3 d => 51 :: digits_of_uint d
  | Decimal.D4 d => 52 :: digits_of_uint d
  | Decimal.D5 d => 53 :: digits_of_uint d
  | Decimal.D6 d => 54 :: digits_of_uint d
  | Decimal.D7 d => 55 :: digits_of_uint d
  | Decimal.D8 d => 56 :: digits_of_uint d
  | Decimal.D9 d => 57 :: digits_of_uint d
  end.

(** The property key of the array index [i]. *)
Definition index_key (i : nat) : jsstring := digits_of_uint (Nat.to_uint i).

(** The index below [n] that [key] names, if any. *)
Definition index_of_key (n : nat) (key : jsstring) : option nat :=
  fst <$> list_find (λ k, k = key) (index_key <$> seq 0 n).

Fixpoint props_get (key : jsstring) (props : list (jsstring * val)) : option val :=
  match props with
  | [] => None
  | (k, v) :: props' => if decide (key = k) then Some v else props_get key props'
  end.

(** Assigning to an existing key keeps its place, a new key goes last. *)
Fixpoint props_set (key : jsstring) (v : val) (props : list (jsstring * val))
  : list (jsstring * val) :=
  match props with
  | [] => [(key, v)]
  | (k, v') :: props' =>
      if decide (key = k) then (key, v) :: props'
      else (k, v') :: props_set key v props'
  end.

Section PropertyAccess.
Context `{Host} (h : heap).

(** [Array.isArray(v)]. *)
Definition Array_isArray (v : val) : bool :=
  match v with
  | VRef l => match h !! l with Some (Arr _) => true | _ => false end
  | _ => false
  end.

(** [!!v]. *)
Definition ToBoolean (v : val) : bool :=
  match v with
  | VUndefined | VNull => false
  | VBool b => b
  | VNum (S754_zero _) | VNum S754_nan => false
  | VNum _ => true
  | VStr s => negb (bool_decide (s = []))
  | VSymbol _ | VRef _ => true
  end.

(** [v[key]], for own properties and the [length] of strings and
    Arrays.  Properties inherited from the built-in prototypes (methods,
    none of them called [length]) read as [undefined] here, and the own
    properties of a function are not modelled.  A dangling reference
    reads like an empty ordinary object. *)
Definition Get (v : val) (key : jsstring) : result val :=
  match v with
  | VUndefined | VNull =>
      Throw (TypeError "Cannot read properties of null or undefined")
  | VBool _ | VNum _ | VSymbol _ => Ok VUndefined
  | VStr s =>
      if decide (key = js "length") then Ok (VNum (number_of_nat (length s)))
      else match index_of_key (length s) key ≫= (s !!.) with
           | Some c => Ok (VStr [c])
           | None => Ok VUndefined
           end
  | VRef l =>
      match h !! l with
      | Some (Obj props) => Ok (default VUndefined (props_get key props))
      | Some (Arr elems) =>
          if decide (key = js "length")
          then Ok (VNum (number_of_nat (length elems)))
          else Ok (default VUndefined (index_of_key (length elems) key ≫= (elems !!.)))
      | Some Fun => Throw (NotModelled "property of a function")
      | None => Ok VUndefined
      end
  end.

(** The own enumerable string-keyed properties of [v], in the order
    [for-in] and [Object.keys] report them. *)
Definition OwnEnumerableProps (v : val) : list (jsstring * val) :=
  match v with
  | VStr s => imap (λ i c, (index_key i, VStr [c])) s
  | VRef l =>
      match h !! l with
      | Some (Obj props) => props
      | Some (Arr elems) => imap (λ i v, (index_key i, v)) elems
      | _ => []
      end
  | _ => []
  end.

(** The keys a [for (key in v)] loop visits: no inherited property is
    enumerable, so they are the own enumerable ones. *)
Definition ForIn (v : val) : list jsstring := (OwnEnumerableProps v).*1.

(** Modelled from the spec: [hasOwnProp] of [./internal/core], which is
    not among the sources: "true iff [prop] is an own (non-inherited)
    property of [obj]".  The non-enumerable [length] of a string or an
    Array is an own property too. *)
Definition hasOwnProp (obj : val) (prop : jsstring) : result bool :=
  match obj with
  | VUndefined | VNull =>
      Throw (TypeError "Cannot convert undefined or null to object")
  | _ =>
      Ok (bool_decide (prop ∈ ForIn obj)
          || (bool_decide (prop = js "length")
              && (Array_isArray obj || bool_decide (typeof h obj = TString))))
  end.

(** Modelled from the spec: [isObject] of [./internal/core], which is
    not among the sources: the "object-type check" that ordinary
    objects pass and that a non-array object is tested with. *)
Definition isObject (value : val) : bool :=
  negb (is_nullish value) && bool_decide (typeof h value = TObject).
End PropertyAccess.

(** ** The [lang] module: predicates *)
Section Predicates.
Context `{Host} (h : heap).

Definition isArrayLike (obj : val) : result bool :=
  if is_nullish obj then Ok false
  else if decide (typeof h obj = TFunction) then Ok false
  else
    len ← Get h obj (js "length");
    match len with
    | VNum len =>
        Ok (Number_ge len zero
            && Number_equal (Number_remainder len one) zero)
    | _ => Ok false
    end.

(** The [for-in] loop of [isEmptyData]: it returns [false] at the first
    own property. *)
Fixpoint isEmptyData_loop (value : val) (keys : list jsstring) : result bool :=
  match keys with
  | [] => Ok true
  | key :: keys' =>
      own ← hasOwnProp h value key;
      if own : bool then Ok false else isEmptyData_loop value keys'
  end.

Definition isEmptyData (value : val) : result bool :=
  if is_nullish value then Ok true
  else match value with
       | VStr value => Ok (bool_decide (trim value = js ""))
       | _ =>
           if Array_isArray h value then
             len ← Get h value (js "length");
             Ok (negb (ToBoolean len))
           else if isObject h value then
             isEmptyData_loop value (ForIn h value)
           else Ok false
       end.
End Predicates.

(** ** Statements that change the heap

    A computation takes the heap and either returns a value or raises an
    error, in both cases with the heap it leaves behind. *)
Inductive outcome (A : Type) : Type :=
  | Return (a : A) (h : heap)
  | Raise (e : error) (h : heap).
Arguments Return {A} a h.
Arguments Raise {A} e h.

Definition M (A : Type) : Type := heap → outcome A.

#[global] Instance M_ret : MRet M := λ A a h, Return a h.
#[global] Instance M_bind : MBind M := λ A B f m h,
  match m h with
  | Return a h' => f a h'
  | Raise e h' => Raise e h'
  end.

Definition raise {A} (e : error) : M A := λ h, Raise e h.

(** An expression that only reads the heap. *)
Definition read {A} (f : heap → result A) : M A := λ h,
  match f h with
  | Ok a => Return a h
  | Throw e => Raise e h
  end.

Definition store (l : loc) (o : obj) : M unit := λ h, Return () (<[l := o]> h).

(** [try { body } catch (e) { handler(e) }]. *)
Definition try_catch {A} (body : M A) (handler : error → M A) : M A := λ h,
  match body h with
  | Return a h' => Return a h'
  | Raise (NotModelled what) h' => Raise (NotModelled what) h'
  | Raise e h' => handler e h'
  end.

(** Running [f] on the elements of a list, in order. *)
Fixpoint for_each {A} (f : A → M unit) (l : list A) : M unit :=
  match l with
  | [] => mret ()
  | x :: l' => f x ;; for_each f l'
  end.

Section Assignment.
Context `{Host}.

(** [target[key] = v] in strict code. *)
Definition PutValue (target : val) (key : jsstring) (v : val) : M unit := λ h,
  match target with
  | VUndefined | VNull =>
      Raise (TypeError "Cannot set properties of null or undefined") h
  | VBool _ | VNum _ | VStr _ | VSymbol _ =>
      Raise (TypeError "Cannot create property on a primitive value") h
  | VRef l =>
      match h !! l with
      | Some (Obj props) => store l (Obj (props_set key v props)) h
      | Some (Arr elems) =>
          match index_of_key (S (length elems)) key with
          | Some i =>
              if decide (i = length elems) then store l (Arr (elems ++ [v])) h
              else store l (Arr (<[i := v]> elems)) h
          | None => Raise (NotModelled "property of an Array") h
          end
      | Some Fun => Raise (NotModelled "property of a function") h
      | None => Raise (NotModelled "dangling reference") h
      end
  end.

(** Modelled from the spec: [extendSingle] of [./internal/core], the
    "property-merge primitive", which is not among the sources: it
    "copies each own enumerable property" of the source onto the
    target, and "sources that are null/absent are skipped without
    error". *)
Definition extendSingle (target source : val) : M unit :=
  if is_nullish source then mret ()
  else
    props ← read (λ h, Ok (OwnEnumerableProps h source));
    for_each (λ '(key, v), PutValue target key v) props.

(** [while (++i < len) { extendSingle(target, arguments[i]); }], with
    [n] bounding the number of tests of the loop condition. *)
Fixpoint extend_while (n : nat) (arguments : list val) (len i : nat)
    (target : val) : M unit :=
  match n with
  | O => mret ()
  | S n' =>
      let i := S i in
      if (i <? len)%nat then
        extendSingle target (default VUndefined (arguments !! i)) ;;
        extend_while n' arguments len i target
      else mret ()
  end.

Definition extend_error : error :=
  Error "The target argument cannot be null or undefined".

Definition extend (target : val) (sources : list val) : M val :=
  let arguments := target :: sources in
  if is_nullish target then raise extend_error
  else
    let len := length arguments in
    extend_while len arguments len 0 target ;;
    mret target.
End Assignment.

(** ** JSON

    The JSON data model; [JSON.stringify] prints a value of the heap as
    a JSON text, [JSON.parse] reads a text and builds its value in the
    heap. *)
#[warnings="-register-all"]
Inductive json : Type :=
  | JNull
  | JBool (b : bool)
  | JNum (n : number)
  | JStr (s : jsstring)
  | JArr (elems : list json)
  | JObj (members : list (jsstring * json)).

Definition is_finite (n : number) : bool :=
  match n with
  | S754_zero _ | S754_finite _ _ _ => true
  | _ => false
  end.

Fixpoint join (sep : jsstring) (parts : list jsstring) : jsstring :=
  match parts with
  | [] => []
  | [p] => p
  | p :: parts' => p ++ sep ++ join sep parts'
  end.

(** *** Printing *)

Definition hex_digit (n : N) : N := if n <? 10 then 48 + n else 87 + n.

(** The escape [\uXXXX] of a code unit, in lowercase hexadecimal. *)
Definition unicode_escape (c : N) : jsstring :=
  [92; 117; hex_digit (c / 4096 mod 16); hex_digit (c / 256 mod 16);
   hex_digit (c / 16 mod 16); hex_digit (c mod 16)].

Definition is_high_surrogate (c : N) : bool := (55296 <=? c) && (c <=? 56319).
Definition is_low_surrogate (c : N) : bool := (56320 <=? c) && (c <=? 57343).

Definition quote_unit (c : N) : jsstring :=
  if c =? 8 then js "\b"
  else if c =? 9 then js "\t"
  else if c =? 10 then js "\n"
  else if c =? 12 then js "\f"
  else if c =? 13 then js "\r"
  else if c =? 34 then [92; 34]
  else if c =? 92 then [92; 92]
  else if c <? 32 then unicode_escape c
  else [c].

(** A surrogate pair is printed as it is, a lone surrogate escaped. *)
Fixpoint quote_units (s : jsstring) : jsstring :=
  match s with
  | [] => []
  | c :: s' =>
      if is_high_surrogate c then
        match s' with
        | d :: s'' =>
            if is_low_surrogate d then c :: d :: quote_units s''
            else unicode_escape c ++ quote_units s'
        | [] => unicode_escape c
        end
      else if is_low_surrogate c then unicode_escape c ++ quote_units s'
      else quote_unit c ++ quote_units s'
  end.

Definition QuoteJSONString (s : jsstring) : jsstring :=
  [34] ++ quote_units s ++ [34].

Fixpoint result_mapM {A B} (f : A → result B) (l : list A) : result (list B) :=
  match l with
  | [] => Ok []
  | x :: l' => y ← f x; ys ← result_mapM f l'; Ok (y :: ys)
  end.

Definition circular_error : error :=
  TypeError "Converting circular structure to JSON".

Section Stringify.
Context `{Host} (h : heap).

(** [SerializeJSONProperty], without replacer and indentation: the
    text of [value], or [None] where the standard says [undefined].
    [stack] holds the objects being printed, [fuel] bounds the nesting.
    Calling a user [toJSON] is outside the model. *)
Fixpoint SerializeJSONProperty (fuel : nat) (stack : list loc) (value : val)
  : result (option jsstring) :=
  match fuel with
  | O => Throw (NotModelled "nesting deeper than the heap")
  | S fuel' =>
      match value with
      | VUndefined | VSymbol _ => Ok None
      | VNull => Ok (Some (js "null"))
      | VBool true => Ok (Some (js "true"))
      | VBool false => Ok (Some (js "false"))
      | VStr s => Ok (Some (QuoteJSONString s))
      | VNum n => Ok (Some (if is_finite n then Number_toString n else js "null"))
      | VRef l =>
          match h !! l with
          | None => Throw (NotModelled "dangling reference")
          | Some Fun => Ok None
          | Some (Arr elems) =>
              if bool_decide (l ∈ stack) then Throw circular_error
              else
                parts ← result_mapM (λ v,
                    text ← SerializeJSONProperty fuel' (l :: stack) v;
                    Ok (default (js "null") text)) elems;
                Ok (Some ([91] ++ join [44] parts ++ [93]))
          | Some (Obj props) =>
              if bool_decide (typeof h (default VUndefined (props_get (js "toJSON") props))
                              = TFunction)
              then Throw (NotModelled "toJSON")
              else if bool_decide (l ∈ stack) then Throw circular_error
              else
                members ← result_mapM (λ '(key, v),
                    text ← SerializeJSONProperty fuel' (l :: stack) v;
                    Ok (option_map (λ t, QuoteJSONString key ++ [58] ++ t) text)) props;
                Ok (Some ([123] ++ join [44] (omap id members) ++ [125]))
          end
      end
  end.

(** [JSON.stringify(value)]. *)
Definition JSON_stringify (value : val) : result (option jsstring) :=
  SerializeJSONProperty (S (size h)) [] value.
End Stringify.

(** *** Parsing *)

Definition is_json_ws (c : N) : bool :=
  (c =? 9) || (c =? 10) || (c =? 13) || (c =? 32).

Fixpoint skip_ws (s : jsstring) : jsstring :=
  match s with
  | c :: s' => if is_json_ws c then skip_ws s' else s
  | [] => []
  end.

Definition hex_value (c : N) : option N :=
  if (48 <=? c) && (c <=? 57) then Some (c - 48)
  else if (97 <=? c) && (c <=? 102) then Some (c - 87)
  else if (65 <=? c) && (c <=? 70) then Some (c - 55)
  else None.

Definition simple_escape (c : N) : option N :=
  if c =? 34 then Some 34
  else if c =? 92 then Some 92
  else if c =? 47 then Some 47
  else if c =? 98 then Some 8
  else if c =? 102 then Some 12
  else if c =? 110 then Some 10
  else if c =? 114 then Some 13
  else if c =? 116 then Some 9
  else None.

(** The code units of a string literal after its opening quote, and the
    text after its closing quote. *)
Fixpoint parse_string_units (s : jsstring) : option (jsstring * jsstring) :=
  match s with
  | [] => None
  | c :: s' =>
      if c =? 34 then Some ([], s')
      else if c =? 92 then
        match s' with
        | e :: s'' =>
            if e =? 117 then
              match s'' with
              | x3 :: x2 :: x1 :: x0 :: s''' =>
                  d3 ← hex_value x3; d2 ← hex_value x2;
                  d1 ← hex_value x1; d0 ← hex_value x0;
                  '(str, rest) ← parse_string_units s''';
                  Some ((d3 * 4096 + d2 * 256 + d1 * 16 + d0) :: str, rest)
              | _ => None
              end
            else
              u ← simple_escape e;
              '(str, rest) ← parse_string_units s'';
              Some (u :: str, rest)
        | [] => None
        end
      else if c <? 32 then None
      else
        '(str, rest) ← parse_string_units s';
        Some (c :: str, rest)
  end.

Definition is_digit (c : N) : bool := (48 <=? c) && (c <=? 57).

Fixpoint span_digits (s : jsstring) : jsstring * jsstring :=
  match s with
  | c :: s' =>
      if is_digit c then let '(ds, rest) := span_digits s' in (c :: ds, rest)
      else ([], s)
  | [] => ([], [])
  end.

Definition scan_int (s : jsstring) : option (jsstring * jsstring) :=
  match s with
  | c :: s' =>
      if c =? 48 then Some ([48], s')
      else if is_digit c then Some (span_digits s)
      else None
  | [] => None
  end.

Definition scan_frac (s : jsstring) : option (jsstring * jsstring) :=
  match s with
  | c :: s' =>
      if c =? 46 then
        match span_digits s' with
        | ([], _) => None
        | (ds, rest) => Some (46 :: ds, rest)
        end
      else Some ([], s)
  | [] => Some ([], [])
  end.

Definition scan_sign (s : jsstring) : jsstring * jsstring :=
  match s with
  | c :: s' => if (c =? 43) || (c =? 45) then ([c], s') else ([], s)
  | [] => ([], [])
  end.

Definition scan_exp (s : jsstring) : option (jsstring * jsstring) :=
  match s with
  | c :: s' =>
      if (c =? 101) || (c =? 69) then
        let '(sign, s'') := scan_sign s' in
        match span_digits s'' with
        | ([], _) => None
        | (ds, rest) => Some (c :: sign ++ ds, rest)
        end
      else Some ([], s)
  | [] => Some ([], [])
  end.

(** The longest JSON number literal [s] starts with, and what follows. *)
Definition scan_number (s : jsstring) : option (jsstring * jsstring) :=
  let '(minus, s1) :=
    match s with
    | c :: s' => if c =? 45 then ([45], s') else ([], s)
    | [] => ([], [])
    end in
  '(i, s2) ← scan_int s1;
  '(f, s3) ← scan_frac s2;
  '(e, s4) ← scan_exp s3;
  Some (minus ++ i ++ f ++ e, s4).

(** [expect word s]: [s] without its prefix [word]. *)
Fixpoint expect (word s : jsstring) : option jsstring :=
  match word, s with
  | [], _ => Some s
  | w :: word', c :: s' => if w =? c then expect word' s' else None
  | _ :: _, [] => None
  end.

Section Parse.
Context `{Host}.

Fixpoint parse_value (fuel : nat) (s : jsstring) : option (json * jsstring) :=
  match fuel with
  | O => None
  | S fuel' =>
      match skip_ws s with
      | [] => None
      | c :: s' =>
          if c =? 110 then rest ← expect (js "ull") s'; Some (JNull, rest)
          else if c =? 116 then rest ← expect (js "rue") s'; Some (JBool true, rest)
          else if c =? 102 then rest ← expect (js "alse") s'; Some (JBool false, rest)
          else if c =? 34 then
            '(str, rest) ← parse_string_units s'; Some (JStr str, rest)
          else if c =? 91 then
            match skip_ws s' with
            | [] => None
            | c' :: rest =>
                if c' =? 93 then Some (JArr [], rest)
                else '(elems, rest) ← parse_elements fuel' s'; Some (JArr elems, rest)
            end
          else if c =? 123 then
            match skip_ws s' with
            | [] => None
            | c' :: rest =>
                if c' =? 125 then Some (JObj [], rest)
                else '(members, rest) ← parse_members fuel' s'; Some (JObj members, rest)
            end
          else
            '(literal, rest) ← scan_number (c :: s');
            Some (JNum (StringToNumber literal), rest)
      end
  end
with parse_elements (fuel : nat) (s : jsstring) : option (list json * jsstring) :=
  match fuel with
  | O => None
  | S fuel' =>
      '(v, rest) ← parse_value fuel' s;
      match skip_ws rest with
      | [] => None
      | c :: rest' =>
          if c =? 44 then
            '(vs, rest'') ← parse_elements fuel' rest'; Some (v :: vs, rest'')
          else if c =? 93 then Some ([v], rest')
          else None
      end
  end
with parse_members (fuel : nat) (s : jsstring)
  : option (list (jsstring * json) * jsstring) :=
  match fuel with
  | O => None
  | S fuel' =>
      match skip_ws s with
      | [] => None
      | q :: s' =>
          if q =? 34 then
            '(key, rest) ← parse_string_units s';
            match skip_ws rest with
            | [] => None
            | c :: rest' =>
                if c =? 58 then
                  '(v, rest'') ← parse_value fuel' rest';
                  match skip_ws rest'' with
                  | [] => None
                  | c' :: r =>
                      if c' =? 44 then
                        '(ms, r') ← parse_members fuel' r; Some ((key, v) :: ms, r')
                      else if c' =? 125 then Some ([(key, v)], r)
                      else None
                  end
                else None
            end
          else None
      end
  end.

(** The JSON value a whole text denotes. *)
Definition parse_text (s : jsstring) : option json :=
  match parse_value (2 * length s + 2) s with
  | Some (j, rest) => if decide (skip_ws rest = []) then Some j else None
  | None => None
  end.
End Parse.

(** *** Building the parsed value *)

(** A new object, at a location the heap does not use yet. *)
Definition alloc (o : obj) : M val := λ h,
  let l := fresh (dom h) in Return (VRef l) (<[l := o]> h).

Fixpoint M_mapM {A B} (f : A → M B) (l : list A) : M (list B) :=
  match l with
  | [] => mret []
  | x :: l' => y ← f x; ys ← M_mapM f l'; mret (y :: ys)
  end.

(** An object literal defines its members in order: a repeated key
    keeps its first place and its last value. *)
Definition props_of_members (members : list (jsstring * val))
  : list (jsstring * val) :=
  foldl (λ props '(key, v), props_set key v props) [] members.

Fixpoint internalize (j : json) : M val :=
  match j with
  | JNull => mret VNull
  | JBool b => mret (VBool b)
  | JNum n => mret (VNum n)
  | JStr s => mret (VStr s)
  | JArr elems =>
      vs ← M_mapM internalize elems;
      alloc (Arr vs)
  | JObj members =>
      ps ← M_mapM (λ '(key, j), v ← internalize j; mret (key, v)) members;
      alloc (Obj (props_of_members ps))
  end.

Section LangJSON.
Context `{Host}.

Definition parse_error : error := SyntaxError "Unexpected token in JSON".

(** The coercion a built-in applies to a string argument: it differs
    from [String(v)] on a symbol, which it refuses. *)
Definition ToStringArgument (h : heap) (v : val) : result jsstring :=
  match v with
  | VSymbol _ => Throw (TypeError "Cannot convert a Symbol value to a string")
  | _ => ToString h v
  end.

(** [JSON.parse(text)], without reviver. *)
Definition JSON_parse (text : val) : M val :=
  s ← read (λ h, ToStringArgument h text);
  match parse_text s with
  | Some j => internalize j
  | None => raise parse_error
  end.

(** ** The [lang] module: [cloneJSON] and [tryParseJSON] *)

Definition cloneJSON (obj : val) : M val :=
  if is_nullish obj then mret obj
  else
    text ← read (λ h, JSON_stringify h obj);
    JSON_parse (from_option VStr VUndefined text).

(** [onError] is a function or absent; a function runs in the heap and
    may itself raise. *)
Definition tryParseJSON (str : val) (onError : option (error → M val)) : M val :=
  result ← try_catch (JSON_parse str) (λ e,
      match onError with
      | Some onError => onError e ;; mret VUndefined
      | None => mret VUndefined
      end);
  mret result.
End LangJSON.

(** ** A host

    [plain_host] prints a finite Number by its exact decimal expansion
    (an ECMAScript engine prints the shortest digits that read back as
    the Number; on the integers below 10^21 the two agree), reads a
    literal with correct rounding, and coerces an Array to the
    comma-separated strings of its elements and any other object to
    ["[object Object]"]. *)
Module Plain.
Definition prec : Z := 53.
Definition emax : Z := 1024.

(** The double nearest to the integer [z]. *)
Definition double_of_Z (z : Z) : number :=
  binary_normalize prec emax z 0 false.

Definition digits_of_Z (z : Z) : jsstring :=
  match z with
  | Zpos p => digits_of_uint (Pos.to_uint p)
  | _ => [48]
  end.

Fixpoint strip_zeros (s : jsstring) : jsstring :=
  match s with
  | c :: s' => if c =? 48 then strip_zeros s' else s
  | [] => []
  end.

Definition digits_of_finite (m : positive) (e : Z) : jsstring :=
  match e with
  | Z0 => digits_of_Z (Zpos m)
  | Zpos _ => digits_of_Z (Zpos m * 2 ^ e)
  | Zneg k =>
      if (Zpos m mod 2 ^ Zpos k =? 0)%Z then digits_of_Z (Zpos m / 2 ^ Zpos k)
      else
        let k := Pos.to_nat k in
        let ds := digits_of_Z (Zpos m * 5 ^ Z.of_nat k) in
        let ds := replicate (S k - length ds) 48 ++ ds in
        take (length ds - k) ds ++ [46]
          ++ reverse (strip_zeros (reverse (drop (length ds - k) ds)))
  end.

Definition Number_toString (n : number) : jsstring :=
  match n with
  | S754_nan => js "NaN"
  | S754_infinity false => js "Infinity"
  | S754_infinity true => js "-Infinity"
  | S754_zero _ => js "0"
  | S754_finite false m e => digits_of_finite m e
  | S754_finite true m e => 45 :: digits_of_finite m e
  end.

Definition digits_value (ds : jsstring) : Z :=
  foldl (λ acc c, acc * 10 + Z.of_N (c - 48))%Z 0%Z ds.

Definition StringToNumber (s : jsstring) : number :=
  let '(neg, s1) :=
    match s with
    | c :: s' => if c =? 45 then (true, s') else (false, s)
    | [] => (false, [])
    end in
  let '(ip, s2) := span_digits s1 in
  let '(fp, s3) :=
    match s2 with
    | c :: s' => if c =? 46 then span_digits s' else ([], s2)
    | [] => ([], [])
    end in
  let ex :=
    match s3 with
    | _ :: s' =>
        let '(sign, s'') := scan_sign s' in
        let '(ds, _) := span_digits s'' in
        if decide (sign = [45]) then (- digits_value ds)%Z else digits_value ds
    | [] => 0%Z
    end in
  let e10 := (ex - Z.of_nat (length fp))%Z in
  match digits_value (ip ++ fp) with
  | Zpos mant =>
      if (0 <=? e10)%Z
      then binary_normalize prec emax
             ((if neg then Zneg mant else Zpos mant) * 10 ^ e10) 0 neg
      else SFdiv prec emax (S754_finite neg mant 0)
             (S754_finite false (Z.to_pos (10 ^ (- e10))) 0)
  | _ => S754_zero neg
  end.

Fixpoint Array_join (fuel : nat) (h : heap) (elems : list val) : jsstring :=
  match fuel with
  | O => []
  | S fuel' =>
      join [44] ((λ v,
        match v with
        | VUndefined | VNull => []
        | VBool true => js "true"
        | VBool false => js "false"
        | VNum n => Number_toString n
        | VStr s => s
        | VSymbol _ => []
        | VRef l =>
            match h !! l with
            | Some (Arr elems') => Array_join fuel' h elems'
            | Some Fun => js "function () { [native code] }"
            | _ => js "[object Object]"
            end
        end) <$> elems)
  end.

Definition ObjectToString (h : heap) (l : loc) : result jsstring :=
  match h !! l with
  | Some (Arr elems) =>
      if existsb (λ v, match v with VSymbol _ => true | _ => false end) elems
      then Throw (TypeError "Cannot convert a Symbol value to a string")
      else Ok (Array_join (S (size h)) h elems)
  | Some Fun => Ok (js "function () { [native code] }")
  | _ => Ok (js "[object Object]")
  end.
End Plain.

Definition plain_host : Host :=
  {| Number_toString := Plain.Number_toString;
     StringToNumber := Plain.StringToNumber;
     ObjectToString := Plain.ObjectToString |}.

(** ** Vocabulary of the statements *)

(** A string of white space only; the empty string is one. *)
Definition blank (s : jsstring) : Prop := Forall (λ c, isWhiteSpace c = true) s.

Section EmptyData.
Context (h : heap).

(** Empty data in the specification's words: null or absent, a blank
    string, an array-like sequence of length zero, or a plain object
    with no own enumerable property. *)
Definition empty_data_as_specified (value : val) : Prop :=
  is_nullish value = true
  ∨ (∃ s, value = VStr s ∧ blank s)
  ∨ (isArrayLike h value = Ok true
     ∧ ∃ n, Get h value (js "length") = Ok (VNum n) ∧ number_is_integer n 0)
  ∨ (∃ l, value = VRef l ∧ h !! l = Some (Obj [])).

(** Empty data as [isEmptyData] tests it: the third case is an Array,
    the fourth any other value that passes [isObject]. *)
Definition empty_data (value : val) : Prop :=
  is_nullish value = true
  ∨ (∃ s, value = VStr s ∧ blank s)
  ∨ (∃ l, value = VRef l ∧ h !! l = Some (Arr []))
  ∨ (Array_isArray h value = false ∧ isObject h value = true
     ∧ OwnEnumerableProps h value = []).
End EmptyData.

(** [props] assigned one after the other onto the property list [onto]. *)
Definition assign_all (props onto : list (jsstring * val)) : list (jsstring * val) :=
  foldl (λ acc '(key, v), props_set key v acc) onto props.

(** The properties of the target [l], which starts with [ps], after the
    sources have been merged into it in order.  Each source is read in
    the heap of that moment, where the target holds what was merged so
    far. *)
Fixpoint merged (h : heap) (l : loc) (ps : list (jsstring * val))
  (sources : list val) : list (jsstring * val) :=
  match sources with
  | [] => ps
  | source :: sources' =>
      merged h l (assign_all (OwnEnumerableProps (<[l := Obj ps]> h) source) ps)
        sources'
  end.

Definition is_ref (l : loc) (v : val) : bool :=
  match v with
  | VRef l' => bool_decide (l' = l)
  | _ => false
  end.


(** ** JSON values of the heap *)

Section Print.
Context `{Host}.

(** The text [JSON.stringify] prints for a JSON value. *)
Fixpoint print (j : json) : jsstring :=
  match j with
  | JNull => js "null"
  | JBool true => js "true"
  | JBool false => js "false"
  | JNum n => Number_toString n
  | JStr s => QuoteJSONString s
  | JArr elems => [91] ++ join [44] (print <$> elems) ++ [93]
  | JObj members =>
      [123] ++ join [44]
        ((λ '(key, j), QuoteJSONString key ++ [58] ++ print j) <$> members)
      ++ [125]
  end.

(** A JSON number literal, all of it. *)
Definition number_literal (s : jsstring) : Prop := scan_number s = Some (s, []).

(** The host prints [n] as a literal that reads back as [n]. *)
Definition number_round_trips (n : number) : Prop :=
  number_literal (Number_toString n) ∧ StringToNumber (Number_toString n) = n.
End Print.

Fixpoint json_numbers (j : json) : list number :=
  match j with
  | JNum n => [n]
  | JArr elems => elems ≫= json_numbers
  | JObj members => members ≫= (λ '(_, j), json_numbers j)
  | _ => []
  end.

(** The number of values in [j], each element and member counted once
    more for the step that reaches it. *)
Fixpoint json_weight (j : json) : nat :=
  match j with
  | JArr elems => S (sum_list ((λ j, S (json_weight j)) <$> elems))
  | JObj members => S (sum_list ((λ '(_, j), S (json_weight j)) <$> members))
  | _ => 1
  end.

Definition result_weight (r : option json) : nat :=
  match r with
  | Some j => json_weight j
  | None => 0
  end.

(** [serializes strict h v r]: the value [v] of the heap [h] is
    serialized as [r], where [None] stands for no text at all.  The
    derivation is finite, so [v] reaches no cycle.  With [strict] the
    rules that drop or coerce a part are switched off: what remains are
    the JSON-compatible values, each with the JSON value it holds. *)
Inductive serializes (strict : bool) (h : heap) : val → option json → Prop :=
  | ser_undefined :
      strict = false → serializes strict h VUndefined None
  | ser_symbol d :
      strict = false → serializes strict h (VSymbol d) None
  | ser_function l :
      strict = false → h !! l = Some Fun → serializes strict h (VRef l) None
  | ser_non_finite n :
      strict = false → is_finite n = false →
      serializes strict h (VNum n) (Some JNull)
  | ser_null : serializes strict h VNull (Some JNull)
  | ser_bool b : serializes strict h (VBool b) (Some (JBool b))
  | ser_number n :
      is_finite n = true → serializes strict h (VNum n) (Some (JNum n))
  | ser_string s : serializes strict h (VStr s) (Some (JStr s))
  | ser_array l elems jsons :
      h !! l = Some (Arr elems) →
      serializes_elems strict h elems jsons →
      serializes strict h (VRef l) (Some (JArr jsons))
  | ser_object l props members :
      h !! l = Some (Obj props) →
      NoDup props.*1 →
      typeof h (default VUndefined (props_get (js "toJSON") props)) ≠ TFunction →
      serializes_props strict h props members →
      serializes strict h (VRef l) (Some (JObj members))
with serializes_elems (strict : bool) (h : heap) : list val → list json → Prop :=
  | ser_elems_nil : serializes_elems strict h [] []
  | ser_elems_cons v r elems jsons :
      serializes strict h v r →
      serializes_elems strict h elems jsons →
      serializes_elems strict h (v :: elems) (default JNull r :: jsons)
with serializes_props (strict : bool) (h : heap)
  : list (jsstring * val) → list (jsstring * json) → Prop :=
  | ser_props_nil : serializes_props strict h [] []
  | ser_props_cons key v j props members :
      serializes strict h v (Some j) →
      serializes_props strict h props members →
      serializes_props strict h ((key, v) :: props) ((key, j) :: members)
  | ser_props_skip key v props members :
      serializes strict h v None →
      serializes_props strict h props members →
      serializes_props strict h ((key, v) :: props) members.

(** [v] is JSON-compatible and holds the JSON value [j]. *)
Definition denotes (h : heap) (v : val) (j : json) : Prop :=
  serializes true h v (Some j).

(** Two values, each in its heap, are deeply equal when they hold the
    same JSON value. *)
Definition deep_equal (h : heap) (v : val) (h' : heap) (v' : val) : Prop :=
  ∃ j, denotes h v j ∧ denotes h' v' j.

(** The JSON values that objects of the heap can hold: finite numbers,
    and no key twice in an object. *)
Inductive json_wf : json → Prop :=
  | wf_null : json_wf JNull
  | wf_bool b : json_wf (JBool b)
  | wf_num n : is_finite n = true → json_wf (JNum n)
  | wf_str s : json_wf (JStr s)
  | wf_arr elems : Forall json_wf elems → json_wf (JArr elems)
  | wf_obj members :
      NoDup members.*1 → Forall (λ m, json_wf m.2) members →
      json_wf (JObj members).

(** No object of the heap has a key twice. *)
Definition heap_wf (h : heap) : Prop :=
  ∀ l props, h !! l = Some (Obj props) → NoDup props.*1.

(** ** Vocabulary of the further statements *)

(** The heap a computation leaves behind, whether it returned or
    raised. *)
Definition final_heap {A} (o : outcome A) : heap :=
  match o with
  | Return _ h | Raise _ h => h
  end.

(** [h'] is [h] but for the object of [target]: the same locations, and
    at each of them that is not [target] the same object. *)
Definition only_changes (target : val) (h h' : heap) : Prop :=
  dom h' = dom h ∧ ∀ l, target ≠ VRef l → h' !! l = h !! l.

(** The JSON values that are empty data: null, a blank string, the
    empty array and the empty object. *)
Definition empty_json (j : json) : bool :=
  match j with
  | JNull => true
  | JStr s => bool_decide (trim s = js "")
  | JArr [] => true
  | JObj [] => true
  | _ => false
  end.

(** The values [JSON.stringify] has no text for: [undefined], a symbol
    and a function. *)
Definition not_json (h : heap) (v : val) : Prop :=
  v = VUndefined ∨ (∃ d, v = VSymbol d) ∨ (∃ l, v = VRef l ∧ h !! l = Some Fun).

(** The values a JSON round trip gives back as they are, whatever the
    host: [null], a boolean and a string. *)
Definition json_scalar (v : val) : Prop :=
  v = VNull ∨ (∃ b, v = VBool b) ∨ (∃ s, v = VStr s).

(** * Properties of [src/boolean.js] *)

(** Boolean tests on code units, turned into facts [lia] can use. *)
Ltac unit_tests :=
  repeat match goal with
    | H : _ && _ = true |- _ => apply andb_true_iff in H as [? ?]
    | H : _ || _ = false |- _ => apply orb_false_iff in H as [? ?]
    | H : negb _ = true |- _ => apply negb_true_iff in H
    | H : negb _ = false |- _ => apply negb_false_iff in H
    | H : (_ <=? _) = true |- _ => apply N.leb_le in H
    | H : (_ <=? _) = false |- _ => apply N.leb_gt in H
    | H : (_ <? _) = true |- _ => apply N.ltb_lt in H
    | H : (_ <? _) = false |- _ => apply N.ltb_ge in H
    | H : (_ =? _) = true |- _ => apply N.eqb_eq in H
    | H : (_ =? _) = false |- _ => apply N.eqb_neq in H
    | H : _ && _ = false |- _ => apply andb_false_iff in H as [? | ?]
    | H : _ || _ = true |- _ => apply orb_true_iff in H as [? | ?]
    end.

Lemma toUpperCase_unit_nonempty c : toUpperCase_unit c ≠ [].
Proof. unfold toUpperCase_unit. repeat case_match; discriminate. Qed.

Lemma toUpperCase_nil_inv s : toUpperCase s = [] → s = [].
Proof.
  destruct s as [|c s]; [done|].
  unfold toUpperCase. rewrite bind_cons. intros E.
  apply app_eq_nil in E as [E _]. by apply toUpperCase_unit_nonempty in E.
Qed.

(** The only code units whose upper case is the ASCII letter [u] are
    [u] itself and its lower-case form. *)
Lemma toUpperCase_unit_letter c u :
  65 <= u <= 90 → toUpperCase_unit c = [u] → c = u ∨ c = u + 32.
Proof.
  intros Hu. unfold toUpperCase_unit.
  repeat case_match; intros E; simplify_eq; unit_tests; lia.
Qed.

Lemma toUpperCase_letter s u :
  65 <= u <= 90 → toUpperCase s = [u] ↔ s = [u] ∨ s = [u + 32].
Proof.
  intros Hu. split.
  - destruct s as [|c s]; [done|].
    unfold toUpperCase. rewrite bind_cons. intros E.
    pose proof (toUpperCase_unit_nonempty c) as Hc.
    destruct (toUpperCase_unit c) as [|x [|y t]] eqn:Ec; [done| |].
    + simpl in E. injection E as -> Es.
      apply (toUpperCase_nil_inv s) in Es as ->.
      apply toUpperCase_unit_letter in Ec as [-> | ->]; auto.
    + simpl in E. discriminate.
  - assert (toUpperCase_unit u = [u]) as E1.
    { unfold toUpperCase_unit. repeat case_match; try done; unit_tests; lia. }
    assert (toUpperCase_unit (u + 32) = [u]) as E2.
    { unfold toUpperCase_unit.
      repeat case_match; unit_tests; try lia; f_equal; lia. }
    intros [-> | ->]; unfold toUpperCase; rewrite bind_cons; simpl;
      rewrite app_nil_r; done.
Qed.

Lemma toUpperCase_Y s : toUpperCase s = js "Y" ↔ s = js "Y" ∨ s = js "y".
Proof. apply (toUpperCase_letter s 89). lia. Qed.

Lemma toUpperCase_N s : toUpperCase s = js "N" ↔ s = js "N" ∨ s = js "n".
Proof. apply (toUpperCase_letter s 78). lia. Qed.

Section BooleanFacts.
Context `{Host} (h : heap).

Lemma ynToBool_flag v b : flag_of h v b → ynToBool h v = Ok b.
Proof.
  intros (s & Hs & Hu). unfold ynToBool. rewrite Hs. simpl. rewrite Hu.
  by destruct b.
Qed.

Lemma ynToBool_invalid v : invalid_flag h v → ynToBool h v = Throw ynToBool_error.
Proof.
  intros (s & Hs & HY & HN). unfold ynToBool. rewrite Hs. simpl.
  by rewrite (bool_decide_eq_true_2 _ HY), (bool_decide_eq_true_2 _ HN).
Qed.

(** What [ynToBool] does is fixed by the string its argument coerces
    to: a flag, not a flag, or no string at all. *)
Lemma ynToBool_cases v :
  (∃ b, flag_of h v b ∧ ynToBool h v = Ok b)
  ∨ (invalid_flag h v ∧ ynToBool h v = Throw ynToBool_error)
  ∨ (∃ e, ToString h v = Throw e ∧ ynToBool h v = Throw e).
Proof.
  destruct (ToString h v) as [s|e] eqn:Hs.
  - destruct (decide (toUpperCase s = js "Y")) as [HY|HY].
    { left. exists true. assert (flag_of h v true) by (exists s; done).
      split; [done|]. by apply ynToBool_flag. }
    destruct (decide (toUpperCase s = js "N")) as [HN|HN].
    { left. exists false. assert (flag_of h v false) by (exists s; done).
      split; [done|]. by apply ynToBool_flag. }
    right; left. assert (invalid_flag h v) by (exists s; done).
    split; [done|]. by apply ynToBool_invalid.
  - right; right. exists e. split; [done|]. unfold ynToBool. by rewrite Hs.
Qed.

(** The dual checks are one traversal: [some] of the negated callback
    is the negation of [every]. *)
Lemma Array_some_negb {A} (f : A → result bool) (values : list A) :
  Array_some (λ v, negb <$> f v) values = negb <$> Array_every f values.
Proof.
  induction values as [|v values IH]; [done|]. simpl.
  destruct (f v) as [[|]|e]; simpl; [apply IH|done|done].
Qed.

Lemma Array_every_negb {A} (f : A → result bool) (values : list A) :
  Array_every (λ v, negb <$> f v) values = negb <$> Array_some f values.
Proof.
  induction values as [|v values IH]; [done|]. simpl.
  destruct (f v) as [[|]|e]; simpl; [done|apply IH|done].
Qed.

Lemma Array_every_prefix {A} (f : A → result bool) (pre rest : list A) :
  Forall (λ u, f u = Ok true) pre →
  Array_every f (pre ++ rest) = Array_every f rest.
Proof. induction 1 as [|u pre Hu _ IH]; [done|]. simpl. by rewrite Hu. Qed.

Lemma Array_some_prefix {A} (f : A → result bool) (pre rest : list A) :
  Forall (λ u, f u = Ok false) pre →
  Array_some f (pre ++ rest) = Array_some f rest.
Proof. induction 1 as [|u pre Hu _ IH]; [done|]. simpl. by rewrite Hu. Qed.

Lemma flags_ynToBool b (pre : list val) :
  Forall (λ u, flag_of h u b) pre → Forall (λ u, ynToBool h u = Ok b) pre.
Proof.
  intros Hpre. eapply Forall_impl; [exact Hpre|]. intros u. apply ynToBool_flag.
Qed.

Lemma flags_not_ynToBool b (pre : list val) :
  Forall (λ u, flag_of h u b) pre →
  Forall (λ u, negb <$> ynToBool h u = Ok (negb b)) pre.
Proof.
  intros Hpre. eapply Forall_impl; [exact Hpre|].
  intros u Hu. simpl in Hu. by rewrite (ynToBool_flag _ _ Hu).
Qed.

(** C1: [boolToYN] and [ynToBool] are mutual inverses: a boolean comes
    back from its flag, and a string that is "Y" or "N" up to case
    comes back from its boolean as its upper-case form. *)
Theorem boolToYN_ynToBool_inverse :
  (∀ b : bool, boolToYN h (VBool b) ≫= (λ s : jsstring, ynToBool h (VStr s)) = Ok b)
  ∧ (∀ s : jsstring,
       s = js "Y" ∨ s = js "y" ∨ s = js "N" ∨ s = js "n" →
       ynToBool h (VStr s) ≫= (λ b : bool, boolToYN h (VBool b)) = Ok (toUpperCase s)
       ∧ (toUpperCase s = js "Y" ∨ toUpperCase s = js "N")).
Proof.
  split.
  - by intros [|].
  - intros s Hs.
    assert (∃ b : bool, toUpperCase s = if b then js "Y" else js "N") as [b Hb].
    { destruct Hs as [-> | [-> | [-> | ->]]];
        [by exists true|by exists true|by exists false|by exists false]. }
    assert (flag_of h (VStr s) b) as Hf by (exists s; done).
    rewrite (ynToBool_flag _ _ Hf), Hb. destruct b; simpl; auto.
Qed.

(** C9: on the empty sequence [allY] and [allN] are true, [someY] and
    [someN] are false. *)
Theorem batch_checks_empty :
  allY h [] = Ok true ∧ allN h [] = Ok true
  ∧ someY h [] = Ok false ∧ someN h [] = Ok false.
Proof. done. Qed.

(** C10: each check is the negation of its dual, outcome by outcome:
    where one returns [b] the other returns [negb b], and where one
    raises the other raises the same error. *)
Theorem batch_checks_de_morgan (values : list val) :
  allY h values = negb <$> someN h values
  ∧ allN h values = negb <$> someY h values
  ∧ someN h values = negb <$> allY h values
  ∧ someY h values = negb <$> allN h values.
Proof.
  unfold allY, someN, allN, someY.
  rewrite Array_some_negb, Array_every_negb.
  assert (∀ r : result bool, r = negb <$> (negb <$> r)) as Hinv.
  { intros [[|]|e]; done. }
  repeat split; auto.
Qed.

(** C2, as amended: the checks raise [ynToBool]'s error at the first
    element that is not a flag when the flags before it leave the
    answer open ("Y"s for [allY] and [someN], "N"s for [allN] and
    [someY]); a flag that settles the answer ends the traversal before
    any later element is looked at. *)
Theorem batch_checks_first_invalid (pre post : list val) (v : val) :
  (invalid_flag h v →
     (Forall (λ u, flag_of h u true) pre →
        allY h (pre ++ v :: post) = Throw ynToBool_error
        ∧ someN h (pre ++ v :: post) = Throw ynToBool_error)
     ∧ (Forall (λ u, flag_of h u false) pre →
        allN h (pre ++ v :: post) = Throw ynToBool_error
        ∧ someY h (pre ++ v :: post) = Throw ynToBool_error))
  ∧ (flag_of h v false → Forall (λ u, flag_of h u true) pre →
       allY h (pre ++ v :: post) = Ok false
       ∧ someN h (pre ++ v :: post) = Ok true)
  ∧ (flag_of h v true → Forall (λ u, flag_of h u false) pre →
       allN h (pre ++ v :: post) = Ok false
       ∧ someY h (pre ++ v :: post) = Ok true).
Proof.
  unfold allY, someN, allN, someY. split; [|split].
  - intros Hv. apply ynToBool_invalid in Hv. split; intros Hpre.
    + rewrite Array_every_prefix by by apply flags_ynToBool.
      rewrite Array_some_prefix by by apply (flags_not_ynToBool true).
      simpl. by rewrite Hv.
    + rewrite Array_every_prefix by by apply (flags_not_ynToBool false).
      rewrite Array_some_prefix by by apply flags_ynToBool.
      simpl. by rewrite Hv.
  - intros Hv Hpre. apply ynToBool_flag in Hv.
    rewrite Array_every_prefix by by apply flags_ynToBool.
    rewrite Array_some_prefix by by apply (flags_not_ynToBool true).
    simpl. by rewrite Hv.
  - intros Hv Hpre. apply ynToBool_flag in Hv.
    rewrite Array_every_prefix by by apply (flags_not_ynToBool false).
    rewrite Array_some_prefix by by apply flags_ynToBool.
    simpl. by rewrite Hv.
Qed.
End BooleanFacts.

(** C1 at the flag "n". *)
Lemma boolToYN_ynToBool_inverse_witness :
  (js "n" = js "Y" ∨ js "n" = js "y" ∨ js "n" = js "N" ∨ js "n" = js "n")
  ∧ @ynToBool plain_host ∅ (VStr (js "n")) ≫= (λ b : bool, boolToYN ∅ (VBool b))
    = Ok (js "N").
Proof.
  assert (js "n" = js "Y" ∨ js "n" = js "y" ∨ js "n" = js "N" ∨ js "n" = js "n")
    as Hs by (right; right; right; reflexivity).
  split; [exact Hs|].
  exact (proj1 (proj2 (@boolToYN_ynToBool_inverse plain_host ∅) (js "n") Hs)).
Defined.

(** C2 as stated fails: ["N"] settles [allY] before ["X"] is reached. *)
Lemma batch_checks_short_circuit_counterexample :
  let values := [VStr (js "N"); VStr (js "X")] in
  (∃ v, v ∈ values ∧ ¬ @valid_flag plain_host ∅ v)
  ∧ @allY plain_host ∅ values = Ok false
  ∧ @someN plain_host ∅ values = Ok true
  ∧ @allN plain_host ∅ [VStr (js "Y"); VStr (js "X")] = Ok false
  ∧ @someY plain_host ∅ [VStr (js "Y"); VStr (js "X")] = Ok true.
Proof.
  simpl. split; [|done].
  exists (VStr (js "X")). split; [set_solver|].
  intros [b (s & Hs & Hu)]. simpl in Hs. injection Hs as <-.
  by destruct b.
Qed.

(** C2, amended, at [["Y"; "X"; "N"]] and [["N"; "X"]]. *)
Lemma batch_checks_first_invalid_witness :
  @allY plain_host ∅ [VStr (js "Y"); VStr (js "X"); VStr (js "N")]
    = Throw ynToBool_error
  ∧ @someY plain_host ∅ [VStr (js "N"); VStr (js "X")] = Throw ynToBool_error.
Proof.
  assert (@invalid_flag plain_host ∅ (VStr (js "X"))) as HX.
  { exists (js "X"). by repeat split. }
  assert (@flag_of plain_host ∅ (VStr (js "Y")) true) as HY by (by exists (js "Y")).
  assert (@flag_of plain_host ∅ (VStr (js "N")) false) as HN by (by exists (js "N")).
  split.
  - refine (proj1 (proj1 (proj1 (@batch_checks_first_invalid plain_host ∅
      [VStr (js "Y")] [VStr (js "N")] (VStr (js "X"))) HX) _)).
    constructor; [exact HY|constructor].
  - refine (proj2 (proj2 (proj1 (@batch_checks_first_invalid plain_host ∅
      [VStr (js "N")] [] (VStr (js "X"))) HX) _)).
    constructor; [exact HN|constructor].
Defined.

(** * Properties of the predicates of [lang] *)

Lemma Number_remainder_one_zero (s : bool) (m : positive) (e : Z) :
  Number_equal (Number_remainder (S754_finite s m e) one) zero = true
  ↔ (0 <= e)%Z ∨ (e < 0 ∧ ∃ k, Zpos m = k * 2 ^ (- e))%Z.
Proof.
  unfold Number_remainder, one, number_of_Z.
  destruct (Z.le_gt_cases 0 e) as [He|He].
  - rewrite Z.min_r by done. rewrite Z.sub_0_r. simpl (2 ^ 0)%Z.
    rewrite Z.mul_1_r, Z.mod_1_r. split; [auto|done].
  - rewrite Z.min_l by lia. rewrite Z.sub_diag, Z.sub_0_l.
    simpl (2 ^ 0)%Z. rewrite Z.mul_1_r, Z.mul_1_l.
    assert (0 < 2 ^ (- e))%Z as Hpow by (apply Z.pow_pos_nonneg; lia).
    pose proof (Z.mod_pos_bound (Zpos m) (2 ^ (- e)) Hpow) as Hr.
    pose proof (Z.mod_divide (Zpos m) (2 ^ (- e)) ltac:(lia)) as Hdiv.
    destruct (Zpos m mod 2 ^ (- e))%Z as [|r|r] eqn:Er.
    + split; [|done]. intros _. right. split; [done|].
      by apply Hdiv.
    + split; [by destruct s|]. intros [?|[_ Hk]]; [lia|]. apply Hdiv in Hk. done.
    + lia.
Qed.

(** The test of [isArrayLike] on its [length]: a non-negative integer. *)
Lemma nonneg_integer_test (n : number) :
  Number_ge n zero && Number_equal (Number_remainder n one) zero = true
  ↔ ∃ k, (0 <= k)%Z ∧ number_is_integer n k.
Proof.
  destruct n as [s|s| |s m e].
  - split; [|done]. intros _. by exists 0%Z.
  - split; [by destruct s|]. by intros (k & _ & []).
  - split; [done|]. by intros (k & _ & []).
  - rewrite andb_true_iff, Number_remainder_one_zero.
    assert (e < 0 → 0 < 2 ^ (- e))%Z as Hneg.
    { intros. apply Z.pow_pos_nonneg; lia. }
    assert (0 <= e → 0 < 2 ^ e)%Z as Hpos.
    { intros. apply Z.pow_pos_nonneg; lia. }
    destruct s; simpl.
    + split; [by intros [? _]|]. unfold signed.
      intros (k & Hk & [[He ->]|[He Hm]]); [specialize (Hpos He)|specialize (Hneg He)]; nia.
    + split.
      * intros [_ [He|[He [k Hk]]]].
        -- exists (Zpos m * 2 ^ e)%Z. specialize (Hpos He).
           split; [lia|by left].
        -- exists k. specialize (Hneg He). split; [nia|]. by right.
      * intros (k & Hk & [[He ->]|[He Hm]]); (split; [done|]); [by left|].
        right. split; [done|]. by exists k.
Qed.

Section PredicateFacts.
Context (h : heap).

Lemma number_of_nat_integer (n : nat) :
  number_is_integer (number_of_nat n) (Z.of_nat n).
Proof.
  unfold number_of_nat, number_of_Z.
  destruct (Z.of_nat n) as [|p|p] eqn:E; simpl; [done| |lia].
  left. split; [done|]. unfold signed. lia.
Qed.

(** C7: [isArrayLike] always returns; it returns [true] exactly for a
    non-null value that is not a function and whose [length] is a
    Number that is a non-negative integer; so Arrays are array-like
    and functions are not. *)
Theorem isArrayLike_spec (obj : val) :
  (∃ b, isArrayLike h obj = Ok b)
  ∧ (isArrayLike h obj = Ok true
     ↔ is_nullish obj = false ∧ typeof h obj ≠ TFunction
       ∧ ∃ n k, Get h obj (js "length") = Ok (VNum n)
                ∧ number_is_integer n k ∧ (0 <= k)%Z)
  ∧ (Array_isArray h obj = true → isArrayLike h obj = Ok true)
  ∧ (typeof h obj = TFunction → isArrayLike h obj = Ok false).
Proof.
  assert (∀ len : val,
    (match len with
     | VNum len => Ok (Number_ge len zero
                       && Number_equal (Number_remainder len one) zero)
     | _ => Ok false
     end = Ok true)
    ↔ ∃ n k, len = VNum n ∧ number_is_integer n k ∧ (0 <= k)%Z) as Htest.
  { intros len. split.
    - destruct len; try done. intros [= E].
      apply nonneg_integer_test in E as (k & ? & ?). eauto.
    - intros (n & k & -> & Hn & Hk). f_equal.
      apply nonneg_integer_test. eauto. }
  assert (typeof h obj ≠ TFunction → is_nullish obj = false →
          ∃ len, Get h obj (js "length") = Ok len) as Hget.
  { intros Hf Hn. destruct obj as [| | | | s | |l]; try done; simpl; eauto.
    simpl in Hf. destruct (h !! l) as [[ps|es|]|]; try done; eauto. }
  unfold isArrayLike. split; [|split; [split|split]].
  - destruct (is_nullish obj) eqn:Hn; [eauto|].
    case_decide as Hf; [eauto|].
    destruct (Hget Hf eq_refl) as [len ->]. simpl.
    destruct len; eauto.
  - destruct (is_nullish obj) eqn:Hn; [done|].
    case_decide as Hf; [done|].
    destruct (Hget Hf eq_refl) as [len Hlen]. rewrite Hlen. simpl.
    intros Ht. apply Htest in Ht as (n & k & -> & ? & ?). eauto 10.
  - intros (Hn & Hf & n & k & Hlen & Hint & Hk).
    rewrite Hn. case_decide; [done|]. rewrite Hlen. simpl.
    apply (Htest (VNum n)). eauto.
  - intros Harr. destruct obj as [| | | | | |l]; try done. simpl in *.
    destruct (h !! l) as [[ps|es|]|] eqn:Hl; try done.
    case_decide; [done|]. simpl.
    f_equal. apply nonneg_integer_test.
    exists (Z.of_nat (length es)). split; [lia|]. apply number_of_nat_integer.
  - intros Hf. destruct (is_nullish obj); [done|]. by rewrite decide_True.
Qed.
End PredicateFacts.

(** C7 at an Array of two elements and at a function. *)
Lemma isArrayLike_spec_witness :
  let h : heap := {[ 1%positive := Arr [VNull; VNull]; 2%positive := Fun ]} in
  (Array_isArray h (VRef 1) = true ∧ isArrayLike h (VRef 1) = Ok true)
  ∧ (typeof h (VRef 2) = TFunction ∧ isArrayLike h (VRef 2) = Ok false).
Proof.
  intros h.
  assert (Array_isArray h (VRef 1) = true) as Harr by reflexivity.
  assert (typeof h (VRef 2) = TFunction) as Hfun by reflexivity.
  split; (split; [done|]).
  - exact (proj1 (proj2 (proj2 (isArrayLike_spec h (VRef 1)))) Harr).
  - exact (proj2 (proj2 (proj2 (isArrayLike_spec h (VRef 2)))) Hfun).
Defined.

Lemma trimStart_nil s : trimStart s = [] ↔ blank s.
Proof.
  unfold blank. induction s as [|c s IH]; simpl.
  - split; [constructor|done].
  - destruct (isWhiteSpace c) eqn:Hc.
    + rewrite IH. split; [by constructor|by inversion 1].
    + split; [done|]. inversion 1; congruence.
Qed.

Lemma trimStart_blank s : blank (trimStart s) → trimStart s = [].
Proof.
  unfold blank. induction s as [|c s IH]; simpl; [done|].
  destruct (isWhiteSpace c) eqn:Hc; [done|]. inversion 1; congruence.
Qed.

Lemma blank_reverse s : blank (reverse s) ↔ blank s.
Proof. unfold blank. by rewrite Forall_reverse. Qed.

(** [trim] leaves nothing exactly on the blank strings. *)
Lemma trim_nil s : trim s = [] ↔ blank s.
Proof.
  unfold trim, trimEnd. split.
  - intros E. apply (f_equal reverse) in E. rewrite reverse_involutive in E.
    change (reverse []) with (@nil N) in E.
    apply trimStart_nil, blank_reverse, trimStart_blank in E.
    by apply trimStart_nil.
  - intros Hs. apply trimStart_nil in Hs. rewrite Hs. done.
Qed.

Section EmptyDataFacts.
Context (h : heap).

Lemma isEmptyData_loop_own (value : val) (keys : list jsstring) :
  is_nullish value = false → keys ⊆ ForIn h value →
  isEmptyData_loop h value keys = Ok (bool_decide (keys = [])).
Proof.
  intros Hn Hkeys. destruct keys as [|key keys]; [done|]. simpl.
  assert (hasOwnProp h value key = Ok true) as ->.
  { unfold hasOwnProp. destruct value; try done;
      (rewrite bool_decide_eq_true_2; [done|]); apply Hkeys; set_solver. }
  done.
Qed.

(** C4, as amended: [isEmptyData] always returns, and it returns
    [true] exactly for null and undefined, for a blank string, for an
    Array of length zero and for a non-array object without own
    enumerable property. *)
Theorem isEmptyData_spec (value : val) :
  (∃ b, isEmptyData h value = Ok b)
  ∧ (isEmptyData h value = Ok true ↔ empty_data h value).
Proof.
  unfold empty_data, isEmptyData.
  destruct value as [| |b|n|s|d|l]; simpl.
  - split; [eauto|]. split; [auto|done].
  - split; [eauto|]. split; [auto|done].
  - split; [eauto|]. split; [done|].
    intros [?|[(?&?&?)|[(?&?&?)|(?&?&?)]]]; done.
  - split; [eauto|]. split; [done|].
    intros [?|[(?&?&?)|[(?&?&?)|(?&?&?)]]]; done.
  - split; [eauto|]. split.
    + intros [= E]. apply bool_decide_eq_true_1 in E.
      right; left. exists s. split; [done|]. by apply trim_nil.
    + intros [?|[(s' & [= <-] & Hs)|[(?&?&?)|(?&?&?)]]]; try done.
      f_equal. apply bool_decide_eq_true_2. by apply trim_nil.
  - split; [eauto|]. split; [done|].
    intros [?|[(?&?&?)|[(?&?&?)|(?&?&?)]]]; done.
  - unfold isObject, ForIn. simpl.
    destruct (h !! l) as [[ps|es|]|] eqn:Hl; simpl.
    + rewrite isEmptyData_loop_own; [|done|by unfold ForIn; simpl; rewrite Hl].
      split; [eauto|]. split.
      * intros [= E]. apply bool_decide_eq_true_1, fmap_nil_inv in E as ->.
        right; right; right. done.
      * intros [?|[(?&?&?)|[(?&?&?)|(_ & _ & ->)]]]; try done. congruence.
    + destruct es as [|e es]; simpl.
      * split; [eauto|]. split; [|done]. intros _. right; right; left. eauto.
      * split; [eauto|]. split; [done|].
        intros [?|[(?&?&?)|[(l' & [= <-] & Hl')|(? & _)]]]; try done.
        congruence.
    + split; [eauto|]. split; [done|].
      intros [?|[(?&?&?)|[(l' & [= <-] & ?)|(_ & ? & _)]]]; try done.
      congruence.
    + split; [eauto|]. split; [|done]. intros _. right; right; right. done.
Qed.
End EmptyDataFacts.

(** C4 as stated fails on [{length: 0}]: it is array-like and of length
    zero, and [isEmptyData] finds its own property [length]. *)
Lemma isEmptyData_array_like_counterexample :
  let h : heap := {[ 1%positive := Obj [(js "length", VNum zero)] ]} in
  empty_data_as_specified h (VRef 1) ∧ isEmptyData h (VRef 1) = Ok false.
Proof.
  intros h. split; [|reflexivity].
  right; right; left. split; [reflexivity|].
  exists zero. split; reflexivity.
Qed.

(** * Properties of [extend] *)

Lemma props_get_set key key' v ps :
  props_get key (props_set key' v ps)
  = if decide (key = key') then Some v else props_get key ps.
Proof.
  induction ps as [|[k w] ps IH]; simpl.
  - by repeat case_decide.
  - repeat (case_decide; simpl; simplify_eq); try done.
Qed.

Lemma props_set_keys key v ps :
  (props_set key v ps).*1 = if decide (key ∈ ps.*1) then ps.*1 else ps.*1 ++ [key].
Proof.
  induction ps as [|[k w] ps IH]; csimpl.
  - done.
  - destruct (decide (key = k)) as [->|Hne]; csimpl.
    + rewrite decide_True; [done|set_solver].
    + rewrite IH. destruct (decide (key ∈ ps.*1)).
      * rewrite decide_True; [done|set_solver].
      * rewrite decide_False; [done|set_solver].
Qed.

Lemma props_set_NoDup key v ps : NoDup ps.*1 → NoDup (props_set key v ps).*1.
Proof.
  intros Hnd. rewrite props_set_keys. case_decide; [done|].
  apply NoDup_app. split; [done|]. split; [set_solver|]. apply NoDup_singleton.
Qed.

(** A property the object already has, assigned again, changes nothing. *)
Lemma props_set_same key v ps :
  NoDup ps.*1 → (key, v) ∈ ps → props_set key v ps = ps.
Proof.
  induction ps as [|[k w] ps IH]; simpl; [by inversion 2|].
  intros Hnd Hin. apply NoDup_cons in Hnd as [Hk Hnd].
  apply elem_of_cons in Hin as [[= -> ->]|Hin].
  - by rewrite decide_True.
  - rewrite decide_False; [by rewrite IH|].
    intros ->. apply Hk. apply list_elem_of_fmap. by exists (k, v).
Qed.

Lemma assign_all_snoc props key v onto :
  assign_all (props ++ [(key, v)]) onto = props_set key v (assign_all props onto).
Proof. unfold assign_all. by rewrite foldl_app. Qed.

Lemma assign_all_NoDup props onto : NoDup onto.*1 → NoDup (assign_all props onto).*1.
Proof.
  revert onto. induction props as [|[k v] props IH]; intros onto Hnd; [done|].
  simpl. apply IH. by apply props_set_NoDup.
Qed.

Lemma props_get_assign_all key props onto :
  props_get key (assign_all props onto)
  = match props_get key (reverse props) with
    | Some v => Some v
    | None => props_get key onto
    end.
Proof.
  induction props as [|[k v] props IH] using rev_ind; [done|].
  rewrite assign_all_snoc, props_get_set, reverse_snoc. simpl.
  case_decide; [done|]. apply IH.
Qed.

Lemma assign_all_same props onto :
  NoDup onto.*1 → props ⊆ onto → assign_all props onto = onto.
Proof.
  intros Hnd. induction props as [|[k v] props IH]; intros Hsub; [done|].
  simpl. rewrite props_set_same; [|done|set_solver]. apply IH. set_solver.
Qed.

Lemma merged_insert (h : heap) l o ps sources :
  merged (<[l := o]> h) l ps sources = merged h l ps sources.
Proof.
  revert ps. induction sources as [|source sources IH]; intros ps; [done|].
  simpl. by rewrite insert_insert_eq, IH.
Qed.

Lemma only_changes_refl target (h : heap) : only_changes target h h.
Proof. done. Qed.

Lemma only_changes_trans target (h1 h2 h3 : heap) :
  only_changes target h1 h2 → only_changes target h2 h3 →
  only_changes target h1 h3.
Proof.
  intros [Hd1 Hl1] [Hd2 Hl2]. split; [congruence|].
  intros l Hl. rewrite Hl2, Hl1; done.
Qed.

Lemma only_changes_store l o (h : heap) :
  is_Some (h !! l) → only_changes (VRef l) h (<[l := o]> h).
Proof.
  intros Hl. split.
  - rewrite dom_insert_L. apply elem_of_dom in Hl. set_solver.
  - intros l' Hne. rewrite lookup_insert_ne; [done|]. congruence.
Qed.

Lemma for_each_app {A} (f : A → M unit) (xs ys : list A) (h : heap) :
  for_each f (xs ++ ys) h = (for_each f xs ;; for_each f ys) h.
Proof.
  revert h. induction xs as [|x xs IH]; intros h; [done|].
  simpl. unfold mbind, M_bind in *. destruct (f x h) as [[] h'|e h']; [|done].
  apply IH.
Qed.

Lemma for_each_only_changes {A} (f : A → M unit) target :
  (∀ x h, only_changes target h (final_heap (f x h))) →
  ∀ l h, only_changes target h (final_heap (for_each f l h)).
Proof.
  intros Hf l. induction l as [|x l IH]; intros h; [done|].
  simpl. unfold mbind, M_bind. specialize (Hf x h).
  destruct (f x h) as [[] h'|e h']; [|done].
  eapply only_changes_trans; [exact Hf|apply IH].
Qed.

Section ExtendFacts.
Context `{Host}.

Lemma PutValue_object l ps key v (h : heap) :
  h !! l = Some (Obj ps) →
  PutValue (VRef l) key v h = Return () (<[l := Obj (props_set key v ps)]> h).
Proof. intros Hl. unfold PutValue. by rewrite Hl. Qed.

Lemma for_each_PutValue l ps props (h : heap) :
  h !! l = Some (Obj ps) →
  for_each (λ '(key, v), PutValue (VRef l) key v) props h
  = Return () (<[l := Obj (assign_all props ps)]> h).
Proof.
  revert ps h. induction props as [|[k v] props IH]; intros ps h Hl; simpl.
  - unfold mret, M_ret. by rewrite insert_id.
  - unfold mbind, M_bind. rewrite (PutValue_object _ _ _ _ _ Hl).
    erewrite IH by apply lookup_insert_eq. by rewrite insert_insert_eq.
Qed.

Lemma extendSingle_object l ps source (h : heap) :
  h !! l = Some (Obj ps) →
  extendSingle (VRef l) source h
  = Return () (<[l := Obj (assign_all (OwnEnumerableProps h source) ps)]> h).
Proof.
  intros Hl. unfold extendSingle. destruct (is_nullish source) eqn:Hn.
  - destruct source; try done; simpl; unfold mret, M_ret; by rewrite insert_id.
  - unfold mbind, M_bind, read. by apply for_each_PutValue.
Qed.

Lemma for_each_extendSingle l ps sources (h : heap) :
  h !! l = Some (Obj ps) →
  for_each (extendSingle (VRef l)) sources h
  = Return () (<[l := Obj (merged h l ps sources)]> h).
Proof.
  revert ps h. induction sources as [|source sources IH]; intros ps h Hl; simpl.
  - unfold mret, M_ret. by rewrite insert_id.
  - unfold mbind, M_bind. rewrite (extendSingle_object _ _ _ _ Hl).
    erewrite IH by apply lookup_insert_eq.
    rewrite insert_insert_eq, merged_insert, (insert_id h l (Obj ps)) by done. done.
Qed.

(** The loop of [extend] visits [arguments[i+1]], [arguments[i+2]], ...
    up to the last argument, as soon as it may test its condition once
    per remaining argument and once more. *)
Lemma extend_while_for_each n arguments i target :
  (length arguments - i ≤ n)%nat →
  extend_while n arguments (length arguments) i target
  = for_each (extendSingle target) (drop (S i) arguments).
Proof.
  revert i. induction n as [|n IH]; intros i Hn; simpl.
  - by rewrite drop_ge by lia.
  - destruct (S i <? length arguments)%nat eqn:Hi.
    + apply Nat.ltb_lt in Hi.
      destruct (lookup_lt_is_Some_2 arguments (S i) Hi) as [x Hx].
      rewrite (drop_S _ _ _ Hx), Hx. simpl. rewrite IH by lia. done.
    + apply Nat.ltb_ge in Hi. by rewrite drop_ge by lia.
Qed.

Lemma OwnEnumerableProps_insert l ps (h : heap) source :
  OwnEnumerableProps (<[l := Obj ps]> h) source
  = if is_ref l source then ps else OwnEnumerableProps h source.
Proof.
  destruct source as [| | | | | |l']; try done. simpl.
  case_bool_decide as Hl; [subst; by rewrite lookup_insert_eq|].
  by rewrite lookup_insert_ne.
Qed.


Lemma PutValue_only_changes target key v (h : heap) :
  only_changes target h (final_heap (PutValue target key v h)).
Proof.
  unfold PutValue. destruct target as [| | | | | |l]; try done.
  destruct (h !! l) as [[ps|es|]|] eqn:Hl; try done.
  - apply only_changes_store. by rewrite Hl.
  - destruct (index_of_key (S (length es)) key); [|done].
    case_decide; apply only_changes_store; by rewrite Hl.
Qed.

Lemma extendSingle_only_changes target source (h : heap) :
  only_changes target h (final_heap (extendSingle target source h)).
Proof.
  unfold extendSingle. destruct (is_nullish source); [done|].
  unfold mbind, M_bind, read. apply for_each_only_changes.
  intros [key v] h'. apply PutValue_only_changes.
Qed.

Lemma extend_for_each target sources (h : heap) :
  is_nullish target = false →
  extend target sources h
  = (for_each (extendSingle target) sources ;; mret target) h.
Proof.
  intros Hn. unfold extend. rewrite Hn.
  unfold mbind, M_bind.
  by rewrite (extend_while_for_each _ (target :: sources) 0) by lia.
Qed.


End ExtendFacts.



(** * The JSON text codec: what is printed reads back *)

(** The four hexadecimal digits of a code unit give it back. *)
Lemma hex_recompose c :
  c < 65536 →
  c / 4096 mod 16 * 4096 + c / 256 mod 16 * 256 + c / 16 mod 16 * 16 + c mod 16 = c.
Proof.
  intros Hc.
  assert (c / 256 = c / 16 / 16) as -> by by rewrite N.Div0.div_div.
  assert (c / 4096 = c / 16 / 16 / 16) as -> by by rewrite !N.Div0.div_div.
  assert (c / 16 / 16 / 16 < 16) as Htop.
  { do 3 apply N.Div0.div_lt_upper_bound. lia. }
  rewrite (N.mod_small (c / 16 / 16 / 16) 16) by done.
  pose proof (N.div_mod' c 16). pose proof (N.div_mod' (c / 16) 16).
  pose proof (N.div_mod' (c / 16 / 16) 16). lia.
Qed.

Lemma hex_value_hex_digit d : d < 16 → hex_value (hex_digit d) = Some d.
Proof.
  intros Hd. unfold hex_value, hex_digit.
  repeat case_match; unit_tests; try lia; f_equal; lia.
Qed.

Lemma parse_literal_unit c t :
  32 <= c → c ≠ 34 → c ≠ 92 →
  parse_string_units (c :: t)
  = '(str, rest) ← parse_string_units t; Some (c :: str, rest).
Proof.
  intros H32 H34 H92. simpl.
  rewrite (proj2 (N.eqb_neq c 34)), (proj2 (N.eqb_neq c 92)) by done.
  by rewrite (proj2 (N.ltb_ge c 32)).
Qed.

Lemma parse_unicode_escape c t :
  c < 65536 →
  parse_string_units (unicode_escape c ++ t)
  = '(str, rest) ← parse_string_units t; Some (c :: str, rest).
Proof.
  intros Hc. unfold unicode_escape.
  pose proof (hex_value_hex_digit (c / 4096 mod 16)) as H3.
  pose proof (hex_value_hex_digit (c / 256 mod 16)) as H2.
  pose proof (hex_value_hex_digit (c / 16 mod 16)) as H1.
  pose proof (hex_value_hex_digit (c mod 16)) as H0.
  destruct (hex_value (hex_digit (c / 4096 mod 16))) as [d3|] eqn:E3;
    [|by discriminate H3; [apply N.mod_lt]].
  destruct (hex_value (hex_digit (c / 256 mod 16))) as [d2|] eqn:E2;
    [|by discriminate H2; [apply N.mod_lt]].
  destruct (hex_value (hex_digit (c / 16 mod 16))) as [d1|] eqn:E1;
    [|by discriminate H1; [apply N.mod_lt]].
  destruct (hex_value (hex_digit (c mod 16))) as [d0|] eqn:E0;
    [|by discriminate H0; [apply N.mod_lt]].
  injection H3 as ->; [|by apply N.mod_lt].
  injection H2 as ->; [|by apply N.mod_lt].
  injection H1 as ->; [|by apply N.mod_lt].
  injection H0 as ->; [|by apply N.mod_lt].
  simpl. rewrite E3, E2, E1, E0. simpl.
  by rewrite hex_recompose.
Qed.

Lemma parse_quote_unit c t :
  is_high_surrogate c = false → is_low_surrogate c = false →
  parse_string_units (quote_unit c ++ t)
  = '(str, rest) ← parse_string_units t; Some (c :: str, rest).
Proof.
  intros Hh Hl. unfold quote_unit.
  repeat case_match; unit_tests; subst; try done.
  - apply parse_unicode_escape. lia.
  - apply parse_literal_unit; lia.
Qed.

Lemma quote_units_cons c s :
  quote_units (c :: s)
  = if is_high_surrogate c then
      match s with
      | d :: s' =>
          if is_low_surrogate d then c :: d :: quote_units s'
          else unicode_escape c ++ quote_units s
      | [] => unicode_escape c
      end
    else if is_low_surrogate c then unicode_escape c ++ quote_units s
    else quote_unit c ++ quote_units s.
Proof. done. Qed.

(** A quoted string reads back as the string. *)
Lemma parse_quote_units s rest :
  parse_string_units (quote_units s ++ 34 :: rest) = Some (s, rest).
Proof.
  remember (length s) as n eqn:Hn.
  revert s Hn. induction n as [n IH] using lt_wf_ind. intros s ->.
  destruct s as [|c s]; [done|].
  assert (∀ s', (length s' < length (c :: s))%nat →
            parse_string_units (quote_units s' ++ 34 :: rest) = Some (s', rest))
    as IH' by (intros s' Hs'; by eapply IH).
  clear IH. rewrite quote_units_cons.
  destruct (is_high_surrogate c) eqn:Hh.
  - destruct s as [|d s].
    + rewrite parse_unicode_escape by (unfold is_high_surrogate in Hh; unit_tests; lia).
      simpl. done.
    + destruct (is_low_surrogate d) eqn:Hd.
      * rewrite <- !app_comm_cons.
        unfold is_high_surrogate, is_low_surrogate in *. unit_tests.
        rewrite !parse_literal_unit by lia.
        rewrite IH' by (simpl; lia). done.
      * rewrite <- app_assoc, parse_unicode_escape
          by (unfold is_high_surrogate in Hh; unit_tests; lia).
        rewrite IH' by (simpl; lia). done.
  - destruct (is_low_surrogate c) eqn:Hl.
    + rewrite <- app_assoc, parse_unicode_escape
        by (unfold is_low_surrogate in Hl; unit_tests; lia).
      rewrite IH' by (simpl; lia). done.
    + rewrite <- app_assoc, parse_quote_unit by done.
      rewrite IH' by (simpl; lia). done.
Qed.

Lemma parse_QuoteJSONString s rest :
  ∃ t, QuoteJSONString s ++ rest = 34 :: t
       ∧ parse_string_units t = Some (s, rest).
Proof.
  exists (quote_units s ++ 34 :: rest). split.
  - unfold QuoteJSONString. by rewrite <- !app_assoc.
  - apply parse_quote_units.
Qed.

(** ** Number literals *)

(** What may follow a literal without being read as part of it. *)
Definition ends_literal (rest : jsstring) : Prop :=
  match rest with
  | [] => True
  | c :: _ => is_digit c = false ∧ c ≠ 46 ∧ c ≠ 101 ∧ c ≠ 69
  end.

Lemma span_digits_app s ds r rest :
  span_digits s = (ds, r) → ends_literal rest →
  span_digits (s ++ rest) = (ds, r ++ rest).
Proof.
  intros Hs Hrest. revert ds r Hs. induction s as [|c s IH]; intros ds r Hs.
  - simpl in Hs. simplify_eq. simpl. destruct rest as [|c rest]; [done|].
    simpl. destruct Hrest as [-> _]. done.
  - simpl in *. destruct (is_digit c); [|by simplify_eq].
    destruct (span_digits s) as [ds' r']. simplify_eq.
    by rewrite (IH ds' r).
Qed.

Lemma scan_int_app s i r rest :
  scan_int s = Some (i, r) → ends_literal rest →
  scan_int (s ++ rest) = Some (i, r ++ rest).
Proof.
  intros Hs Hrest. destruct s as [|c s]; [done|]. unfold scan_int in *.
  rewrite <- app_comm_cons. destruct (c =? 48); [by simplify_eq|].
  destruct (is_digit c); [|done]. simplify_eq. f_equal.
  rewrite app_comm_cons. by apply span_digits_app.
Qed.

Lemma scan_frac_app s f r rest :
  scan_frac s = Some (f, r) → ends_literal rest →
  scan_frac (s ++ rest) = Some (f, r ++ rest).
Proof.
  intros Hs Hrest. destruct s as [|c s].
  - simpl in Hs. simplify_eq. simpl. destruct rest as [|c rest]; [done|].
    simpl. destruct Hrest as (_ & H46 & _).
    by rewrite (proj2 (N.eqb_neq c 46)).
  - unfold scan_frac in *. rewrite <- app_comm_cons.
    destruct (c =? 46); [|by simplify_eq].
    destruct (span_digits s) as [ds r'] eqn:Hds.
    rewrite (span_digits_app _ _ _ _ Hds Hrest).
    destruct ds; by simplify_eq.
Qed.

Lemma scan_exp_app s e r rest :
  scan_exp s = Some (e, r) → ends_literal rest →
  scan_exp (s ++ rest) = Some (e, r ++ rest).
Proof.
  intros Hs Hrest. destruct s as [|c s].
  - simpl in Hs. simplify_eq. simpl. destruct rest as [|c rest]; [done|].
    simpl. destruct Hrest as (_ & _ & H101 & H69).
    by rewrite (proj2 (N.eqb_neq c 101)), (proj2 (N.eqb_neq c 69)).
  - unfold scan_exp in *. rewrite <- app_comm_cons.
    destruct ((c =? 101) || (c =? 69)); [|by simplify_eq].
    destruct s as [|g s].
    + simpl in Hs. done.
    + unfold scan_sign in *. rewrite <- app_comm_cons.
      destruct ((g =? 43) || (g =? 45)).
      * destruct (span_digits s) as [ds r'] eqn:Hds.
        rewrite (span_digits_app _ _ _ _ Hds Hrest).
        destruct ds; by simplify_eq.
      * destruct (span_digits (g :: s)) as [ds r'] eqn:Hds.
        rewrite app_comm_cons, (span_digits_app _ _ _ _ Hds Hrest).
        destruct ds; by simplify_eq.
Qed.

(** A literal is read whole, whatever ends it. *)
Lemma scan_number_app `{Host} lit rest :
  number_literal lit → ends_literal rest →
  scan_number (lit ++ rest) = Some (lit, rest).
Proof.
  unfold number_literal, scan_number. intros Hlit Hrest.
  destruct lit as [|c lit]; [done|]. rewrite <- app_comm_cons.
  destruct (c =? 45).
  - destruct (scan_int lit) as [[i s2]|] eqn:Hi; [|done].
    rewrite (scan_int_app _ _ _ _ Hi Hrest). simpl in *.
    destruct (scan_frac s2) as [[f s3]|] eqn:Hf; [|done].
    rewrite (scan_frac_app _ _ _ _ Hf Hrest). simpl in *.
    destruct (scan_exp s3) as [[e s4]|] eqn:He; [|done].
    rewrite (scan_exp_app _ _ _ _ He Hrest). simpl in *.
    injection Hlit; intros; subst; simpl; congruence.
  - destruct (scan_int (c :: lit)) as [[i s2]|] eqn:Hi; [|done].
    rewrite app_comm_cons, (scan_int_app _ _ _ _ Hi Hrest). simpl in *.
    destruct (scan_frac s2) as [[f s3]|] eqn:Hf; [|done].
    rewrite (scan_frac_app _ _ _ _ Hf Hrest). simpl in *.
    destruct (scan_exp s3) as [[e s4]|] eqn:He; [|done].
    rewrite (scan_exp_app _ _ _ _ He Hrest). simpl in *.
    injection Hlit; intros; subst; simpl; congruence.
Qed.

(** A literal starts with a minus sign or a digit. *)
Lemma number_literal_head `{Host} lit :
  number_literal lit →
  ∃ c t, lit = c :: t ∧ (c = 45 ∨ is_digit c = true).
Proof.
  unfold number_literal, scan_number. intros Hlit.
  destruct lit as [|c lit]; [done|]. exists c, lit. split; [done|].
  destruct (c =? 45) eqn:Hc; [left; by apply N.eqb_eq|]. right.
  unfold scan_int in Hlit. destruct (c =? 48) eqn:H48.
  - apply N.eqb_eq in H48 as ->. done.
  - by destruct (is_digit c).
Qed.

(** ** Induction on JSON values *)
Section json_induction.
Variable P : json → Prop.
Hypothesis Hnull : P JNull.
Hypothesis Hbool : ∀ b, P (JBool b).
Hypothesis Hnum : ∀ n, P (JNum n).
Hypothesis Hstr : ∀ s, P (JStr s).
Hypothesis Harr : ∀ elems, Forall P elems → P (JArr elems).
Hypothesis Hobj : ∀ members, Forall (λ m, P m.2) members → P (JObj members).

Fixpoint json_ind' (j : json) : P j :=
  match j with
  | JNull => Hnull
  | JBool b => Hbool b
  | JNum n => Hnum n
  | JStr s => Hstr s
  | JArr elems =>
      Harr elems
        ((fix go (l : list json) : Forall P l :=
            match l with
            | [] => Forall_nil_2 P
            | x :: l' => Forall_cons_2 P x l' (json_ind' x) (go l')
            end) elems)
  | JObj members =>
      Hobj members
        ((fix go (l : list (jsstring * json)) : Forall (λ m, P m.2) l :=
            match l with
            | [] => Forall_nil_2 _
            | m :: l' => Forall_cons_2 (λ m, P m.2) m l' (json_ind' m.2) (go l')
            end) members)
  end.
End json_induction.

(** ** Values *)

(** What may follow a value inside a text that was printed. *)
Definition ends_value (rest : jsstring) : Prop :=
  match rest with
  | [] => True
  | c :: _ => c = 44 ∨ c = 93 ∨ c = 125
  end.

Lemma ends_value_literal rest : ends_value rest → ends_literal rest.
Proof. destruct rest as [|c rest]; [done|]. by intros [-> | [-> | ->]]. Qed.

Lemma skip_ws_head c t : is_json_ws c = false → skip_ws (c :: t) = c :: t.
Proof. intros Hc. simpl. by rewrite Hc. Qed.

(** Decides the comparisons of two literal code units in the goal. *)
Ltac literal_tests :=
  repeat match goal with
    | |- context [N.eqb (Npos ?a) (Npos ?b)] =>
        let r := eval vm_compute in (N.eqb (Npos a) (Npos b)) in
        change (N.eqb (Npos a) (Npos b)) with r
    end;
  cbv iota.

Section ParsePrint.
Context `{Host}.

(** The first code unit of a printed value: not white space, and not
    the bracket that closes an array. *)
Lemma print_head j :
  Forall number_round_trips (json_numbers j) →
  ∃ c t, print j = c :: t ∧ is_json_ws c = false ∧ c ≠ 93.
Proof.
  intros Hnum. destruct j as [|[|]|n|s|elems|members]; simpl; try by eauto.
  simpl in Hnum. apply Forall_singleton in Hnum as [Hlit _].
  destruct (number_literal_head _ Hlit) as (c & t & -> & Hc).
  exists c, t. split; [done|]. unfold is_digit, is_json_ws in *.
  destruct Hc as [-> | Hc]; [done|]. unit_tests.
  split; [|lia]. repeat (apply orb_false_iff; split); apply N.eqb_neq; lia.
Qed.

Definition reads_back (j : json) : Prop :=
  Forall number_round_trips (json_numbers j) →
  ∀ fuel rest, (json_weight j ≤ fuel)%nat → ends_value rest →
  parse_value fuel (print j ++ rest) = Some (j, rest).

Lemma parse_value_S fuel s :
  parse_value (S fuel) s
  = match skip_ws s with
    | [] => None
    | c :: s' =>
        if c =? 110 then rest ← expect (js "ull") s'; Some (JNull, rest)
        else if c =? 116 then rest ← expect (js "rue") s'; Some (JBool true, rest)
        else if c =? 102 then rest ← expect (js "alse") s'; Some (JBool false, rest)
        else if c =? 34 then
          '(str, rest) ← parse_string_units s'; Some (JStr str, rest)
        else if c =? 91 then
          match skip_ws s' with
          | [] => None
          | c' :: rest =>
              if c' =? 93 then Some (JArr [], rest)
              else '(elems, rest) ← parse_elements fuel s'; Some (JArr elems, rest)
          end
        else if c =? 123 then
          match skip_ws s' with
          | [] => None
          | c' :: rest =>
              if c' =? 125 then Some (JObj [], rest)
              else '(members, rest) ← parse_members fuel s'; Some (JObj members, rest)
          end
        else
          '(literal, rest) ← scan_number (c :: s');
          Some (JNum (StringToNumber literal), rest)
    end.
Proof. done. Qed.

Lemma parse_elements_S fuel s :
  parse_elements (S fuel) s
  = '(v, rest) ← parse_value fuel s;
    match skip_ws rest with
    | [] => None
    | c :: rest' =>
        if c =? 44 then
          '(vs, rest'') ← parse_elements fuel rest'; Some (v :: vs, rest'')
        else if c =? 93 then Some ([v], rest')
        else None
    end.
Proof. done. Qed.

Lemma parse_members_S fuel s :
  parse_members (S fuel) s
  = match skip_ws s with
    | [] => None
    | q :: s' =>
        if q =? 34 then
          '(key, rest) ← parse_string_units s';
          match skip_ws rest with
          | [] => None
          | c :: rest' =>
              if c =? 58 then
                '(v, rest'') ← parse_value fuel rest';
                match skip_ws rest'' with
                | [] => None
                | c' :: r =>
                    if c' =? 44 then
                      '(ms, r') ← parse_members fuel r; Some ((key, v) :: ms, r')
                    else if c' =? 125 then Some ([(key, v)], r)
                    else None
                end
              else None
          end
        else None
    end.
Proof. done. Qed.

Lemma parse_print_elements elems fuel rest :
  elems ≠ [] →
  Forall reads_back elems →
  Forall number_round_trips (elems ≫= json_numbers) →
  (sum_list ((λ j, S (json_weight j)) <$> elems) ≤ fuel)%nat →
  parse_elements fuel (join [44] (print <$> elems) ++ 93 :: rest)
  = Some (elems, rest).
Proof.
  intros Hne Hall. revert fuel Hne.
  induction Hall as [|e es He Hes IH]; intros fuel Hne Hnum Hfuel; [done|].
  rewrite bind_cons in Hnum. apply Forall_app in Hnum as [Hnum_e Hnum_es].
  rewrite fmap_cons in Hfuel. simpl sum_list in Hfuel.
  destruct fuel as [|fuel]; [lia|]. rewrite parse_elements_S.
  destruct es as [|e' es].
  - simpl join. rewrite (He Hnum_e fuel (93 :: rest)); [|lia|simpl; auto].
    done.
  - rewrite fmap_cons. change (join [44] (print e :: (print <$> (e' :: es))))
      with (print e ++ [44] ++ join [44] (print <$> (e' :: es))).
    rewrite <- !app_assoc.
    rewrite (He Hnum_e fuel); [|lia|simpl; auto].
    specialize (IH fuel ltac:(done) Hnum_es ltac:(lia)).
    set (tail := join [44] (print <$> e' :: es) ++ 93 :: rest) in *.
    simpl. by rewrite IH.
Qed.

Lemma member_text key (t tail : jsstring) :
  (QuoteJSONString key ++ [58] ++ t) ++ tail
  = 34 :: (quote_units key ++ 34 :: 58 :: (t ++ tail)).
Proof. unfold QuoteJSONString. simpl. by rewrite <- !app_assoc. Qed.

Lemma parse_print_members members fuel rest :
  members ≠ [] →
  Forall (λ m, reads_back m.2) members →
  Forall number_round_trips (members ≫= (λ '(_, j), json_numbers j)) →
  (sum_list ((λ '(_, j), S (json_weight j)) <$> members) ≤ fuel)%nat →
  parse_members fuel
    (join [44] ((λ '(key, j), QuoteJSONString key ++ [58] ++ print j) <$> members)
     ++ 125 :: rest)
  = Some (members, rest).
Proof.
  intros Hne Hall. revert fuel Hne.
  induction Hall as [|[k v] ms Hv Hms IH]; intros fuel Hne Hnum Hfuel; [done|].
  rewrite bind_cons in Hnum. apply Forall_app in Hnum as [Hnum_v Hnum_ms].
  rewrite fmap_cons in Hfuel. simpl sum_list in Hfuel.
  destruct fuel as [|fuel]; [lia|]. rewrite parse_members_S.
  simpl in Hv.
  destruct ms as [|m' ms].
  - change (join [44] (_ <$> [(k, v)]))
      with (QuoteJSONString k ++ [58] ++ print v).
    rewrite member_text, skip_ws_head by done.
    change (34 =? 34) with true. cbv iota.
    rewrite parse_quote_units. simpl.
    rewrite (Hv Hnum_v fuel (125 :: rest)); [|lia|simpl; auto].
    done.
  - specialize (IH fuel ltac:(done) Hnum_ms ltac:(lia)).
    set (tail := join [44] ((λ '(key, j), QuoteJSONString key ++ [58] ++ print j)
                            <$> m' :: ms) ++ 125 :: rest) in *.
    assert (join [44] ((λ '(key, j), QuoteJSONString key ++ [58] ++ print j)
                       <$> (k, v) :: m' :: ms) ++ 125 :: rest
            = (QuoteJSONString k ++ [58] ++ print v) ++ 44 :: tail) as ->.
    { subst tail. rewrite !fmap_cons.
      change (join [44] (?p :: ?q :: ?l)) with (p ++ [44] ++ join [44] (q :: l)).
      by rewrite <- !app_assoc. }
    rewrite member_text, skip_ws_head by done.
    change (34 =? 34) with true. cbv iota.
    rewrite parse_quote_units. simpl.
    rewrite (Hv Hnum_v fuel (44 :: tail)); [|lia|simpl; auto].
    simpl. by rewrite IH.
Qed.

(** A printed JSON value reads back as itself, given enough fuel and
    numbers that the host prints as literals that read back. *)
Lemma parse_print j : reads_back j.
Proof.
  induction j as [|b|n|s|elems IH|members IH] using json_ind';
    intros Hnum fuel rest Hfuel Hrest;
    (destruct fuel as [|fuel]; [simpl in Hfuel; lia|]); rewrite parse_value_S.
  - done.
  - by destruct b.
  - simpl in Hnum. apply Forall_singleton in Hnum as [Hlit Hback].
    destruct (number_literal_head _ Hlit) as (c & t & Hct & Hc).
    simpl print. rewrite Hct, <- app_comm_cons.
    assert (is_json_ws c = false ∧ (c =? 110) = false ∧ (c =? 116) = false
            ∧ (c =? 102) = false ∧ (c =? 34) = false ∧ (c =? 91) = false
            ∧ (c =? 123) = false) as (Hws & H110 & H116 & H102 & H34 & H91 & H123).
    { unfold is_digit, is_json_ws in *. destruct Hc as [-> | Hc]; [done|].
      unit_tests. repeat split; try (apply N.eqb_neq; lia).
      repeat (apply orb_false_iff; split); apply N.eqb_neq; lia. }
    rewrite skip_ws_head by done.
    rewrite H110, H116, H102, H34, H91, H123.
    rewrite app_comm_cons, <- Hct.
    rewrite (scan_number_app _ _ Hlit (ends_value_literal _ Hrest)).
    simpl. by rewrite Hback.
  - simpl print.
    destruct (parse_QuoteJSONString s rest) as (t & -> & Ht).
    simpl. by rewrite Ht.
  - assert (print (JArr elems) ++ rest
            = 91 :: (join [44] (print <$> elems) ++ 93 :: rest)) as ->.
    { simpl. by rewrite <- app_assoc. }
    rewrite skip_ws_head by done. literal_tests.
    destruct elems as [|e es]; [done|].
    destruct (print_head e) as (c & t & Hct & Hws & H93).
    { simpl in Hnum. by apply Forall_app in Hnum as [? _]. }
    assert (∃ t', join [44] (print <$> e :: es) ++ 93 :: rest = c :: t')
      as [t' Ht'].
    { rewrite fmap_cons. destruct es; simpl; rewrite Hct; simpl; eauto. }
    rewrite Ht', skip_ws_head, (proj2 (N.eqb_neq c 93)) by done.
    rewrite <- Ht'.
    rewrite parse_print_elements; [done|done|done|done|].
    change (json_weight (JArr (e :: es)))
      with (S (sum_list ((λ j, S (json_weight j)) <$> e :: es))) in Hfuel.
    lia.
  - assert (print (JObj members) ++ rest
            = 123 :: (join [44]
                ((λ '(key, j), QuoteJSONString key ++ [58] ++ print j) <$> members)
              ++ 125 :: rest)) as ->.
    { simpl. by rewrite <- app_assoc. }
    rewrite skip_ws_head by done. literal_tests.
    destruct members as [|[k v] ms]; [done|].
    assert (∃ t', join [44]
        ((λ '(key, j), QuoteJSONString key ++ [58] ++ print j) <$> (k, v) :: ms)
        ++ 125 :: rest = 34 :: t') as [t' Ht'].
    { rewrite fmap_cons. destruct ms; simpl; eauto. }
    rewrite Ht', skip_ws_head by done. literal_tests.
    rewrite <- Ht'.
    rewrite parse_print_members; [done|done|done|done|].
    change (json_weight (JObj ((k, v) :: ms)))
      with (S (sum_list ((λ '(_, j), S (json_weight j)) <$> (k, v) :: ms))) in Hfuel.
    lia.
Qed.

Lemma join_length sep parts :
  (sum_list (length <$> parts) ≤ length (join sep parts))%nat.
Proof.
  induction parts as [|p [|p' parts] IH]; simpl in *; [lia|lia|].
  rewrite !length_app. lia.
Qed.

(** Printing takes at least one code unit per value, so the fuel
    [parse_text] grants is enough for what was printed. *)
Lemma json_weight_print j :
  Forall number_round_trips (json_numbers j) →
  (json_weight j ≤ 2 * length (print j) - 1)%nat.
Proof.
  induction j as [|b|n|s|elems IH|members IH] using json_ind'; intros Hnum.
  - simpl. lia.
  - destruct b; simpl; lia.
  - simpl in Hnum. apply Forall_singleton in Hnum as [Hlit _].
    destruct (number_literal_head _ Hlit) as (c & t & Hct & _).
    simpl. rewrite Hct. simpl. lia.
  - simpl. lia.
  - change (print (JArr elems)) with ([91] ++ join [44] (print <$> elems) ++ [93]).
    change (json_weight (JArr elems))
      with (S (sum_list ((λ j, S (json_weight j)) <$> elems))).
    rewrite !length_app. simpl length.
    pose proof (join_length [44] (print <$> elems)) as Hjoin.
    assert (sum_list ((λ j, S (json_weight j)) <$> elems)
            ≤ 2 * sum_list (length <$> (print <$> elems)))%nat; [|lia].
    clear Hjoin. simpl in Hnum.
    induction IH as [|e es He Hes IHes]; [simpl; lia|].
    rewrite bind_cons in Hnum. apply Forall_app in Hnum as [Hnum_e Hnum_es].
    specialize (He Hnum_e). specialize (IHes Hnum_es).
    assert (1 ≤ length (print e))%nat.
    { destruct (print_head e Hnum_e) as (c & t & -> & _). simpl. lia. }
    rewrite !fmap_cons. simpl sum_list. lia.
  - change (print (JObj members))
      with ([123] ++ join [44]
              ((λ '(key, j), QuoteJSONString key ++ [58] ++ print j) <$> members)
            ++ [125]).
    change (json_weight (JObj members))
      with (S (sum_list ((λ '(_, j), S (json_weight j)) <$> members))).
    rewrite !length_app.
    change (length [123]) with 1%nat. change (length [125]) with 1%nat.
    pose proof (join_length [44]
      ((λ '(key, j), QuoteJSONString key ++ [58] ++ print j) <$> members)) as Hjoin.
    assert (sum_list ((λ '(_, j), S (json_weight j)) <$> members)
            ≤ 2 * sum_list (length <$>
                ((λ '(key, j), QuoteJSONString key ++ [58%N] ++ print j) <$> members)))%nat;
      [|lia].
    clear Hjoin. simpl in Hnum.
    induction IH as [|[k v] ms Hv Hms IHms]; [simpl; lia|].
    rewrite bind_cons in Hnum. apply Forall_app in Hnum as [Hnum_v Hnum_ms].
    specialize (Hv Hnum_v). specialize (IHms Hnum_ms). simpl in Hv.
    rewrite !fmap_cons. cbn [sum_list sum_list_with]. cbn beta iota.
    rewrite !length_app. unfold id in *. change (length [58]) with 1%nat. lia.
Qed.

(** What [JSON.stringify] printed, [JSON.parse] reads as the same JSON
    value. *)
Theorem parse_text_print j :
  Forall number_round_trips (json_numbers j) →
  parse_text (print j) = Some j.
Proof.
  intros Hnum. unfold parse_text.
  pose proof (json_weight_print j Hnum) as Hw.
  pose proof (parse_print j Hnum (2 * length (print j) + 2)%nat []) as Hp.
  rewrite app_nil_r in Hp. rewrite Hp; [|lia|done].
  by rewrite decide_True.
Qed.
End ParsePrint.

(** ** The fuel of the parser

    Every step of the parser that recurses has consumed a code unit, so
    the fuel [parse_text] grants is never used up: more fuel changes
    nothing. *)

Lemma skip_ws_length s : (length (skip_ws s) ≤ length s)%nat.
Proof.
  induction s as [|c s IH]; simpl; [done|].
  destruct (is_json_ws c); simpl; lia.
Qed.

Lemma skip_ws_cons_length s c s' :
  skip_ws s = c :: s' → (length s' < length s)%nat.
Proof.
  intros Hs. pose proof (skip_ws_length s) as Hlen.
  rewrite Hs in Hlen. simpl in Hlen. lia.
Qed.

Lemma expect_length word s rest :
  expect word s = Some rest → (length rest ≤ length s)%nat.
Proof.
  revert s. induction word as [|w word IH]; intros [|c s]; simpl; try done.
  - by intros [= <-].
  - by intros [= <-].
  - destruct (w =? c); [|done]. intros Hr%IH. lia.
Qed.

Lemma parse_string_units_length s str rest :
  parse_string_units s = Some (str, rest) → (length rest < length s)%nat.
Proof.
  remember (length s) as n eqn:Hn. revert s str rest Hn.
  induction n as [n IH] using lt_wf_ind. intros s str rest ->.
  assert (∀ s' str' rest', (length s' < length s)%nat →
            parse_string_units s' = Some (str', rest') →
            (length rest' < length s')%nat) as IH'.
  { intros s' str' rest' Hs'. by eapply IH. }
  clear IH. destruct s as [|c s]; [done|]. simpl.
  destruct (c =? 34); [intros [= <- <-]; simpl; lia|].
  destruct (c =? 92).
  - destruct s as [|e s]; [done|]. destruct (e =? 117).
    + destruct s as [|x3 [|x2 [|x1 [|x0 s]]]]; try done.
      destruct (hex_value x3); [|done]. destruct (hex_value x2); [|done].
      destruct (hex_value x1); [|done]. destruct (hex_value x0); [|done].
      simpl. destruct (parse_string_units s) as [[str' rest']|] eqn:Hs; [|done].
      simpl. intros [= <- <-]. apply IH' in Hs; simpl in *; lia.
    + destruct (simple_escape e); [|done]. simpl.
      destruct (parse_string_units s) as [[str' rest']|] eqn:Hs; [|done].
      simpl. intros [= <- <-]. apply IH' in Hs; simpl in *; lia.
  - destruct (c <? 32); [done|].
    destruct (parse_string_units s) as [[str' rest']|] eqn:Hs; [|done].
    simpl. intros [= <- <-]. apply IH' in Hs; simpl in *; lia.
Qed.

Lemma span_digits_split s ds rest : span_digits s = (ds, rest) → s = ds ++ rest.
Proof.
  revert ds rest. induction s as [|c s IH]; intros ds rest; simpl.
  - by intros [= <- <-].
  - destruct (is_digit c); [|by intros [= <- <-]].
    destruct (span_digits s) as [ds' rest']. intros [= <- <-].
    simpl. f_equal. by apply IH.
Qed.

Lemma scan_int_split s i rest :
  scan_int s = Some (i, rest) → s = i ++ rest ∧ i ≠ [].
Proof.
  destruct s as [|c s]; [done|]. unfold scan_int.
  destruct (c =? 48) eqn:Hc.
  - apply N.eqb_eq in Hc as ->. by intros [= <- <-].
  - destruct (is_digit c) eqn:Hd; [|done]. intros [= Hs].
    split; [by apply span_digits_split|].
    simpl in Hs. rewrite Hd in Hs.
    destruct (span_digits s). by simplify_eq.
Qed.

Lemma scan_frac_split s f rest : scan_frac s = Some (f, rest) → s = f ++ rest.
Proof.
  destruct s as [|c s]; [by intros [= <- <-]|]. unfold scan_frac.
  destruct (c =? 46) eqn:Hc; [|by intros [= <- <-]].
  apply N.eqb_eq in Hc as ->.
  destruct (span_digits s) as [ds rest'] eqn:Hds.
  apply span_digits_split in Hds as ->.
  destruct ds; [done|]. by intros [= <- <-].
Qed.

Lemma scan_exp_split s e rest : scan_exp s = Some (e, rest) → s = e ++ rest.
Proof.
  destruct s as [|c s]; [by intros [= <- <-]|]. unfold scan_exp.
  destruct ((c =? 101) || (c =? 69)); [|by intros [= <- <-]].
  destruct (scan_sign s) as [sign s'] eqn:Hsign.
  assert (s = sign ++ s') as ->.
  { unfold scan_sign in Hsign. destruct s as [|g s]; [by simplify_eq|].
    destruct ((g =? 43) || (g =? 45)); by simplify_eq. }
  destruct (span_digits s') as [ds rest'] eqn:Hds.
  apply span_digits_split in Hds as ->.
  destruct ds; [done|]. intros [= <- <-]. simpl. by rewrite <- app_assoc.
Qed.

Lemma scan_number_length s lit rest :
  scan_number s = Some (lit, rest) → (length rest < length s)%nat.
Proof.
  unfold scan_number.
  set (start := match s with
                | c :: s' => if c =? 45 then ([45], s') else ([], s)
                | [] => ([], [])
                end).
  assert (length start.2 ≤ length s)%nat as Hstart.
  { subst start. destruct s as [|c s]; [done|]. destruct (c =? 45); simpl; lia. }
  destruct start as [minus s1]. simpl in Hstart.
  destruct (scan_int s1) as [[i s2]|] eqn:Hi; [|done]. simpl.
  destruct (scan_frac s2) as [[f s3]|] eqn:Hf; [|done]. simpl.
  destruct (scan_exp s3) as [[e s4]|] eqn:He; [|done]. simpl.
  intros [= <- <-].
  apply scan_int_split in Hi as [-> Hne]. apply scan_frac_split in Hf as ->.
  apply scan_exp_split in He as ->. rewrite !length_app in Hstart.
  destruct i; [done|]. simpl in Hstart. lia.
Qed.

Section ParseFuel.
Context `{Host}.

(** Whatever is parsed, something was consumed. *)
Lemma parse_progress fuel :
  (∀ s v rest, parse_value fuel s = Some (v, rest) → (length rest < length s)%nat)
  ∧ (∀ s vs rest, parse_elements fuel s = Some (vs, rest) →
       (length rest < length s)%nat)
  ∧ (∀ s ms rest, parse_members fuel s = Some (ms, rest) →
       (length rest < length s)%nat).
Proof.
  induction fuel as [|fuel (IHv & IHes & IHms)]; [done|].
  split; [|split].
  - intros s v rest. rewrite parse_value_S.
    destruct (skip_ws s) as [|c s'] eqn:Hs; [done|].
    apply skip_ws_cons_length in Hs.
    assert (∀ word j, (r ← expect word s'; Some (j, r)) = Some (v, rest) →
              (length rest < length s)%nat) as Hword.
    { intros word j. destruct (expect word s') as [r|] eqn:He; [|done].
      simpl. intros [= <- <-]. apply expect_length in He. lia. }
    destruct (c =? 110); [by apply Hword|].
    destruct (c =? 116); [by apply Hword|].
    destruct (c =? 102); [by apply Hword|].
    destruct (c =? 34).
    { destruct (parse_string_units s') as [[str r]|] eqn:Hp; [|done].
      simpl. intros [= <- <-]. apply parse_string_units_length in Hp. lia. }
    destruct (c =? 91).
    { destruct (skip_ws s') as [|c' r] eqn:Hs'; [done|].
      apply skip_ws_cons_length in Hs'.
      destruct (c' =? 93); [intros [= <- <-]; lia|].
      destruct (parse_elements fuel s') as [[es r']|] eqn:He; [|done].
      simpl. intros [= <- <-]. apply IHes in He. lia. }
    destruct (c =? 123).
    { destruct (skip_ws s') as [|c' r] eqn:Hs'; [done|].
      apply skip_ws_cons_length in Hs'.
      destruct (c' =? 125); [intros [= <- <-]; lia|].
      destruct (parse_members fuel s') as [[ms r']|] eqn:He; [|done].
      simpl. intros [= <- <-]. apply IHms in He. lia. }
    destruct (scan_number (c :: s')) as [[lit r]|] eqn:Hn; [|done].
    simpl. intros [= <- <-]. apply scan_number_length in Hn. simpl in Hn. lia.
  - intros s vs rest. rewrite parse_elements_S.
    destruct (parse_value fuel s) as [[v r]|] eqn:Hv; [|done]. simpl.
    apply IHv in Hv.
    destruct (skip_ws r) as [|c r'] eqn:Hr; [done|].
    apply skip_ws_cons_length in Hr.
    destruct (c =? 44).
    { destruct (parse_elements fuel r') as [[vs' r'']|] eqn:He; [|done].
      simpl. intros [= <- <-]. apply IHes in He. lia. }
    destruct (c =? 93); [|done]. intros [= <- <-]. lia.
  - intros s ms rest. rewrite parse_members_S.
    destruct (skip_ws s) as [|q s'] eqn:Hs; [done|].
    apply skip_ws_cons_length in Hs.
    destruct (q =? 34); [|done].
    destruct (parse_string_units s') as [[key r]|] eqn:Hkey; [|done]. simpl.
    apply parse_string_units_length in Hkey.
    destruct (skip_ws r) as [|c r'] eqn:Hr; [done|].
    apply skip_ws_cons_length in Hr.
    destruct (c =? 58); [|done].
    destruct (parse_value fuel r') as [[v r'']|] eqn:Hv; [|done]. simpl.
    apply IHv in Hv.
    destruct (skip_ws r'') as [|c' r3] eqn:Hr3; [done|].
    apply skip_ws_cons_length in Hr3.
    destruct (c' =? 44).
    { destruct (parse_members fuel r3) as [[ms' r4]|] eqn:He; [|done].
      simpl. intros [= <- <-]. apply IHms in He. lia. }
    destruct (c' =? 125); [|done]. intros [= <- <-]. lia.
Qed.

Lemma parse_fuel_stable n :
  (∀ s k, (2 * length s < n)%nat → parse_value (n + k) s = parse_value n s)
  ∧ (∀ s k, (2 * length s + 1 < n)%nat →
       parse_elements (n + k) s = parse_elements n s)
  ∧ (∀ s k, (2 * length s + 1 < n)%nat →
       parse_members (n + k) s = parse_members n s).
Proof.
  induction n as [|n (IHv & IHes & IHms)]; [split; [|split]; intros; lia|].
  split; [|split]; intros s k Hn.
  - change (S n + k)%nat with (S (n + k)). rewrite !parse_value_S.
    destruct (skip_ws s) as [|c s'] eqn:Hs; [done|].
    apply skip_ws_cons_length in Hs.
    rewrite (IHes s' k), (IHms s' k) by lia. done.
  - change (S n + k)%nat with (S (n + k)). rewrite !parse_elements_S.
    rewrite (IHv s k) by lia.
    destruct (parse_value n s) as [[v r]|] eqn:Hv; [|done]. simpl.
    apply (proj1 (parse_progress n)) in Hv.
    destruct (skip_ws r) as [|c r'] eqn:Hr; [done|].
    apply skip_ws_cons_length in Hr.
    rewrite (IHes r' k) by lia. done.
  - change (S n + k)%nat with (S (n + k)). rewrite !parse_members_S.
    destruct (skip_ws s) as [|q s'] eqn:Hs; [done|].
    apply skip_ws_cons_length in Hs.
    destruct (q =? 34); [|done].
    destruct (parse_string_units s') as [[key r]|] eqn:Hkey; [|done]. simpl.
    apply parse_string_units_length in Hkey.
    destruct (skip_ws r) as [|c r'] eqn:Hr; [done|].
    apply skip_ws_cons_length in Hr.
    destruct (c =? 58); [|done].
    rewrite (IHv r' k) by lia.
    destruct (parse_value n r') as [[v r'']|] eqn:Hv; [|done]. simpl.
    apply (proj1 (parse_progress n)) in Hv.
    destruct (skip_ws r'') as [|c' r3] eqn:Hr3; [done|].
    apply skip_ws_cons_length in Hr3.
    rewrite (IHms r3 k) by lia. done.
Qed.

(** [parse_text] reads a text with as much fuel as any reading of it
    can use. *)
Theorem parse_text_fuel s k :
  parse_value (2 * length s + 2 + k) s = parse_value (2 * length s + 2) s.
Proof. apply (proj1 (parse_fuel_stable (2 * length s + 2))). lia. Qed.
End ParseFuel.

(** * [JSON.stringify] prints what the value serializes as *)

Scheme serializes_min := Minimality for serializes Sort Prop
  with serializes_elems_min := Minimality for serializes_elems Sort Prop
  with serializes_props_min := Minimality for serializes_props Sort Prop.
Combined Scheme serializes_mutind
  from serializes_min, serializes_elems_min, serializes_props_min.

(** A value serializes in one way only. *)
Lemma serializes_deterministic strict (h : heap) :
  (∀ v r, serializes strict h v r → ∀ r', serializes strict h v r' → r = r')
  ∧ (∀ elems jsons, serializes_elems strict h elems jsons →
       ∀ jsons', serializes_elems strict h elems jsons' → jsons = jsons')
  ∧ (∀ props members, serializes_props strict h props members →
       ∀ members', serializes_props strict h props members' → members = members').
Proof.
  apply serializes_mutind.
  - intros _ r' Hr'. by inversion Hr'.
  - intros d _ r' Hr'. by inversion Hr'.
  - intros l _ Hl r' Hr'. inversion Hr'; simplify_eq; done.
  - intros n _ Hn r' Hr'. inversion Hr'; simplify_eq; [done|congruence].
  - intros r' Hr'. by inversion Hr'.
  - intros b r' Hr'. by inversion Hr'.
  - intros n Hn r' Hr'. inversion Hr'; simplify_eq; [congruence|done].
  - intros s r' Hr'. by inversion Hr'.
  - intros l elems jsons Hl _ IH r' Hr'. inversion Hr'; simplify_eq.
    f_equal. f_equal. by apply IH.
  - intros l props members Hl _ _ _ IH r' Hr'. inversion Hr'; simplify_eq.
    f_equal. f_equal. by apply IH.
  - intros jsons' Hjs'. by inversion Hjs'.
  - intros v r elems jsons _ IHv _ IHes jsons' Hjs'. inversion Hjs'; simplify_eq.
    f_equal; [f_equal; by apply IHv|by apply IHes].
  - intros ms' Hms'. by inversion Hms'.
  - intros key v j props members _ IHv _ IHps ms' Hms'.
    inversion Hms' as [|? ? j' ? ms'' Hv' Hps'|? ? ? ms'' Hv' Hps']; simplify_eq.
    + specialize (IHv _ Hv'). simplify_eq. f_equal. by apply IHps.
    + by specialize (IHv _ Hv').
  - intros key v props members _ IHv _ IHps ms' Hms'.
    inversion Hms' as [|? ? j' ? ms'' Hv' Hps'|? ? ? ms'' Hv' Hps']; simplify_eq.
    + by specialize (IHv _ Hv').
    + by apply IHps.
Qed.

Lemma serializes_elems_weight strict (h : heap) elems jsons v :
  serializes_elems strict h elems jsons → v ∈ elems →
  ∃ r, serializes strict h v r
       ∧ (result_weight r < S (sum_list ((λ j, S (json_weight j)) <$> jsons)))%nat.
Proof.
  induction 1 as [|w r elems jsons Hw _ IH]; [by intros ?%elem_of_nil|].
  rewrite fmap_cons. simpl. intros [->|Hv]%elem_of_cons.
  - exists r. split; [done|]. destruct r; simpl; lia.
  - destruct (IH Hv) as (r' & Hr' & Hlt). exists r'. split; [done|]. lia.
Qed.

Lemma serializes_props_weight strict (h : heap) props members key v :
  serializes_props strict h props members → (key, v) ∈ props →
  ∃ r, serializes strict h v r
       ∧ (result_weight r
          < S (sum_list ((λ '(_, j), S (json_weight j)) <$> members)))%nat.
Proof.
  induction 1 as [|k w j props members Hw _ IH|k w props members Hw _ IH];
    [by intros ?%elem_of_nil| |].
  - rewrite fmap_cons. simpl. intros [[= -> ->]|Hv]%elem_of_cons.
    + exists (Some j). split; [done|]. simpl. lia.
    + destruct (IH Hv) as (r' & Hr' & Hlt). exists r'. split; [done|]. lia.
  - intros [[= -> ->]|Hv]%elem_of_cons.
    + exists None. split; [done|]. simpl. lia.
    + by apply IH.
Qed.

(** An object that holds itself, as a property value or as an element,
    does not serialize. *)
Lemma self_reference_not_serializable strict (h : heap) l r :
  (∃ props key, h !! l = Some (Obj props) ∧ (key, VRef l) ∈ props)
  ∨ (∃ elems, h !! l = Some (Arr elems) ∧ VRef l ∈ elems) →
  ¬ serializes strict h (VRef l) r.
Proof.
  intros Hself Hr.
  assert (∃ r', serializes strict h (VRef l) r'
                ∧ (result_weight r' < result_weight r)%nat) as (r' & Hr' & Hlt).
  { destruct Hself as [(props & key & Hl & Hin)|(elems & Hl & Hin)];
      inversion Hr; simplify_eq.
    - by eapply serializes_props_weight.
    - by eapply serializes_elems_weight. }
  rewrite (proj1 (serializes_deterministic strict h) _ _ Hr _ Hr') in Hlt. lia.
Qed.

(** The objects being printed are distinct objects of the heap, so the
    stack is no longer than the heap is large. *)
Lemma stack_length (h : heap) (stack : list loc) :
  NoDup stack → (∀ l, l ∈ stack → is_Some (h !! l)) →
  (length stack ≤ size h)%nat.
Proof.
  intros Hnd Hin. rewrite <- size_dom.
  change (size (dom h)) with (length (elements (dom h))).
  apply submseteq_length, NoDup_submseteq; [done|].
  intros l Hl. apply elem_of_elements, elem_of_dom. auto.
Qed.

Lemma result_mapM_cons {A B} (f : A → result B) x l :
  result_mapM f (x :: l) = y ← f x; ys ← result_mapM f l; Ok (y :: ys).
Proof. done. Qed.

Lemma result_bind_Ok {A B} (a : A) (f : A → result B) : Ok a ≫= f = f a.
Proof. done. Qed.

Section StringifyFacts.
Context `{Host} (strict : bool) (h : heap).

(** Every object on the stack serializes as something heavier than
    [bound]: what is being printed below [bound] cannot be one of them. *)
Definition stack_ok (stack : list loc) (bound : nat) : Prop :=
  ∀ l r', l ∈ stack → serializes strict h (VRef l) r' →
          (bound < result_weight r')%nat.

(** The stack holds distinct objects of the heap, and the fuel covers
    the objects that are not on it. *)
Definition stack_wf (fuel : nat) (stack : list loc) : Prop :=
  NoDup stack ∧ (∀ l, l ∈ stack → is_Some (h !! l))
  ∧ (size h < fuel + length stack)%nat.

Lemma stack_wf_fuel fuel stack : stack_wf fuel stack → ∃ fuel', fuel = S fuel'.
Proof.
  intros (Hnd & Hin & Hsize). pose proof (stack_length h stack Hnd Hin).
  destruct fuel as [|fuel']; [lia|eauto].
Qed.

Lemma stack_ok_le stack bound bound' :
  (bound' ≤ bound)%nat → stack_ok stack bound → stack_ok stack bound'.
Proof. intros Hle Hok l r' Hl Hr'. specialize (Hok l r' Hl Hr'). lia. Qed.

(** Entering the object [l], which serializes as [r]. *)
Lemma stack_enter fuel stack l r bound :
  stack_wf (S fuel) stack → stack_ok stack (result_weight r) →
  serializes strict h (VRef l) r → is_Some (h !! l) →
  (bound < result_weight r)%nat →
  l ∉ stack ∧ stack_wf fuel (l :: stack) ∧ stack_ok (l :: stack) bound.
Proof.
  intros (Hnd & Hin & Hsize) Hok Hr Hl Hbound.
  assert (l ∉ stack) as Hnew.
  { intros Hmem. specialize (Hok l r Hmem Hr). lia. }
  split; [done|]. split.
  - split; [by constructor|]. split.
    + intros l' [->|Hl']%elem_of_cons; auto.
    + simpl. lia.
  - intros l' r' [->|Hl']%elem_of_cons Hr'.
    + by rewrite <- (proj1 (serializes_deterministic strict h) _ _ Hr _ Hr').
    + specialize (Hok l' r' Hl' Hr'). lia.
Qed.

Lemma SerializeJSONProperty_ref fuel stack l :
  SerializeJSONProperty h (S fuel) stack (VRef l)
  = match h !! l with
    | None => Throw (NotModelled "dangling reference")
    | Some Fun => Ok None
    | Some (Arr elems) =>
        if bool_decide (l ∈ stack) then Throw circular_error
        else
          parts ← result_mapM (λ v,
              text ← SerializeJSONProperty h fuel (l :: stack) v;
              Ok (default (js "null") text)) elems;
          Ok (Some ([91] ++ join [44] parts ++ [93]))
    | Some (Obj props) =>
        if bool_decide (typeof h (default VUndefined (props_get (js "toJSON") props))
                        = TFunction)
        then Throw (NotModelled "toJSON")
        else if bool_decide (l ∈ stack) then Throw circular_error
        else
          members ← result_mapM (λ '(key, v),
              text ← SerializeJSONProperty h fuel (l :: stack) v;
              Ok (option_map (λ t, QuoteJSONString key ++ [58] ++ t) text)) props;
          Ok (Some ([123] ++ join [44] (omap id members) ++ [125]))
    end.
Proof. done. Qed.

(** [SerializeJSONProperty] prints the text of what the value serializes
    as, and no text where it serializes as nothing. *)
Lemma serialize_correct :
  (∀ v r, serializes strict h v r →
     ∀ fuel stack, stack_wf fuel stack → stack_ok stack (result_weight r) →
     SerializeJSONProperty h fuel stack v = Ok (print <$> r))
  ∧ (∀ elems jsons, serializes_elems strict h elems jsons →
     ∀ fuel stack, stack_wf fuel stack →
     stack_ok stack (sum_list ((λ j, S (json_weight j)) <$> jsons)) →
     result_mapM (λ v,
         text ← SerializeJSONProperty h fuel stack v;
         Ok (default (js "null") text)) elems
     = Ok (print <$> jsons))
  ∧ (∀ props members, serializes_props strict h props members →
     ∀ fuel stack, stack_wf fuel stack →
     stack_ok stack (sum_list ((λ '(_, j), S (json_weight j)) <$> members)) →
     ∃ texts,
       result_mapM (λ '(key, v),
           text ← SerializeJSONProperty h fuel stack v;
           Ok (option_map (λ t, QuoteJSONString key ++ [58] ++ t) text)) props
       = Ok texts
       ∧ omap id texts
         = (λ '(key, j), QuoteJSONString key ++ [58] ++ print j) <$> members).
Proof.
  apply serializes_mutind.
  - intros _ fuel stack [fuel' ->]%stack_wf_fuel _. done.
  - intros d _ fuel stack [fuel' ->]%stack_wf_fuel _. done.
  - intros l _ Hl fuel stack [fuel' ->]%stack_wf_fuel _.
    by rewrite SerializeJSONProperty_ref, Hl.
  - intros n _ Hn fuel stack [fuel' ->]%stack_wf_fuel _. simpl. by rewrite Hn.
  - intros fuel stack [fuel' ->]%stack_wf_fuel _. done.
  - intros b fuel stack [fuel' ->]%stack_wf_fuel _. by destruct b.
  - intros n Hn fuel stack [fuel' ->]%stack_wf_fuel _. simpl. by rewrite Hn.
  - intros s fuel stack [fuel' ->]%stack_wf_fuel _. done.
  - intros l elems jsons Hl Hes IH fuel stack Hwf Hok.
    destruct (stack_wf_fuel _ _ Hwf) as [fuel' ->].
    destruct (stack_enter fuel' stack l (Some (JArr jsons))
                (sum_list ((λ j, S (json_weight j)) <$> jsons)) Hwf Hok)
      as (Hnew & Hwf' & Hok'); [by econstructor|by eauto|simpl; lia|].
    rewrite SerializeJSONProperty_ref, Hl, bool_decide_eq_false_2 by done.
    by rewrite (IH fuel' (l :: stack) Hwf' Hok').
  - intros l props members Hl Hnd HtoJSON Hps IH fuel stack Hwf Hok.
    destruct (stack_wf_fuel _ _ Hwf) as [fuel' ->].
    destruct (stack_enter fuel' stack l (Some (JObj members))
                (sum_list ((λ '(_, j), S (json_weight j)) <$> members)) Hwf Hok)
      as (Hnew & Hwf' & Hok'); [by econstructor|by eauto|simpl; lia|].
    rewrite SerializeJSONProperty_ref, Hl, !bool_decide_eq_false_2 by done.
    destruct (IH fuel' (l :: stack) Hwf' Hok') as (texts & -> & Htexts).
    simpl. by rewrite Htexts.
  - intros fuel stack _ _. done.
  - intros v r elems jsons Hv IHv Hes IHes fuel stack Hwf Hok.
    rewrite fmap_cons in Hok. simpl in Hok.
    rewrite result_mapM_cons, (IHv fuel stack Hwf).
    2:{ eapply stack_ok_le; [|exact Hok]. destruct r; simpl; lia. }
    rewrite result_bind_Ok. cbv beta. rewrite result_bind_Ok, (IHes fuel stack Hwf).
    2:{ eapply stack_ok_le; [|exact Hok]. lia. }
    rewrite result_bind_Ok. by destruct r.
  - intros fuel stack _ _. by exists [].
  - intros key v j props members Hv IHv Hps IHps fuel stack Hwf Hok.
    rewrite fmap_cons in Hok. simpl in Hok.
    rewrite result_mapM_cons, (IHv fuel stack Hwf).
    2:{ eapply stack_ok_le; [|exact Hok]. simpl; lia. }
    destruct (IHps fuel stack Hwf) as (texts & -> & Htexts).
    { eapply stack_ok_le; [|exact Hok]. lia. }
    eexists. split; [done|].
    cbn [omap list_omap option_map fmap option_fmap id]. by rewrite Htexts.
  - intros key v props members Hv IHv Hps IHps fuel stack Hwf Hok.
    rewrite result_mapM_cons, (IHv fuel stack Hwf).
    2:{ eapply stack_ok_le; [|exact Hok]. simpl; lia. }
    destruct (IHps fuel stack Hwf Hok) as (texts & -> & Htexts).
    eexists. split; [done|].
    cbn [omap list_omap option_map fmap option_fmap id]. by rewrite Htexts.
Qed.

Lemma result_mapM_Ok {A B} (f : A → result B) l ys :
  result_mapM f l = Ok ys → Forall2 (λ x y, f x = Ok y) l ys.
Proof.
  revert ys. induction l as [|x l IH]; intros ys; simpl.
  - intros [= <-]. constructor.
  - destruct (f x) as [y|e] eqn:Hy; [|done]. simpl.
    destruct (result_mapM f l) as [ys'|e]; [|done]. simpl.
    intros [= <-]. constructor; [done|]. by apply IH.
Qed.

(** Conversely, what [SerializeJSONProperty] prints without raising is
    the text of what the value serializes as. *)
Lemma serialize_sound :
  strict = false → heap_wf h →
  ∀ fuel stack v text,
    SerializeJSONProperty h fuel stack v = Ok text →
    ∃ r, serializes strict h v r ∧ text = print <$> r.
Proof.
  intros -> Hwf. induction fuel as [|fuel IH]; intros stack v text; [done|].
  destruct v as [| |b|n|s|d|l].
  - intros [= <-]. exists None. split; [by constructor|done].
  - intros [= <-]. exists (Some JNull). split; [by constructor|done].
  - destruct b; intros [= <-]; (eexists (Some (JBool _)); split; [by constructor|done]).
  - simpl. intros [= <-]. destruct (is_finite n) eqn:Hn.
    + exists (Some (JNum n)). split; [by constructor|done].
    + exists (Some JNull). split; [by constructor|done].
  - intros [= <-]. exists (Some (JStr s)). split; [by constructor|done].
  - intros [= <-]. exists None. split; [by constructor|done].
  - rewrite SerializeJSONProperty_ref.
    destruct (h !! l) as [[props|elems|]|] eqn:Hl; [| | |done].
    + case_bool_decide as HtoJSON; [done|]. case_bool_decide as Hstack; [done|].
      destruct (result_mapM _ props) as [texts|e] eqn:Htexts; [|done].
      simpl. intros [= <-].
      assert (∃ members, serializes_props false h props members
                ∧ omap id texts
                  = (λ '(key, j), QuoteJSONString key ++ [58] ++ print j) <$> members)
        as (members & Hps & Heq).
      { apply result_mapM_Ok in Htexts. clear Hl HtoJSON.
        induction Htexts as [|[key v] t props texts Hv _ IHps].
        - exists []. split; [constructor|done].
        - destruct IHps as (members & Hps & Heq).
          destruct (SerializeJSONProperty h fuel (l :: stack) v) as [tv|e] eqn:Htv;
            [|done].
          destruct (IH _ _ _ Htv) as (r & Hr & ->). simpl in Hv.
          injection Hv as <-. destruct r as [j|].
          + exists ((key, j) :: members). split; [by constructor|].
            cbn [omap list_omap option_map fmap option_fmap id]. by rewrite Heq.
          + exists members. split; [by constructor|]. done. }
      exists (Some (JObj members)). split; [|by simpl; rewrite Heq].
      eapply ser_object; [done|by eapply Hwf|done|done].
    + case_bool_decide as Hstack; [done|].
      destruct (result_mapM _ elems) as [texts|e] eqn:Htexts; [|done].
      simpl. intros [= <-].
      assert (∃ jsons, serializes_elems false h elems jsons ∧ texts = print <$> jsons)
        as (jsons & Hes & ->).
      { apply result_mapM_Ok in Htexts. clear Hl.
        induction Htexts as [|v t elems texts Hv _ IHes].
        - exists []. split; [constructor|done].
        - destruct IHes as (jsons & Hes & ->).
          destruct (SerializeJSONProperty h fuel (l :: stack) v) as [tv|e] eqn:Htv;
            [|done].
          destruct (IH _ _ _ Htv) as (r & Hr & ->). simpl in Hv.
          injection Hv as <-.
          exists (default JNull r :: jsons). split; [by constructor|].
          by destruct r. }
      exists (Some (JArr jsons)). split; [by econstructor|done].
    + intros [= <-]. exists None. split; [by constructor|done].
Qed.

Lemma result_mapM_Throw {A B} (f : A → result B) l e :
  result_mapM f l = Throw e → ∃ x, x ∈ l ∧ f x = Throw e.
Proof.
  induction l as [|x l IH]; simpl; [done|].
  destruct (f x) as [y|e'] eqn:Hy; simpl.
  - destruct (result_mapM f l) as [ys|e'] eqn:Hys; simpl; [done|].
    intros [= ->]. destruct (IH eq_refl) as (x' & Hx' & Hf).
    exists x'. split; [by right|done].
  - intros [= ->]. exists x. split; [by left|done].
Qed.

Definition out_of_fuel : error := NotModelled "nesting deeper than the heap".

(** The fuel of [SerializeJSONProperty] is enough: each nesting level
    puts one more object of the heap on the stack. *)
Lemma serialize_fuel fuel stack v :
  stack_wf fuel stack → SerializeJSONProperty h fuel stack v ≠ Throw out_of_fuel.
Proof.
  revert stack v. induction fuel as [|fuel IH]; intros stack v Hwf.
  { by destruct (stack_wf_fuel _ _ Hwf). }
  destruct v as [| |[|]|n|s|d|l]; try done.
  rewrite SerializeJSONProperty_ref.
  destruct (h !! l) as [[props|elems|]|] eqn:Hl; [| |done|done].
  - case_bool_decide; [done|]. case_bool_decide as Hstack; [done|].
    assert (stack_wf fuel (l :: stack)) as Hwf'.
    { destruct Hwf as (Hnd & Hin & Hsize). split; [by constructor|]. split.
      - intros l' [->|Hl']%elem_of_cons; eauto.
      - simpl. lia. }
    destruct (result_mapM _ props) as [texts|e] eqn:Htexts; [done|].
    simpl. intros [= ->].
    apply result_mapM_Throw in Htexts as ([key v] & _ & Hv).
    destruct (SerializeJSONProperty h fuel (l :: stack) v) as [t|e] eqn:Ht; [done|].
    simpl in Hv. injection Hv as ->. by apply (IH (l :: stack) v Hwf').
  - case_bool_decide as Hstack; [done|].
    assert (stack_wf fuel (l :: stack)) as Hwf'.
    { destruct Hwf as (Hnd & Hin & Hsize). split; [by constructor|]. split.
      - intros l' [->|Hl']%elem_of_cons; eauto.
      - simpl. lia. }
    destruct (result_mapM _ elems) as [texts|e] eqn:Htexts; [done|].
    simpl. intros [= ->].
    apply result_mapM_Throw in Htexts as (v & _ & Hv).
    destruct (SerializeJSONProperty h fuel (l :: stack) v) as [t|e] eqn:Ht; [done|].
    simpl in Hv. injection Hv as ->. by apply (IH (l :: stack) v Hwf').
Qed.

(** [JSON.stringify] never runs out of fuel. *)
Lemma JSON_stringify_fuel v : JSON_stringify h v ≠ Throw out_of_fuel.
Proof.
  apply serialize_fuel. split; [constructor|]. split; [|simpl; lia].
  intros l Hl. by apply elem_of_nil in Hl.
Qed.

(** [JSON.stringify] on a value that serializes. *)
Theorem JSON_stringify_serializes v r :
  serializes strict h v r → JSON_stringify h v = Ok (print <$> r).
Proof.
  intros Hr. apply (proj1 serialize_correct v r Hr).
  - split; [constructor|]. split; [|simpl; lia].
    intros l Hl. by apply elem_of_nil in Hl.
  - intros l r' Hl. by apply elem_of_nil in Hl.
Qed.
End StringifyFacts.

(** * [JSON.parse] builds a fresh value *)

Lemma serializes_typeof strict (h h' : heap) v r :
  serializes strict h v r → h ⊆ h' → typeof h' v = typeof h v.
Proof.
  intros Hr Hsub. destruct Hr; try done; simpl;
    match goal with
    | Hl : h !! _ = Some _ |- _ =>
        by rewrite Hl, (lookup_weaken _ _ _ _ Hl Hsub)
    end.
Qed.

Lemma serializes_props_get strict (h : heap) props members key v :
  serializes_props strict h props members →
  props_get key props = Some v → ∃ r, serializes strict h v r.
Proof.
  induction 1 as [|k w j props members Hw _ IH|k w props members Hw _ IH];
    simpl; [done| |]; case_decide; intros; simplify_eq; eauto.
Qed.

(** A value serializes the same way in a larger heap. *)
Lemma serializes_weaken strict (h h' : heap) :
  h ⊆ h' →
  (∀ v r, serializes strict h v r → serializes strict h' v r)
  ∧ (∀ elems jsons, serializes_elems strict h elems jsons →
       serializes_elems strict h' elems jsons)
  ∧ (∀ props members, serializes_props strict h props members →
       serializes_props strict h' props members).
Proof.
  intros Hsub. apply serializes_mutind; try by (intros; constructor).
  - intros l Hs Hl. constructor; [done|]. by eapply lookup_weaken.
  - intros l elems jsons Hl _ IH. econstructor; [|done]. by eapply lookup_weaken.
  - intros l props members Hl Hnd HtoJSON Hps IH.
    econstructor; [by eapply lookup_weaken|done| |done].
    destruct (props_get (js "toJSON") props) as [v|] eqn:Hget; [|done].
    destruct (serializes_props_get _ _ _ _ _ _ Hps Hget) as [r Hr].
    simpl in *. by rewrite (serializes_typeof _ _ _ _ _ Hr Hsub).
Qed.

Lemma denotes_weaken (h h' : heap) v j : h ⊆ h' → denotes h v j → denotes h' v j.
Proof. intros Hsub. apply (proj1 (serializes_weaken true h h' Hsub)). Qed.

Lemma denotes_typeof (h : heap) v j : denotes h v j → typeof h v ≠ TFunction.
Proof.
  unfold denotes. inversion 1; simplify_eq; simpl; try done;
    match goal with Hl : _ !! _ = Some _ |- _ => by rewrite Hl end.
Qed.

(** What a value serializes as is a well-formed JSON value. *)
Lemma serializes_wf strict (h : heap) :
  (∀ v r, serializes strict h v r → ∀ j, r = Some j → json_wf j)
  ∧ (∀ elems jsons, serializes_elems strict h elems jsons → Forall json_wf jsons)
  ∧ (∀ props members, serializes_props strict h props members →
       Forall (λ m, json_wf m.2) members ∧ members.*1 `sublist_of` props.*1).
Proof.
  apply serializes_mutind.
  - done.
  - done.
  - done.
  - intros n _ _ j [= <-]. constructor.
  - intros j [= <-]. constructor.
  - intros b j [= <-]. constructor.
  - intros n Hn j [= <-]. by constructor.
  - intros s j [= <-]. constructor.
  - intros l elems jsons _ _ IH j [= <-]. by constructor.
  - intros l props members _ Hnd _ _ [IH Hsub] j [= <-].
    constructor; [|done]. by eapply sublist_NoDup.
  - constructor.
  - intros v r elems jsons _ IHv _ IHes. constructor; [|done].
    destruct r as [j|]; [by apply IHv|constructor].
  - split; [constructor|done].
  - intros key v j props members _ IHv _ [IHps Hsub]. split.
    + constructor; [by apply IHv|done].
    + rewrite !fmap_cons. by apply sublist_skip.
  - intros key v props members _ _ _ [IHps Hsub]. split; [done|].
    rewrite fmap_cons. by apply sublist_cons.
Qed.

Lemma props_set_fresh key v ps :
  key ∉ ps.*1 → props_set key v ps = ps ++ [(key, v)].
Proof.
  induction ps as [|[k w] ps IH]; csimpl; [done|].
  intros Hk. apply not_elem_of_cons in Hk as [Hne Hk].
  rewrite decide_False by done. by rewrite IH.
Qed.

Lemma assign_all_fresh props onto :
  NoDup (onto.*1 ++ props.*1) → assign_all props onto = onto ++ props.
Proof.
  revert onto. induction props as [|[k v] props IH]; intros onto Hnd; simpl.
  - by rewrite app_nil_r.
  - rewrite props_set_fresh.
    + rewrite (IH (onto ++ [(k, v)])); [by rewrite <- app_assoc|].
      rewrite fmap_app, <- app_assoc. done.
    + apply NoDup_app in Hnd as (_ & Hdisj & _). intros Hk.
      apply (Hdisj k Hk). csimpl. left.
Qed.

(** An object literal without repeated key defines its members as
    they are written. *)
Lemma props_of_members_NoDup ps : NoDup ps.*1 → props_of_members ps = ps.
Proof. intros Hnd. apply (assign_all_fresh ps []). done. Qed.

Lemma denotes_elems (h : heap) vs jsons :
  Forall2 (denotes h) vs jsons → serializes_elems true h vs jsons.
Proof.
  induction 1 as [|v j vs jsons Hv _ IH]; [constructor|].
  by apply (ser_elems_cons true h v (Some j)).
Qed.

Lemma denotes_props (h : heap) ps members :
  Forall2 (λ p m, p.1 = m.1 ∧ denotes h p.2 m.2) ps members →
  serializes_props true h ps members ∧ ps.*1 = members.*1.
Proof.
  induction 1 as [|[k v] [k' j] ps members [Hk Hv] _ [IH Hkeys]];
    [split; [constructor|done]|].
  simpl in Hk, Hv. subst k'. split; [by constructor|].
  rewrite !fmap_cons. simpl. by f_equal.
Qed.

Lemma difference_mono (h h1 h2 : heap) : h1 ⊆ h2 → h1 ∖ h ⊆ h2 ∖ h.
Proof.
  intros Hsub. apply map_subseteq_spec. intros l o.
  rewrite !lookup_difference_Some. intros [Hl ?]. split; [|done].
  by eapply lookup_weaken.
Qed.

Lemma difference_anti (h h1 h2 : heap) : h ⊆ h1 → h2 ∖ h1 ⊆ h2 ∖ h.
Proof.
  intros Hsub. apply map_subseteq_spec. intros l o.
  rewrite !lookup_difference_Some. intros [Hl Hnone]. split; [done|].
  destruct (h !! l) as [o'|] eqn:Hl'; [|done].
  by rewrite (lookup_weaken _ _ _ _ Hl' Hsub) in Hnone.
Qed.

(** [alloc] stores the object at a location the heap did not have. *)
Lemma alloc_spec (o : obj) (h0 h : heap) :
  h0 ⊆ h →
  ∃ l, alloc o h = Return (VRef l) (<[l := o]> h)
       ∧ h !! l = None ∧ h ⊆ <[l := o]> h
       ∧ (<[l := o]> h ∖ h0) !! l = Some o.
Proof.
  intros Hsub. exists (fresh (dom h)).
  assert (h !! fresh (dom h) = None) as Hnone.
  { apply not_elem_of_dom, is_fresh. }
  split; [done|]. split; [done|]. split; [by apply insert_subseteq|].
  apply lookup_difference_Some. split; [apply lookup_insert_eq|].
  destruct (h0 !! fresh (dom h)) as [o'|] eqn:Hl; [|done].
  by rewrite (lookup_weaken _ _ _ _ Hl Hsub) in Hnone.
Qed.

(** The value [internalize] builds for [j] holds [j], and all of it
    lies in the part of the heap that was not there before. *)
Definition builds (j : json) : Prop :=
  ∀ h : heap, ∃ v h',
    internalize j h = Return v h' ∧ h ⊆ h' ∧ denotes (h' ∖ h) v j.

Lemma M_mapM_cons {A B} (f : A → M B) x l :
  M_mapM f (x :: l) = y ← f x; ys ← M_mapM f l; mret (y :: ys).
Proof. done. Qed.

Lemma builds_elems elems :
  Forall builds elems →
  ∀ h : heap, ∃ vs h',
    M_mapM internalize elems h = Return vs h' ∧ h ⊆ h'
    ∧ Forall2 (denotes (h' ∖ h)) vs elems.
Proof.
  induction 1 as [|e es He _ IH]; intros h.
  - exists [], h. split; [done|]. split; [done|]. constructor.
  - destruct (He h) as (v & h1 & Hv & Hsub1 & Hden).
    destruct (IH h1) as (vs & h' & Hvs & Hsub' & Hdens).
    exists (v :: vs), h'. split; [|split].
    + rewrite M_mapM_cons. unfold mbind, M_bind. by rewrite Hv, Hvs.
    + by etrans.
    + constructor.
      * eapply denotes_weaken; [|done]. by apply difference_mono.
      * eapply Forall2_impl; [done|]. intros v' j' Hd.
        eapply denotes_weaken; [|done]. by apply difference_anti.
Qed.

Lemma builds_members members :
  Forall (λ m, builds m.2) members →
  ∀ h : heap, ∃ ps h',
    M_mapM (λ '(key, j), v ← internalize j; mret (key, v)) members h
    = Return ps h'
    ∧ h ⊆ h'
    ∧ Forall2 (λ (p : jsstring * val) (m : jsstring * json),
                 p.1 = m.1 ∧ denotes (h' ∖ h) p.2 m.2) ps members.
Proof.
  induction 1 as [|[k j] ms Hj _ IH]; intros h.
  - exists [], h. split; [done|]. split; [done|]. constructor.
  - destruct (Hj h) as (v & h1 & Hv & Hsub1 & Hden).
    destruct (IH h1) as (ps & h' & Hps & Hsub' & Hdens).
    exists ((k, v) :: ps), h'. split; [|split].
    + rewrite M_mapM_cons. simpl in Hv. unfold mbind, M_bind, mret, M_ret in *.
      rewrite Hv. cbv beta iota. by rewrite Hps.
    + by etrans.
    + constructor.
      * split; [done|]. eapply denotes_weaken; [|done]. by apply difference_mono.
      * eapply Forall2_impl; [done|]. intros p m [? Hd]. split; [done|].
        eapply denotes_weaken; [|done]. by apply difference_anti.
Qed.

Lemma internalize_builds j : json_wf j → builds j.
Proof.
  induction j as [|b|n|s|elems IH|members IH] using json_ind'; intros Hwf h.
  - exists VNull, h. split; [done|]. split; [done|]. constructor.
  - exists (VBool b), h. split; [done|]. split; [done|]. constructor.
  - exists (VNum n), h. split; [done|]. split; [done|].
    inversion Hwf; simplify_eq. by constructor.
  - exists (VStr s), h. split; [done|]. split; [done|]. constructor.
  - inversion Hwf as [| | | |? Hwfs|]; simplify_eq.
    assert (Forall builds elems) as Hall.
    { apply Forall_forall. intros e He.
      by apply (proj1 (Forall_forall _ _) IH e He), (proj1 (Forall_forall _ _) Hwfs). }
    destruct (builds_elems elems Hall h) as (vs & h2 & Hvs & Hsub & Hdens).
    destruct (alloc_spec (Arr vs) h h2 Hsub) as (l & Hl & Hnone & Hsub' & Hnew).
    exists (VRef l), (<[l := Arr vs]> h2). split; [|split].
    + change (internalize (JArr elems))
        with (vs ← M_mapM internalize elems; alloc (Arr vs)).
      unfold mbind, M_bind. by rewrite Hvs.
    + by etrans.
    + eapply ser_array; [done|]. apply denotes_elems.
      eapply Forall2_impl; [done|]. intros v' j' Hd.
      eapply denotes_weaken; [|done]. by apply difference_mono.
  - inversion Hwf as [| | | | |? Hnd Hwfs]; simplify_eq.
    assert (Forall (λ m, builds m.2) members) as Hall.
    { apply Forall_forall. intros m Hm.
      by apply (proj1 (Forall_forall _ _) IH m Hm), (proj1 (Forall_forall _ _) Hwfs). }
    destruct (builds_members members Hall h) as (ps & h2 & Hps & Hsub & Hdens).
    destruct (alloc_spec (Obj (props_of_members ps)) h h2 Hsub)
      as (l & Hl & Hnone & Hsub' & Hnew).
    exists (VRef l), (<[l := Obj (props_of_members ps)]> h2). split; [|split].
    + change (internalize (JObj members))
        with (ps ← M_mapM (λ '(key, j), v ← internalize j; mret (key, v)) members;
              alloc (Obj (props_of_members ps))).
      unfold mbind, M_bind in *. by rewrite Hps.
    + by etrans.
    + assert (Forall2 (λ (p : jsstring * val) (m : jsstring * json), p.1 = m.1
          ∧ denotes (<[l := Obj (props_of_members ps)]> h2 ∖ h) p.2 m.2) ps members)
        as Hdens'.
      { eapply Forall2_impl; [done|]. intros p m [? Hd]. split; [done|].
        eapply denotes_weaken; [|done]. by apply difference_mono. }
      destruct (denotes_props _ _ _ Hdens') as [Hser Hkeys].
      rewrite props_of_members_NoDup in * by by rewrite Hkeys.
      eapply ser_object; [done|by rewrite Hkeys| |done].
      destruct (props_get (js "toJSON") ps) as [v|] eqn:Hget; [|done].
      destruct (serializes_props_get _ _ _ _ _ _ Hser Hget) as [r Hr].
      simpl. inversion Hr; simplify_eq; simpl; try done;
        match goal with Hl : _ !! _ = Some _ |- _ => by rewrite Hl end.
Qed.

(** [internalize] returns on every JSON value. *)
Lemma internalize_returns j (h : heap) : ∃ v h', internalize j h = Return v h'.
Proof.
  revert h. induction j as [|b|n|s|elems IH|members IH] using json_ind';
    intros h; try by eauto.
  - assert (∃ vs h', M_mapM internalize elems h = Return vs h') as (vs & h' & Hvs).
    { revert h. induction IH as [|e es He _ IHes]; intros h; [by eauto|].
      destruct (He h) as (v & h1 & Hv). destruct (IHes h1) as (vs & h' & Hvs).
      exists (v :: vs), h'. rewrite M_mapM_cons. unfold mbind, M_bind.
      by rewrite Hv, Hvs. }
    change (internalize (JArr elems))
      with (vs ← M_mapM internalize elems; alloc (Arr vs)).
    unfold mbind, M_bind. rewrite Hvs. by eauto.
  - assert (∃ ps h',
        M_mapM (λ '(key, j), v ← internalize j; mret (key, v)) members h
        = Return ps h') as (ps & h' & Hps).
    { revert h. induction IH as [|[k j] ms Hj _ IHms]; intros h; [by eauto|].
      destruct (Hj h) as (v & h1 & Hv). destruct (IHms h1) as (ps & h' & Hps).
      exists ((k, v) :: ps), h'. rewrite M_mapM_cons. simpl in Hv.
      unfold mbind, M_bind, mret, M_ret in *.
      rewrite Hv. cbv beta iota. by rewrite Hps. }
    change (internalize (JObj members))
      with (ps ← M_mapM (λ '(key, j), v ← internalize j; mret (key, v)) members;
            alloc (Obj (props_of_members ps))).
    unfold mbind, M_bind in *. rewrite Hps. by eauto.
Qed.

(** * Properties of [cloneJSON] and [tryParseJSON] *)

Section CloneFacts.
Context `{Host}.

Lemma JSON_parse_string (s : jsstring) (h : heap) :
  JSON_parse (VStr s) h
  = match parse_text s with
    | Some j => internalize j h
    | None => Raise parse_error h
    end.
Proof.
  unfold JSON_parse, mbind, M_bind, read. simpl.
  by destruct (parse_text s).
Qed.

(** [JSON.parse(undefined)] reads the text ["undefined"], which is not
    JSON. *)
Lemma JSON_parse_undefined (h : heap) :
  JSON_parse VUndefined h = Raise parse_error h.
Proof. done. Qed.

(** [cloneJSON] on a value that serializes: the text is printed, read
    back and built; where the value serializes as nothing, the text
    ["undefined"] is rejected. *)
Lemma cloneJSON_serializes strict (h : heap) v r :
  is_nullish v = false → serializes strict h v r →
  Forall number_round_trips (from_option json_numbers [] r) →
  cloneJSON v h
  = match r with
    | Some j => internalize j h
    | None => Raise parse_error h
    end.
Proof.
  intros Hn Hr Hnum. unfold cloneJSON. rewrite Hn.
  unfold mbind, M_bind, read.
  rewrite (JSON_stringify_serializes strict h v r Hr).
  destruct r as [j|]; simpl.
  - rewrite JSON_parse_string, parse_text_print; done.
  - apply JSON_parse_undefined.
Qed.

(** Where [cloneJSON] returns, its argument serializes: a value that
    reaches a cycle, or a [toJSON] method, makes it raise. *)
Lemma cloneJSON_returns_serializes (h : heap) v v' h' :
  heap_wf h → is_nullish v = false → cloneJSON v h = Return v' h' →
  ∃ j, serializes false h v (Some j).
Proof.
  intros Hwf Hn. unfold cloneJSON. rewrite Hn. unfold mbind, M_bind, read.
  destruct (JSON_stringify h v) as [[text|]|e] eqn:Htext; [| |done].
  - destruct (serialize_sound false h eq_refl Hwf _ _ _ _ Htext) as (r & Hr & Heq).
    destruct r as [j|]; [by eauto|done].
  - simpl. by rewrite JSON_parse_undefined.
Qed.

(** C3, as amended: [cloneJSON] raises a SyntaxError on a function and
    on a symbol, which [JSON.stringify] turns into no text at all, and it
    raises on every value that does not serialize, such as one that
    reaches a cycle; on any other non-null value, with nested functions,
    symbols and undefined fields dropped or coerced, it returns a value
    built from new objects that holds the JSON value the argument
    serializes as. *)
Theorem cloneJSON_non_serializable (h : heap) (v : val) :
  ((∃ d, v = VSymbol d) ∨ (∃ l, v = VRef l ∧ h !! l = Some Fun) →
     cloneJSON v h = Raise parse_error h)
  ∧ (heap_wf h → is_nullish v = false →
     (∀ j, ¬ serializes false h v (Some j)) →
     ∃ e h', cloneJSON v h = Raise e h')
  ∧ (∀ j, is_nullish v = false → serializes false h v (Some j) →
       Forall number_round_trips (json_numbers j) →
       ∃ v' h', cloneJSON v h = Return v' h' ∧ h ⊆ h' ∧ denotes (h' ∖ h) v' j).
Proof.
  split; [|split].
  - intros [[d ->]|(l & -> & Hl)].
    + by rewrite (cloneJSON_serializes false h (VSymbol d) None eq_refl
                    (ser_symbol _ _ d eq_refl)).
    + by rewrite (cloneJSON_serializes false h (VRef l) None eq_refl
                    (ser_function _ _ l eq_refl Hl)).
  - intros Hwf Hn Hnone. destruct (cloneJSON v h) as [v' h'|e h'] eqn:Hclone.
    + destruct (cloneJSON_returns_serializes h v v' h' Hwf Hn Hclone) as [j Hj].
      by destruct (Hnone j).
    + eauto.
  - intros j Hn Hj Hnum.
    rewrite (cloneJSON_serializes false h v (Some j) Hn Hj Hnum).
    apply internalize_builds.
    by apply (proj1 (serializes_wf false h) v (Some j) Hj).
Qed.

(** C8, as amended: [cloneJSON] returns null and undefined as they
    are; on a JSON-compatible value whose numbers are printed as
    literals that read back as the same numbers it returns a deeply
    equal copy made of new objects only, so that writing to an object of
    the copy leaves the original as it was, and the other way round. *)
Theorem cloneJSON_deep_copy (h : heap) (v : val) :
  (is_nullish v = true → cloneJSON v h = Return v h)
  ∧ (∀ j, denotes h v j → Forall number_round_trips (json_numbers j) →
       ∃ v' h', cloneJSON v h = Return v' h'
         ∧ h ⊆ h'
         ∧ deep_equal h v h' v'
         ∧ denotes (h' ∖ h) v' j
         ∧ (∀ l o, l ∉ dom h → denotes (<[l := o]> h') v j)
         ∧ (∀ l o, l ∈ dom h → denotes (<[l := o]> h') v' j)).
Proof.
  split.
  - intros Hn. unfold cloneJSON. by rewrite Hn.
  - intros j Hj Hnum.
    assert (∃ v' h', cloneJSON v h = Return v' h' ∧ h ⊆ h' ∧ denotes (h' ∖ h) v' j)
      as (v' & h' & Hclone & Hsub & Hcopy).
    { destruct (is_nullish v) eqn:Hn.
      - destruct v; try done; [by inversion Hj|].
        inversion Hj; simplify_eq. exists VNull, h.
        split; [done|]. split; [done|]. constructor.
      - rewrite (cloneJSON_serializes true h v (Some j) Hn Hj Hnum).
        apply internalize_builds.
        by apply (proj1 (serializes_wf true h) v (Some j) Hj). }
    exists v', h'. split; [done|]. split; [done|].
    assert (h' ∖ h ⊆ h') as Hnew by apply map_subseteq_difference_l, reflexivity.
    split; [|split; [done|split]].
    + exists j. split; [done|]. by eapply denotes_weaken.
    + intros l o Hl. eapply denotes_weaken; [|done].
      apply insert_subseteq_r; [by apply not_elem_of_dom|done].
    + intros l o Hl. eapply denotes_weaken; [|done].
      apply map_subseteq_spec. intros l' o'.
      rewrite lookup_difference_Some. intros [Hl' Hnone].
      rewrite lookup_insert_ne; [done|].
      intros ->. by apply not_elem_of_dom in Hnone.
Qed.

(** C6, as amended: on a text that parses [tryParseJSON] returns the
    parsed value; on any other text it calls [onError], when there is
    one, with the parse error and returns [undefined] once [onError] has
    returned; the only error that reaches the caller is one that
    [onError] raises. *)
Theorem tryParseJSON_spec (s : jsstring) (onError : option (error → M val))
    (h : heap) :
  (∀ j, parse_text s = Some j →
     ∃ v h', internalize j h = Return v h'
             ∧ tryParseJSON (VStr s) onError h = Return v h')
  ∧ (parse_text s = None → onError = None →
       tryParseJSON (VStr s) onError h = Return VUndefined h)
  ∧ (∀ f, parse_text s = None → onError = Some f →
       tryParseJSON (VStr s) onError h
       = match f parse_error h with
         | Return _ h' => Return VUndefined h'
         | Raise e h' => Raise e h'
         end).
Proof.
  unfold tryParseJSON, try_catch, mbind, M_bind. rewrite JSON_parse_string.
  split; [|split].
  - intros j ->. destruct (internalize_returns j h) as (v & h' & Hv).
    exists v, h'. by rewrite Hv.
  - by intros -> ->.
  - intros f -> ->. simpl. by destruct (f parse_error h).
Qed.
End CloneFacts.

(** * The statements at concrete values *)

Section PlainExamples.
Existing Instance plain_host.

Definition d1 : number := Plain.double_of_Z 1.
Definition d2 : number := Plain.double_of_Z 2.

Lemma d1_round_trips : number_round_trips d1.
Proof. split; reflexivity. Qed.

Lemma d2_round_trips : number_round_trips d2.
Proof. split; reflexivity. Qed.

(** [{a: 1, b: [1, 2]}] *)
Definition h_ab : heap :=
  {[ 1%positive := Obj [(js "a", VNum d1); (js "b", VRef 2)];
     2%positive := Arr [VNum d1; VNum d2] ]}.

Definition j_ab : json :=
  JObj [(js "a", JNum d1); (js "b", JArr [JNum d1; JNum d2])].

Lemma h_ab_denotes : denotes h_ab (VRef 1) j_ab.
Proof.
  eapply ser_object; [reflexivity|refine (bool_decide_unpack _ _); vm_compute; exact I|done|].
  apply ser_props_cons; [by apply ser_number|].
  apply ser_props_cons; [|apply ser_props_nil].
  eapply ser_array; [reflexivity|].
  apply (ser_elems_cons true h_ab (VNum d1) (Some (JNum d1))); [by apply ser_number|].
  apply (ser_elems_cons true h_ab (VNum d2) (Some (JNum d2))); [by apply ser_number|].
  apply ser_elems_nil.
Defined.

(** C8 at [{a: 1, b: [1, 2]}] and at [null]. *)
Lemma cloneJSON_deep_copy_witness :
  cloneJSON VNull h_ab = Return VNull h_ab
  ∧ ∃ v' h', cloneJSON (VRef 1) h_ab = Return v' h'
      ∧ h_ab ⊆ h'
      ∧ deep_equal h_ab (VRef 1) h' v'
      ∧ denotes (h' ∖ h_ab) v' j_ab
      ∧ (∀ l o, l ∉ dom h_ab → denotes (<[l := o]> h') (VRef 1) j_ab)
      ∧ (∀ l o, l ∈ dom h_ab → denotes (<[l := o]> h') v' j_ab).
Proof.
  split.
  - exact (proj1 (cloneJSON_deep_copy h_ab VNull) eq_refl).
  - refine (proj2 (cloneJSON_deep_copy h_ab (VRef 1)) j_ab h_ab_denotes _).
    repeat constructor; reflexivity.
Defined.

(** C8 as stated fails on [-0], a JSON-compatible value: it is printed
    as [0] and comes back as [+0], another Number. *)
Lemma cloneJSON_negative_zero_counterexample :
  let v := VNum (S754_zero true) in
  denotes ∅ v (JNum (S754_zero true))
  ∧ cloneJSON v ∅ = Return (VNum (S754_zero false)) ∅
  ∧ ¬ deep_equal ∅ v ∅ (VNum (S754_zero false)).
Proof.
  intros v. split; [by apply ser_number|]. split; [vm_compute; reflexivity|].
  intros (j & Hv & Hv'). inversion Hv; inversion Hv'; simplify_eq.
Qed.

(** [{a: 1, f: function () {}, u: undefined}] and a function. *)
Definition h_f : heap :=
  {[ 1%positive := Obj [(js "a", VNum d1); (js "f", VRef 2); (js "u", VUndefined)];
     2%positive := Fun ]}.

Lemma h_f_serializes :
  serializes false h_f (VRef 1) (Some (JObj [(js "a", JNum d1)])).
Proof.
  eapply ser_object; [reflexivity|refine (bool_decide_unpack _ _); vm_compute; exact I|done|].
  apply ser_props_cons; [by apply ser_number|].
  apply ser_props_skip; [by apply ser_function|].
  apply ser_props_skip; [by apply ser_undefined|].
  apply ser_props_nil.
Defined.

(** An object that holds itself. *)
Definition h_self : heap := {[ 3%positive := Obj [(js "self", VRef 3)] ]}.

Lemma h_self_wf : heap_wf h_self.
Proof.
  intros l props Hl. unfold h_self in Hl.
  apply lookup_singleton_Some in Hl as [_ [= <-]].
  refine (bool_decide_unpack _ _). vm_compute. exact I.
Qed.

(** C3, amended, at a function, at an object that holds itself and at
    an object with a function and an undefined field. *)
Lemma cloneJSON_non_serializable_witness :
  cloneJSON (VRef 2) h_f = Raise parse_error h_f
  ∧ (∃ e h', cloneJSON (VRef 3) h_self = Raise e h')
  ∧ ∃ v' h', cloneJSON (VRef 1) h_f = Return v' h'
      ∧ h_f ⊆ h' ∧ denotes (h' ∖ h_f) v' (JObj [(js "a", JNum d1)]).
Proof.
  split; [|split].
  - refine (proj1 (cloneJSON_non_serializable h_f (VRef 2)) _).
    right. exists 2%positive. split; reflexivity.
  - refine (proj1 (proj2 (cloneJSON_non_serializable h_self (VRef 3)))
              h_self_wf eq_refl _).
    intros j. apply self_reference_not_serializable. left.
    exists [(js "self", VRef 3)], (js "self"). split; [reflexivity|].
    apply list_elem_of_singleton. reflexivity.
  - refine (proj2 (proj2 (cloneJSON_non_serializable h_f (VRef 1)))
              _ eq_refl h_f_serializes _).
    repeat constructor; reflexivity.
Defined.

(** C3 as stated fails: a function, a symbol and an object that contains
    itself make [cloneJSON] raise. *)
Lemma cloneJSON_raises_counterexample :
  let h : heap := {[ 1%positive := Fun;
                     2%positive := Obj [(js "self", VRef 2)] ]} in
  is_nullish (VRef 1) = false
  ∧ cloneJSON (VRef 1) h = Raise parse_error h
  ∧ cloneJSON (VSymbol (js "s")) h = Raise parse_error h
  ∧ cloneJSON (VRef 2) h = Raise circular_error h.
Proof. intros h. repeat split; reflexivity. Qed.

(** A callback that keeps the error message in the object at [9]. *)
Definition keep_error (e : error) : M val :=
  store 9 (Obj [(js "error", VStr (js match e with
                                       | Error m | TypeError m
                                       | SyntaxError m | NotModelled m => m
                                       end))]) ;;
  mret VNull.

Lemma parse_text_a1 :
  parse_text (jsq "{'a':1}") = Some (JObj [(js "a", JNum d1)]).
Proof. vm_compute. reflexivity. Qed.

Lemma parse_text_not_json : parse_text (js "not json") = None.
Proof. vm_compute. reflexivity. Qed.

(** C6, amended, at [{"a":1}] and at [not json]. *)
Lemma tryParseJSON_spec_witness :
  (∃ v h', tryParseJSON (VStr (jsq "{'a':1}")) (Some keep_error) ∅ = Return v h'
           ∧ internalize (JObj [(js "a", JNum d1)]) ∅ = Return v h')
  ∧ tryParseJSON (VStr (js "not json")) None ∅ = Return VUndefined ∅
  ∧ tryParseJSON (VStr (js "not json")) (Some keep_error) ∅
    = Return VUndefined
        {[ 9%positive := Obj [(js "error", VStr (js "Unexpected token in JSON"))] ]}.
Proof.
  split; [|split].
  - destruct (proj1 (tryParseJSON_spec (jsq "{'a':1}") (Some keep_error) ∅)
                (JObj [(js "a", JNum d1)]) parse_text_a1) as (v & h' & Hv & Hparse).
    exists v, h'. by split.
  - exact (proj1 (proj2 (tryParseJSON_spec (js "not json") None ∅))
             parse_text_not_json eq_refl).
  - exact (proj2 (proj2 (tryParseJSON_spec (js "not json") (Some keep_error) ∅))
             keep_error parse_text_not_json eq_refl).
Defined.

(** C6 as stated fails: an [onError] that raises again lets the error
    reach the caller. *)
Lemma tryParseJSON_rethrow_counterexample :
  tryParseJSON (VStr (js "not json")) (Some (λ e, raise e)) ∅
  = Raise parse_error ∅.
Proof. reflexivity. Qed.
End PlainExamples.
(** * More on [src/boolean.js]: domains, outcomes and composition *)

Lemma Array_every_true {A} (f : A → result bool) (values : list A) :
  Array_every f values = Ok true ↔ Forall (λ v, f v = Ok true) values.
Proof.
  induction values as [|v values IH]; simpl.
  - split; [constructor|done].
  - rewrite Forall_cons, <- IH.
    destruct (f v) as [[|]|e]; simpl; split; try done; by intros [? ?].
Qed.

Lemma Array_some_false {A} (f : A → result bool) (values : list A) :
  Array_some f values = Ok false ↔ Forall (λ v, f v = Ok false) values.
Proof.
  induction values as [|v values IH]; simpl.
  - split; [constructor|done].
  - rewrite Forall_cons, <- IH.
    destruct (f v) as [[|]|e]; simpl; split; try done; by intros [? ?].
Qed.

(** Any other outcome of [every] is the outcome of the callback on the
    first element it does not answer [true] on. *)
Lemma Array_every_stops {A} (f : A → result bool) (values : list A) (r : result bool) :
  r ≠ Ok true →
  Array_every f values = r
  ↔ ∃ pre v post, values = pre ++ v :: post
      ∧ Forall (λ u, f u = Ok true) pre ∧ f v = r.
Proof.
  intros Hr. induction values as [|v values IH]; simpl.
  - split; [congruence|]. intros (pre & u & post & E & _). by destruct pre.
  - destruct (f v) as [[|]|e] eqn:Hv; simpl.
    + rewrite IH. split.
      * intros (pre & u & post & -> & Hpre & Hu).
        exists (v :: pre), u, post. split; [done|]. split; [by constructor|done].
      * intros (pre & u & post & E & Hpre & Hu).
        destruct pre as [|p pre]; simplify_eq/=; try congruence.
        apply Forall_cons in Hpre as [_ Hpre]. eauto 10.
    + split.
      * intros <-. exists [], v, values. split; [done|]. split; [constructor|done].
      * intros (pre & u & post & E & Hpre & Hu).
        destruct pre as [|p pre]; simplify_eq/=; try congruence.
        apply Forall_cons in Hpre as [? _]. congruence.
    + split.
      * intros <-. exists [], v, values. split; [done|]. split; [constructor|done].
      * intros (pre & u & post & E & Hpre & Hu).
        destruct pre as [|p pre]; simplify_eq/=; try congruence.
        apply Forall_cons in Hpre as [? _]. congruence.
Qed.

Lemma Array_some_stops {A} (f : A → result bool) (values : list A) (r : result bool) :
  r ≠ Ok false →
  Array_some f values = r
  ↔ ∃ pre v post, values = pre ++ v :: post
      ∧ Forall (λ u, f u = Ok false) pre ∧ f v = r.
Proof.
  intros Hr. induction values as [|v values IH]; simpl.
  - split; [congruence|]. intros (pre & u & post & E & _). by destruct pre.
  - destruct (f v) as [[|]|e] eqn:Hv; simpl.
    + split.
      * intros <-. exists [], v, values. split; [done|]. split; [constructor|done].
      * intros (pre & u & post & E & Hpre & Hu).
        destruct pre as [|p pre]; simplify_eq/=; try congruence.
        apply Forall_cons in Hpre as [? _]. congruence.
    + rewrite IH. split.
      * intros (pre & u & post & -> & Hpre & Hu).
        exists (v :: pre), u, post. split; [done|]. split; [by constructor|done].
      * intros (pre & u & post & E & Hpre & Hu).
        destruct pre as [|p pre]; simplify_eq/=; try congruence.
        apply Forall_cons in Hpre as [_ Hpre]. eauto 10.
    + split.
      * intros <-. exists [], v, values. split; [done|]. split; [constructor|done].
      * intros (pre & u & post & E & Hpre & Hu).
        destruct pre as [|p pre]; simplify_eq/=; try congruence.
        apply Forall_cons in Hpre as [? _]. congruence.
Qed.

Lemma Array_every_app {A} (f : A → result bool) (xs ys : list A) :
  Array_every f (xs ++ ys)
  = (b ← Array_every f xs; if b : bool then Array_every f ys else Ok false).
Proof.
  induction xs as [|x xs IH]; [done|]. simpl.
  destruct (f x) as [[|]|e]; simpl; [apply IH|done|done].
Qed.

Lemma Array_some_app {A} (f : A → result bool) (xs ys : list A) :
  Array_some f (xs ++ ys)
  = (b ← Array_some f xs; if b : bool then Ok true else Array_some f ys).
Proof.
  induction xs as [|x xs IH]; [done|]. simpl.
  destruct (f x) as [[|]|e]; simpl; [done|apply IH|done].
Qed.

(** The upper case of a string is at least as long as the string. *)
Lemma toUpperCase_length s : (length s ≤ length (toUpperCase s))%nat.
Proof.
  induction s as [|c s IH]; [done|].
  unfold toUpperCase in *. rewrite bind_cons, length_app. simpl.
  pose proof (toUpperCase_unit_nonempty c) as Hc.
  destruct (toUpperCase_unit c); [done|]. simpl. lia.
Qed.

Section BooleanMore.
Context `{Host} (h : heap).

Lemma ynToBool_Ok v b : ynToBool h v = Ok b ↔ flag_of h v b.
Proof.
  split; [|apply ynToBool_flag].
  destruct (ynToBool_cases h v) as [(b' & Hf & ->)|[(_ & ->)|(e & _ & ->)]];
    [|done|done].
  by intros [= <-].
Qed.

Lemma ynToBool_not_Ok v b : negb <$> ynToBool h v = Ok b ↔ flag_of h v (negb b).
Proof.
  rewrite <- ynToBool_Ok. destruct (ynToBool h v) as [b'|e]; simpl; [|done].
  split; intros [= E]; f_equal; destruct b, b'; done.
Qed.

Lemma ynToBool_not_Throw v e :
  negb <$> ynToBool h v = Throw e ↔ ynToBool h v = Throw e.
Proof. by destruct (ynToBool h v). Qed.

(** X1: [boolToYN] returns exactly on the booleans, and then "Y" or
    "N"; on any other value, a truthy one or a flag included, it raises
    its own error: what it returns it does not accept. *)
Theorem boolToYN_only_booleans (v : val) :
  ((∃ s, boolToYN h v = Ok s) ↔ ∃ b : bool, v = VBool b)
  ∧ (∀ s, boolToYN h v = Ok s →
       (s = js "Y" ∨ s = js "N") ∧ boolToYN h (VStr s) = Throw boolToYN_error)
  ∧ ((∀ b : bool, v ≠ VBool b) ↔ boolToYN h v = Throw boolToYN_error)
  ∧ (∀ e, boolToYN h v = Throw e → e = boolToYN_error).
Proof.
  assert (boolToYN h v = match v with
                         | VBool true => Ok (js "Y")
                         | VBool false => Ok (js "N")
                         | _ => Throw boolToYN_error
                         end) as ->.
  { unfold boolToYN. destruct v as [| |[|]|n|s|d|l]; try done.
    simpl. by destruct (h !! l) as [[ps|es|]|]. }
  split; [|split; [|split]].
  - split; [|by intros [[|] ->]; eauto].
    destruct v as [| |b|n|s|d|l]; try (by intros [? ?]). eauto.
  - intros s. destruct v as [| |[|]|n|s'|d|l]; try done; intros [= <-]; auto.
  - split.
    + intros Hv. destruct v as [| |b|n|s|d|l]; try done. by destruct (Hv b).
    + intros Hv b ->. by destruct b.
  - intros e. destruct v as [| |[|]|n|s|d|l]; try done; by intros [= <-].
Qed.
(** X2: of all strings [ynToBool] accepts four: "Y" and "y" give
    [true], "N" and "n" give [false]; on any other string, the empty
    one and a flag with white space around it included, it raises its
    own error. *)
Theorem ynToBool_strings (s : jsstring) :
  (ynToBool h (VStr s) = Ok true ↔ s = js "Y" ∨ s = js "y")
  ∧ (ynToBool h (VStr s) = Ok false ↔ s = js "N" ∨ s = js "n")
  ∧ (∀ e, ynToBool h (VStr s) = Throw e
       ↔ e = ynToBool_error
         ∧ s ≠ js "Y" ∧ s ≠ js "y" ∧ s ≠ js "N" ∧ s ≠ js "n").
Proof.
  pose proof (toUpperCase_Y s) as HY. pose proof (toUpperCase_N s) as HN.
  unfold ynToBool. simpl.
  destruct (decide (toUpperCase s = js "Y")) as [EY|EY];
    destruct (decide (toUpperCase s = js "N")) as [EN|EN].
  - rewrite EY in EN. discriminate.
  - rewrite (bool_decide_eq_false_2 (toUpperCase s ≠ js "Y")) by auto.
    rewrite (bool_decide_eq_true_2 (toUpperCase s = js "Y")) by done. simpl.
    split; [tauto|]. split; [|split; [done|]].
    + split; [done|]. intros E. apply HN in E. done.
    + intros (_ & H1 & H2 & _). apply HY in EY. tauto.
  - rewrite (bool_decide_eq_true_2 (toUpperCase s ≠ js "Y")) by done.
    rewrite (bool_decide_eq_false_2 (toUpperCase s ≠ js "N")) by auto.
    rewrite (bool_decide_eq_false_2 (toUpperCase s = js "Y")) by done. simpl.
    split; [|split; [tauto|split; [done|]]].
    + split; [done|]. intros E. apply HY in E. done.
    + intros (_ & _ & _ & H1 & H2). apply HN in EN. tauto.
  - rewrite (bool_decide_eq_true_2 (toUpperCase s ≠ js "Y")) by done.
    rewrite (bool_decide_eq_true_2 (toUpperCase s ≠ js "N")) by done. simpl.
    split; [|split].
    + split; [done|]. intros E. apply HY in E. done.
    + split; [done|]. intros E. apply HN in E. done.
    + intros e. split.
      * intros [= <-]. split; [done|]. tauto.
      * by intros [-> _].
Qed.

(** X3: [undefined], [null], a boolean and a symbol are not flags:
    their strings are "undefined", "null", "true", "false" and
    "Symbol(...)".  So [ynToBool] raises on what it returned itself. *)
Theorem ynToBool_not_a_flag :
  ynToBool h VUndefined = Throw ynToBool_error
  ∧ ynToBool h VNull = Throw ynToBool_error
  ∧ (∀ b : bool, ynToBool h (VBool b) = Throw ynToBool_error)
  ∧ (∀ d : jsstring, ynToBool h (VSymbol d) = Throw ynToBool_error)
  ∧ (∀ v b, ynToBool h v = Ok b → ynToBool h (VBool b) = Throw ynToBool_error).
Proof.
  assert (∀ b : bool, ynToBool h (VBool b) = Throw ynToBool_error) as Hbool
    by by intros [|].
  split; [done|]. split; [done|]. split; [done|]. split; [|auto].
  intros d. apply ynToBool_invalid. exists (js "Symbol(" ++ d ++ js ")").
  split; [done|].
  pose proof (toUpperCase_length (js "Symbol(" ++ d ++ js ")")) as Hlen.
  split; intros E; rewrite E, !length_app in Hlen; simpl in Hlen; lia.
Qed.

(** X4: [allY] answers [true] exactly when every element is a "Y" flag,
    and [allN] when every element is an "N" flag; [someY] answers
    [false] exactly when every element is an "N" flag, and [someN] when
    every element is a "Y" flag. *)
Theorem batch_checks_unanimous (values : list val) :
  (allY h values = Ok true ↔ Forall (λ v, flag_of h v true) values)
  ∧ (allN h values = Ok true ↔ Forall (λ v, flag_of h v false) values)
  ∧ (someY h values = Ok false ↔ Forall (λ v, flag_of h v false) values)
  ∧ (someN h values = Ok false ↔ Forall (λ v, flag_of h v true) values).
Proof.
  unfold allY, allN, someY, someN.
  rewrite !Array_every_true, !Array_some_false.
  split; [|split; [|split]]; apply Forall_iff; intros v.
  - apply ynToBool_Ok.
  - apply (ynToBool_not_Ok v true).
  - apply ynToBool_Ok.
  - apply (ynToBool_not_Ok v false).
Qed.

Lemma stops_at (P Q P' Q' : val → Prop) (values : list val) :
  (∀ v, P v ↔ P' v) → (∀ v, Q v ↔ Q' v) →
  (∃ pre v post, values = pre ++ v :: post ∧ Forall P pre ∧ Q v)
  ↔ (∃ pre v post, values = pre ++ v :: post ∧ Forall P' pre ∧ Q' v).
Proof.
  intros HP HQ.
  split; intros (pre & v & post & -> & Hpre & Hv); exists pre, v, post;
    (split; [done|]);
    (split; [by apply (Forall_iff P pre P' HP)|by apply HQ]).
Qed.

(** X5: a check answers before the end of the sequence exactly at the
    first flag that settles it, whatever comes after that flag: [allY]
    answers [false], and [someN] [true], when an "N" flag follows "Y"
    flags only; [allN] answers [false], and [someY] [true], when a "Y"
    flag follows "N" flags only. *)
Theorem batch_checks_settled (values : list val) :
  (allY h values = Ok false
   ↔ ∃ pre v post, values = pre ++ v :: post
       ∧ Forall (λ u, flag_of h u true) pre ∧ flag_of h v false)
  ∧ (someN h values = Ok true
     ↔ ∃ pre v post, values = pre ++ v :: post
         ∧ Forall (λ u, flag_of h u true) pre ∧ flag_of h v false)
  ∧ (allN h values = Ok false
     ↔ ∃ pre v post, values = pre ++ v :: post
         ∧ Forall (λ u, flag_of h u false) pre ∧ flag_of h v true)
  ∧ (someY h values = Ok true
     ↔ ∃ pre v post, values = pre ++ v :: post
         ∧ Forall (λ u, flag_of h u false) pre ∧ flag_of h v true).
Proof.
  unfold allY, allN, someY, someN.
  rewrite !Array_every_stops, !Array_some_stops by done.
  split; [|split; [|split]]; apply stops_at; intros v.
  - apply ynToBool_Ok.
  - apply ynToBool_Ok.
  - apply (ynToBool_not_Ok v false).
  - apply (ynToBool_not_Ok v true).
  - apply (ynToBool_not_Ok v true).
  - apply (ynToBool_not_Ok v false).
  - apply ynToBool_Ok.
  - apply ynToBool_Ok.
Qed.

(** X6: a check raises exactly when [ynToBool] raises on an element
    that only flags leaving the answer open come before, and it raises
    that error: "Y" flags for [allY] and [someN], "N" flags for [allN]
    and [someY]. *)
Theorem batch_checks_raise (values : list val) (e : error) :
  (allY h values = Throw e
   ↔ ∃ pre v post, values = pre ++ v :: post
       ∧ Forall (λ u, flag_of h u true) pre ∧ ynToBool h v = Throw e)
  ∧ (someN h values = Throw e
     ↔ ∃ pre v post, values = pre ++ v :: post
         ∧ Forall (λ u, flag_of h u true) pre ∧ ynToBool h v = Throw e)
  ∧ (allN h values = Throw e
     ↔ ∃ pre v post, values = pre ++ v :: post
         ∧ Forall (λ u, flag_of h u false) pre ∧ ynToBool h v = Throw e)
  ∧ (someY h values = Throw e
     ↔ ∃ pre v post, values = pre ++ v :: post
         ∧ Forall (λ u, flag_of h u false) pre ∧ ynToBool h v = Throw e).
Proof.
  unfold allY, allN, someY, someN.
  rewrite !Array_every_stops, !Array_some_stops by done.
  split; [|split; [|split]]; apply stops_at; intros v.
  - apply ynToBool_Ok.
  - done.
  - apply (ynToBool_not_Ok v false).
  - apply ynToBool_not_Throw.
  - apply (ynToBool_not_Ok v true).
  - apply ynToBool_not_Throw.
  - apply ynToBool_Ok.
  - done.
Qed.

(** X7: a check of two sequences joined is the check of the first and,
    where that leaves the answer open, the check of the second; an
    error or a settled answer of the first is the outcome. *)
Theorem batch_checks_app (xs ys : list val) :
  allY h (xs ++ ys) = (b ← allY h xs; if b : bool then allY h ys else Ok false)
  ∧ someY h (xs ++ ys) = (b ← someY h xs; if b : bool then Ok true else someY h ys)
  ∧ allN h (xs ++ ys) = (b ← allN h xs; if b : bool then allN h ys else Ok false)
  ∧ someN h (xs ++ ys) = (b ← someN h xs; if b : bool then Ok true else someN h ys).
Proof.
  unfold allY, allN, someY, someN.
  by rewrite !Array_every_app, !Array_some_app.
Qed.

Lemma flag_of_inj v b b' : flag_of h v b → flag_of h v b' → b = b'.
Proof.
  intros (s & Hs & Hu) (s' & Hs' & Hu'). rewrite Hs in Hs'. injection Hs' as <-.
  rewrite Hu in Hu'. by destruct b, b'.
Qed.

(** X8: on a sequence that is not empty the four answers hang
    together: where [allY] is true, [someY] is true and [allN] and
    [someN] are false; where [allN] is true, [someN] is true and [allY]
    and [someY] are false.  Only on the empty sequence are [allY] and
    [allN] both true. *)
Theorem batch_checks_exclusive (values : list val) :
  values ≠ [] →
  (allY h values = Ok true →
     someY h values = Ok true ∧ allN h values = Ok false
     ∧ someN h values = Ok false)
  ∧ (allN h values = Ok true →
       someN h values = Ok true ∧ allY h values = Ok false
       ∧ someY h values = Ok false).
Proof.
  intros Hne. destruct values as [|v values]; [done|]. clear Hne.
  unfold allY, allN, someY, someN. split; intros Hall.
  - pose proof Hall as Hsome. apply Array_every_true in Hsome.
    apply Forall_cons in Hsome as [Hv _]. simpl. rewrite Hv. simpl.
    split; [done|]. split; [done|].
    rewrite Array_some_negb. simpl in Hall. rewrite Hv in Hall. simpl in Hall.
    by rewrite Hall.
  - pose proof Hall as Hsome. apply Array_every_true in Hsome.
    apply Forall_cons in Hsome as [Hv _].
    rewrite Array_every_negb in Hall. simpl in *.
    destruct (ynToBool h v) as [[|]|e]; try done. simpl in *.
    split; [done|]. split; [done|].
    by destruct (Array_some (ynToBool h) values) as [[|]|e].
Qed.

(** X9: the checks on the flags [boolToYN] makes of booleans are the
    checks on the booleans: [allY] is their conjunction, [someY] their
    disjunction, [allN] and [someN] those of their negations; nothing
    raises. *)
Theorem batch_checks_of_booleans (bs : list bool) :
  ∃ flags : list jsstring,
    result_mapM (boolToYN h) (VBool <$> bs) = Ok flags
    ∧ allY h (VStr <$> flags) = Ok (forallb id bs)
    ∧ someY h (VStr <$> flags) = Ok (existsb id bs)
    ∧ allN h (VStr <$> flags) = Ok (forallb negb bs)
    ∧ someN h (VStr <$> flags) = Ok (existsb negb bs).
Proof.
  induction bs as [|b bs (flags & Hflags & HallY & HsomeY & HallN & HsomeN)].
  - by exists [].
  - exists ((if b then js "Y" else js "N") :: flags).
    rewrite fmap_cons, result_mapM_cons, Hflags.
    unfold allY, someY, allN, someN in *. rewrite fmap_cons.
    destruct b; simpl; rewrite ?HallY, ?HsomeY, ?HallN, ?HsomeN; done.
Qed.
Lemma Array_every_valid (values : list val) :
  Forall (valid_flag h) values →
  ∃ b : bool, Array_every (ynToBool h) values = Ok b
    ∧ (b = false ↔ Exists (λ v, flag_of h v false) values).
Proof.
  induction 1 as [|v values [b0 Hv] _ (b & Hall & Hb)].
  - exists true. split; [done|]. split; [done|]. by intros ?%Exists_nil.
  - simpl. rewrite (ynToBool_flag h v b0 Hv). simpl. destruct b0.
    + exists b. split; [done|]. rewrite Hb, Exists_cons. split; [auto|].
      intros [Hv'|?]; [|done]. by pose proof (flag_of_inj _ _ _ Hv Hv').
    + exists false. split; [done|]. split; [|done]. intros _. by left.
Qed.

Lemma Array_some_valid (values : list val) :
  Forall (valid_flag h) values →
  ∃ b : bool, Array_some (ynToBool h) values = Ok b
    ∧ (b = true ↔ Exists (λ v, flag_of h v true) values).
Proof.
  induction 1 as [|v values [b0 Hv] _ (b & Hsome & Hb)].
  - exists false. split; [done|]. split; [done|]. by intros ?%Exists_nil.
  - simpl. rewrite (ynToBool_flag h v b0 Hv). simpl. destruct b0.
    + exists true. split; [done|]. split; [|done]. intros _. by left.
    + exists b. split; [done|]. rewrite Hb, Exists_cons. split; [auto|].
      intros [Hv'|?]; [|done]. by pose proof (flag_of_inj _ _ _ Hv Hv').
Qed.

(** X25: on a sequence of flags no check raises, and the answers are
    those of the quantifiers: [allY] is false exactly when some element
    is an "N" flag, [someY] is true exactly when some element is a "Y"
    flag, and likewise [allN] and [someN] with the flags exchanged. *)
Theorem batch_checks_valid (values : list val) :
  Forall (valid_flag h) values →
  (∃ b : bool, allY h values = Ok b
     ∧ (b = false ↔ Exists (λ v, flag_of h v false) values))
  ∧ (∃ b : bool, someY h values = Ok b
       ∧ (b = true ↔ Exists (λ v, flag_of h v true) values))
  ∧ (∃ b : bool, allN h values = Ok b
       ∧ (b = false ↔ Exists (λ v, flag_of h v true) values))
  ∧ (∃ b : bool, someN h values = Ok b
       ∧ (b = true ↔ Exists (λ v, flag_of h v false) values)).
Proof.
  intros Hvalid. unfold allY, someY, allN, someN.
  rewrite Array_every_negb, Array_some_negb.
  destruct (Array_every_valid values Hvalid) as (b & -> & Hb).
  destruct (Array_some_valid values Hvalid) as (b' & -> & Hb').
  split; [by exists b|]. split; [by exists b'|]. split.
  - exists (negb b'). split; [done|]. rewrite <- Hb'. by destruct b'.
  - exists (negb b). split; [done|]. rewrite <- Hb. by destruct b.
Qed.
End BooleanMore.

(** X1 at [true]. *)
Lemma boolToYN_only_booleans_witness :
  boolToYN ∅ (VBool true) = Ok (js "Y")
  ∧ (js "Y" = js "Y" ∨ js "Y" = js "N")
  ∧ boolToYN ∅ (VStr (js "Y")) = Throw boolToYN_error.
Proof.
  split; [reflexivity|].
  exact (proj1 (proj2 (boolToYN_only_booleans ∅ (VBool true))) (js "Y") eq_refl).
Defined.

(** X3 at the flag "y". *)
Lemma ynToBool_not_a_flag_witness :
  @ynToBool plain_host ∅ (VStr (js "y")) = Ok true
  ∧ @ynToBool plain_host ∅ (VBool true) = Throw ynToBool_error.
Proof.
  split; [reflexivity|].
  exact (proj2 (proj2 (proj2 (proj2 (@ynToBool_not_a_flag plain_host ∅))))
           (VStr (js "y")) true eq_refl).
Defined.

(** X8 at [["Y"; "y"]]. *)
Lemma batch_checks_exclusive_witness :
  let values := [VStr (js "Y"); VStr (js "y")] in
  values ≠ [] ∧ @allY plain_host ∅ values = Ok true
  ∧ @someY plain_host ∅ values = Ok true
  ∧ @allN plain_host ∅ values = Ok false
  ∧ @someN plain_host ∅ values = Ok false.
Proof.
  intros values.
  assert (values ≠ []) as Hne by discriminate.
  split; [exact Hne|]. split; [reflexivity|].
  exact (proj1 (@batch_checks_exclusive plain_host ∅ values Hne) eq_refl).
Defined.

(** X25 at [["y"; "N"; "Y"]]. *)
Lemma batch_checks_valid_witness :
  let values := [VStr (js "y"); VStr (js "N"); VStr (js "Y")] in
  Forall (@valid_flag plain_host ∅) values
  ∧ (∃ b : bool, @allY plain_host ∅ values = Ok b
       ∧ (b = false ↔ Exists (λ v, @flag_of plain_host ∅ v false) values)).
Proof.
  intros values.
  assert (Forall (@valid_flag plain_host ∅) values) as Hvalid.
  { repeat constructor.
    - exists true, (js "y"). split; reflexivity.
    - exists false, (js "N"). split; reflexivity.
    - exists true, (js "Y"). split; reflexivity. }
  split; [exact Hvalid|].
  exact (proj1 (@batch_checks_valid plain_host ∅ values Hvalid)).
Defined.
(** * More on the [lang] module: [isArrayLike], [isEmptyData], [extend] *)

Section PredicatesMore.
Context (h : heap).

(** X10: every string is array-like, its [length] being its number of
    code units; a number, a boolean, a symbol, [null] and [undefined]
    are not. *)
Theorem isArrayLike_primitives :
  (∀ s, isArrayLike h (VStr s) = Ok true)
  ∧ (∀ n, isArrayLike h (VNum n) = Ok false)
  ∧ (∀ b, isArrayLike h (VBool b) = Ok false)
  ∧ (∀ d, isArrayLike h (VSymbol d) = Ok false)
  ∧ isArrayLike h VNull = Ok false
  ∧ isArrayLike h VUndefined = Ok false.
Proof.
  split; [|done].
  intros s. unfold isArrayLike. simpl. f_equal.
  apply nonneg_integer_test. exists (Z.of_nat (length s)).
  split; [lia|]. apply number_of_nat_integer.
Qed.
End PredicatesMore.

Lemma props_get_None key ps : props_get key ps = None ↔ key ∉ ps.*1.
Proof.
  induction ps as [|[k v] ps IH]; csimpl.
  - split; [|done]. intros _. apply not_elem_of_nil.
  - rewrite not_elem_of_cons. case_decide; [|tauto]. split; [done|tauto].
Qed.

(** Two property lists with the same keys in the same order and the
    same value at each key are the same list. *)
Lemma props_ext (ps qs : list (jsstring * val)) :
  NoDup ps.*1 → ps.*1 = qs.*1 →
  (∀ key, props_get key ps = props_get key qs) → ps = qs.
Proof.
  revert qs. induction ps as [|[k v] ps IH]; intros [|[k' v'] qs]; try done.
  csimpl. intros Hnd [= <- Hkeys] Hget. apply NoDup_cons in Hnd as [Hk Hnd].
  pose proof (Hget k) as Hv. simpl in Hv. rewrite !decide_True in Hv by done.
  injection Hv as <-. f_equal. apply IH; [done|done|].
  intros key. specialize (Hget key). simpl in Hget.
  case_decide; [|done]. subst key.
  transitivity (@None val); [|symmetry]; apply props_get_None; congruence.
Qed.

Lemma assign_all_keys props onto :
  props.*1 ⊆ onto.*1 → (assign_all props onto).*1 = onto.*1.
Proof.
  revert onto. induction props as [|[k v] props IH]; intros onto Hsub; [done|].
  simpl. assert ((props_set k v onto).*1 = onto.*1) as Hkeys.
  { rewrite props_set_keys, decide_True; [done|]. apply Hsub. set_solver. }
  rewrite IH; [done|]. rewrite Hkeys. set_solver.
Qed.

Lemma assign_all_elem_of key props onto :
  key ∈ props.*1 ∨ key ∈ onto.*1 → key ∈ (assign_all props onto).*1.
Proof.
  revert onto. induction props as [|[k v] props IH]; intros onto; simpl.
  - intros [Hk|Hk]; [by apply elem_of_nil in Hk|done].
  - intros Hk. apply IH. rewrite props_set_keys.
    destruct (decide (key = k)) as [->|Hne].
    + right. case_decide; set_solver.
    + destruct Hk as [Hk|Hk]; [left; set_solver|].
      right. case_decide; set_solver.
Qed.

(** Assigning the same properties a second time changes nothing. *)
Lemma assign_all_twice props ps :
  NoDup ps.*1 →
  assign_all props (assign_all props ps) = assign_all props ps.
Proof.
  intros Hnd. apply props_ext.
  - by do 2 apply assign_all_NoDup.
  - apply assign_all_keys. intros key Hkey. apply assign_all_elem_of. by left.
  - intros key. rewrite !props_get_assign_all.
    by destruct (props_get key (reverse props)).
Qed.

Section ExtendMore.
Context `{Host}.

(** X11: whatever its target and its sources, and whether it returns
    or raises, [extend] allocates no object and leaves every object
    other than its target as it was; what it returns is its target. *)
Theorem extend_frame (target : val) (sources : list val) (h : heap) :
  only_changes target h (final_heap (extend target sources h))
  ∧ (∀ t h', extend target sources h = Return t h' → t = target).
Proof.
  destruct (is_nullish target) eqn:Hn.
  - unfold extend. rewrite Hn. done.
  - rewrite extend_for_each by done. unfold mbind, M_bind.
    pose proof (for_each_only_changes (extendSingle target) target
                  (extendSingle_only_changes target) sources h) as Hframe.
    destruct (for_each (extendSingle target) sources h) as [[] h'|e h'].
    + split; [done|]. by intros t h'' [= <- _].
    + done.
Qed.

(** X12: merging the sources [xs] and then the sources [ys] in a second
    call is the same as merging [xs ++ ys] in one call, in the value
    returned, in the heap left behind and in the error raised. *)
Theorem extend_app (target : val) (xs ys : list val) (h : heap) :
  extend target (xs ++ ys) h = (t ← extend target xs; extend t ys) h.
Proof.
  destruct (is_nullish target) eqn:Hn.
  - unfold extend, mbind, M_bind. by rewrite Hn.
  - unfold mbind at 1, M_bind at 1. rewrite !extend_for_each by done.
    unfold mbind, M_bind. rewrite for_each_app. unfold mbind, M_bind.
    destruct (for_each (extendSingle target) xs h) as [[] h'|e h']; [|done].
    unfold mret, M_ret. by rewrite extend_for_each by done.
Qed.

(** X13: merging a source into an ordinary object a second time changes
    nothing, and neither does merging the object into itself. *)
Theorem extend_idempotent (h : heap) (l : loc) ps (source : val) :
  h !! l = Some (Obj ps) → NoDup ps.*1 →
  extend (VRef l) [source; source] h = extend (VRef l) [source] h
  ∧ extend (VRef l) [VRef l] h = Return (VRef l) h.
Proof.
  intros Hl Hnd.
  assert (∀ sources, extend (VRef l) sources h
            = Return (VRef l) (<[l := Obj (merged h l ps sources)]> h)) as Hext.
  { intros sources. rewrite extend_for_each by done. unfold mbind, M_bind.
    by rewrite (for_each_extendSingle _ _ _ _ Hl). }
  rewrite !Hext. simpl. rewrite !OwnEnumerableProps_insert.
  split.
  - do 3 f_equal. destruct (is_ref l source).
    + by rewrite !(assign_all_same ps ps Hnd) by set_solver.
    + by apply assign_all_twice.
  - rewrite lookup_insert_eq.
    rewrite (assign_all_same ps ps Hnd) by set_solver. by rewrite insert_id.
Qed.
Lemma assign_all_nil props onto : assign_all props onto = [] ↔ props = [] ∧ onto = [].
Proof.
  split; [|by intros [-> ->]].
  intros E. destruct props as [|[k v] props].
  - simpl in E. by subst.
  - assert (k ∈ (assign_all ((k, v) :: props) onto).*1) as Hk.
    { apply assign_all_elem_of. left. set_solver. }
    rewrite E in Hk. by apply elem_of_nil in Hk.
Qed.

Lemma merged_nil (h : heap) l ps sources :
  merged h l ps sources = []
  ↔ ps = [] ∧ Forall (λ source, is_ref l source = true
                                ∨ OwnEnumerableProps h source = []) sources.
Proof.
  revert ps. induction sources as [|source sources IH]; intros ps; simpl.
  - split; [by intros ->|by intros [-> _]].
  - rewrite IH, assign_all_nil, Forall_cons, OwnEnumerableProps_insert.
    destruct (is_ref l source); [|intuition congruence].
    split; [intros [[-> _] ?]; auto|by intros [-> [_ ?]]].
Qed.

(** X14: an ordinary object is empty data after [extend] exactly when
    it was empty before and no source has an own enumerable property:
    one property of one source is enough for [isEmptyData] to answer
    [false]. *)
Theorem isEmptyData_extend (h : heap) (l : loc) ps (sources : list val) :
  h !! l = Some (Obj ps) →
  ∃ h', extend (VRef l) sources h = Return (VRef l) h'
    ∧ (isEmptyData h' (VRef l) = Ok true
       ↔ ps = [] ∧ Forall (λ source, OwnEnumerableProps h source = []) sources).
Proof.
  intros Hl. exists (<[l := Obj (merged h l ps sources)]> h). split.
  { rewrite extend_for_each by done. unfold mbind, M_bind.
    by rewrite (for_each_extendSingle _ _ _ _ Hl). }
  unfold isEmptyData, isObject, ForIn. simpl. rewrite lookup_insert_eq. simpl.
  rewrite isEmptyData_loop_own;
    [|done|by unfold ForIn; simpl; rewrite lookup_insert_eq].
  split.
  - intros [= E]. apply bool_decide_eq_true_1, fmap_nil_inv, merged_nil in E
      as [-> Hsources].
    split; [done|]. eapply Forall_impl; [exact Hsources|].
    intros source [Href|Hnone]; [|done].
    destruct source as [| | | | | |l']; try done. simpl in Href.
    apply bool_decide_eq_true_1 in Href as ->. simpl. by rewrite Hl.
  - intros [-> Hsources]. f_equal. apply bool_decide_eq_true_2.
    assert (merged h l [] sources = []) as ->; [|done].
    apply merged_nil. split; [done|].
    eapply Forall_impl; [exact Hsources|]. auto.
Qed.
End ExtendMore.

(** X13 at [extend({a:1}, {b:2}, {b:2})]. *)
Lemma extend_idempotent_witness :
  let one := VNum (number_of_Z 1) in
  let two := VNum (number_of_Z 2) in
  let h : heap := {[ 1%positive := Obj [(js "a", one)];
                     2%positive := Obj [(js "b", two)] ]} in
  extend (VRef 1) [VRef 2; VRef 2] h = extend (VRef 1) [VRef 2] h
  ∧ extend (VRef 1) [VRef 1] h = Return (VRef 1) h.
Proof.
  intros one two h.
  refine (extend_idempotent h 1%positive [(js "a", one)] (VRef 2) eq_refl _).
  refine (bool_decide_unpack _ _). vm_compute. exact I.
Defined.

(** X14 at [extend({}, null, {b:2})] and at [extend({}, null, [])]. *)
Lemma isEmptyData_extend_witness :
  let two := VNum (number_of_Z 2) in
  let h : heap := {[ 1%positive := Obj [];
                     2%positive := Obj [(js "b", two)];
                     3%positive := Arr [] ]} in
  (∃ h', extend (VRef 1) [VNull; VRef 2] h = Return (VRef 1) h'
     ∧ isEmptyData h' (VRef 1) = Ok false)
  ∧ (∃ h', extend (VRef 1) [VNull; VRef 3] h = Return (VRef 1) h'
       ∧ isEmptyData h' (VRef 1) = Ok true).
Proof.
  intros two h. split.
  - destruct (isEmptyData_extend h 1%positive [] [VNull; VRef 2] eq_refl)
      as (h' & Hext & Hempty).
    exists h'. split; [exact Hext|].
    injection Hext as <-. reflexivity.
  - destruct (isEmptyData_extend h 1%positive [] [VNull; VRef 3] eq_refl)
      as (h' & Hext & Hempty).
    exists h'. split; [exact Hext|].
    apply Hempty. split; [reflexivity|]. repeat constructor.
Defined.
(** * More on [cloneJSON] and [tryParseJSON] *)

(** What [internalize] returns, on any JSON value: never [undefined],
    and an object only at a location the heap did not have; the heap it
    leaves extends the one it started from. *)
Definition allocates (j : json) : Prop :=
  ∀ h : heap, ∃ v h',
    internalize j h = Return v h' ∧ h ⊆ h' ∧ v ≠ VUndefined
    ∧ (∀ l, v = VRef l → h !! l = None).

Lemma internalize_allocates j : allocates j.
Proof.
  induction j as [|b|n|s|elems IH|members IH] using json_ind'; intros h;
    try (eexists _, h; split; [done|]; split; [done|]; by split).
  - assert (∃ vs h', M_mapM internalize elems h = Return vs h' ∧ h ⊆ h')
      as (vs & h2 & Hvs & Hsub).
    { revert h. induction IH as [|e es He _ IHes]; intros h; [by eauto|].
      destruct (He h) as (v & h1 & Hv & Hsub1 & _).
      destruct (IHes h1) as (vs & h' & Hvs & Hsub').
      exists (v :: vs), h'. rewrite M_mapM_cons. unfold mbind, M_bind.
      rewrite Hv, Hvs. split; [done|]. by etrans. }
    destruct (alloc_spec (Arr vs) h h2 Hsub) as (l & Hl & Hnone & Hsub' & _).
    exists (VRef l), (<[l := Arr vs]> h2).
    change (internalize (JArr elems))
      with (vs ← M_mapM internalize elems; alloc (Arr vs)).
    unfold mbind, M_bind. rewrite Hvs. split; [done|]. split; [by etrans|].
    split; [done|]. intros l' [= <-].
    destruct (h !! l) as [o|] eqn:Hl'; [|done].
    by rewrite (lookup_weaken _ _ _ _ Hl' Hsub) in Hnone.
  - assert (∃ ps h',
        M_mapM (λ '(key, j), v ← internalize j; mret (key, v)) members h
        = Return ps h' ∧ h ⊆ h') as (ps & h2 & Hps & Hsub).
    { revert h. induction IH as [|[k j] ms Hj _ IHms]; intros h; [by eauto|].
      destruct (Hj h) as (v & h1 & Hv & Hsub1 & _).
      destruct (IHms h1) as (ps & h' & Hps & Hsub').
      exists ((k, v) :: ps), h'. rewrite M_mapM_cons. simpl in Hv.
      unfold mbind, M_bind, mret, M_ret in *.
      rewrite Hv. cbv beta iota. rewrite Hps. split; [done|]. by etrans. }
    destruct (alloc_spec (Obj (props_of_members ps)) h h2 Hsub)
      as (l & Hl & Hnone & Hsub' & _).
    exists (VRef l), (<[l := Obj (props_of_members ps)]> h2).
    change (internalize (JObj members))
      with (ps ← M_mapM (λ '(key, j), v ← internalize j; mret (key, v)) members;
            alloc (Obj (props_of_members ps))).
    unfold mbind, M_bind in *. rewrite Hps. split; [done|]. split; [by etrans|].
    split; [done|]. intros l' [= <-].
    destruct (h !! l) as [o|] eqn:Hl'; [|done].
    by rewrite (lookup_weaken _ _ _ _ Hl' Hsub) in Hnone.
Qed.

(** Nothing JSON-compatible is serialized as no text at all. *)
Lemma serializes_strict_Some (h : heap) v r :
  serializes true h v r → ∃ j, r = Some j.
Proof. inversion 1; by eauto. Qed.

Lemma serializes_elems_length strict (h : heap) elems jsons :
  serializes_elems strict h elems jsons → length jsons = length elems.
Proof. induction 1; simpl; congruence. Qed.

Lemma serializes_elems_lookup strict (h : heap) elems jsons i v :
  serializes_elems strict h elems jsons → elems !! i = Some v →
  ∃ r, serializes strict h v r ∧ jsons !! i = Some (default JNull r).
Proof.
  intros Hser. revert i. induction Hser as [|v0 r elems jsons Hv _ IH]; intros i.
  - done.
  - destruct i as [|i]; simpl; [intros [= <-]; eauto|apply IH].
Qed.

Lemma serializes_props_strict_keys (h : heap) ps members :
  serializes_props true h ps members → ps.*1 = members.*1.
Proof.
  induction 1 as [|key v j ps members _ _ IH|key v ps members Hv _ IH]; csimpl.
  - done.
  - by rewrite IH.
  - by apply serializes_strict_Some in Hv as [j ?].
Qed.

(** The value of a key that is not dropped is serialized, and a key is
    dropped exactly when its value is serialized as no text. *)
Lemma serializes_props_dropped strict (h : heap) ps members key v :
  serializes_props strict h ps members → NoDup ps.*1 →
  props_get key ps = Some v →
  serializes strict h v None ↔ key ∉ members.*1.
Proof.
  induction 1 as [|key0 v0 j ps members Hv0 Hser IH|key0 v0 ps members Hv0 Hser IH];
    csimpl; [done| |]; intros Hnd Hget; apply NoDup_cons in Hnd as [Hkey0 Hnd].
  - case_decide as Hk.
    + injection Hget as <-. subst key0. split.
      * intros Hnone.
        by pose proof (proj1 (serializes_deterministic strict h) _ _ Hv0 _ Hnone).
      * intros Hnot. destruct Hnot. set_solver.
    + rewrite (IH Hnd Hget). set_solver.
  - case_decide as Hk.
    + injection Hget as <-. subst key0. split; [|done]. intros _.
      destruct (proj2 (proj2 (serializes_wf strict h)) _ _ Hser) as [_ Hsub].
      intros Hin. apply Hkey0. by eapply elem_of_sublist.
    + by apply IH.
Qed.

Lemma serializes_None (h : heap) v : serializes false h v None ↔ not_json h v.
Proof.
  split.
  - inversion 1; simplify_eq; unfold not_json; eauto 10.
  - intros [->|[[d ->]|(l & -> & Hl)]]; by constructor.
Qed.

Lemma denotes_scalar (h : heap) v j :
  denotes h v j →
  (j = JNull → v = VNull) ∧ (∀ b, j = JBool b → v = VBool b)
  ∧ (∀ s, j = JStr s → v = VStr s).
Proof. inversion 1; simplify_eq; repeat split; intros; simplify_eq; done. Qed.

Lemma serializes_scalar strict (h : heap) v r :
  json_scalar v → serializes strict h v r →
  ∃ j, r = Some j ∧ (∀ h' v', denotes h' v' j → v' = v).
Proof.
  intros [->|[[b ->]|[s ->]]]; inversion 1; simplify_eq; eexists; (split; [done|]);
    intros h' v' Hd; by inversion Hd.
Qed.

(** A member of the serialized object comes from the property of that
    key. *)
Lemma serializes_props_member strict (h : heap) ps members key v j :
  serializes_props strict h ps members → NoDup ps.*1 →
  props_get key ps = Some v → serializes strict h v (Some j) →
  (key, j) ∈ members.
Proof.
  induction 1 as [|key0 v0 j0 ps members Hv0 Hser IH|key0 v0 ps members Hv0 Hser IH];
    csimpl; [done| |]; intros Hnd Hget Hv; apply NoDup_cons in Hnd as [Hkey0 Hnd].
  - case_decide as Hk.
    + injection Hget as <-. subst key0.
      pose proof (proj1 (serializes_deterministic strict h) _ _ Hv0 _ Hv) as [= ->].
      set_solver.
    + apply elem_of_cons. right. by apply IH.
  - case_decide as Hk.
    + injection Hget as <-. subst key0.
      by pose proof (proj1 (serializes_deterministic strict h) _ _ Hv0 _ Hv).
    + by apply IH.
Qed.

(** A member of a JSON-compatible object is held by the property of
    that key. *)
Lemma denotes_props_member (h : heap) ps members key j :
  serializes_props true h ps members → NoDup ps.*1 → (key, j) ∈ members →
  ∃ v, props_get key ps = Some v ∧ denotes h v j.
Proof.
  induction 1 as [|key0 v0 j0 ps members Hv0 Hser IH|key0 v0 ps members Hv0 Hser IH];
    csimpl; intros Hnd Hin.
  - by apply elem_of_nil in Hin.
  - apply NoDup_cons in Hnd as [Hkey0 Hnd].
    apply elem_of_cons in Hin as [[= -> ->]|Hin].
    + exists v0. by rewrite decide_True.
    + destruct (IH Hnd Hin) as (v & Hget & Hv). exists v. split; [|done].
      rewrite decide_False; [done|]. intros ->. apply Hkey0.
      rewrite (serializes_props_strict_keys _ _ _ Hser).
      apply list_elem_of_fmap. by exists (key0, j).
  - by apply serializes_strict_Some in Hv0 as [? ?].
Qed.

(** On a value that serializes, [isEmptyData] answers as on the JSON
    value, unless a part was dropped: then the JSON value may be empty
    where the value is not. *)
Lemma isEmptyData_serializes strict (h : heap) v j :
  serializes strict h v (Some j) →
  ∃ b, isEmptyData h v = Ok b ∧ (b = true → empty_json j = true)
       ∧ (strict = true → b = empty_json j).
Proof.
  inversion 1 as [| | |n| |b|n|s|l elems jsons Hl Helems
                  |l ps members Hl Hnd _ Hprops]; simplify_eq.
  - by exists false.
  - by exists true.
  - by exists false.
  - by exists false.
  - eexists. split; [done|]. done.
  - unfold isEmptyData. simpl. rewrite Hl. simpl.
    inversion Helems; simplify_eq; [by exists true|by exists false].
  - unfold isEmptyData, isObject, ForIn. simpl. rewrite Hl. simpl.
    rewrite isEmptyData_loop_own; [|done|by unfold ForIn; simpl; rewrite Hl].
    eexists. split; [done|]. split.
    + intros E. apply bool_decide_eq_true_1, fmap_nil_inv in E as ->.
      by inversion Hprops.
    + intros ->. rewrite (serializes_props_strict_keys _ _ _ Hprops).
      by destruct members.
Qed.

Section CloneMore.
Context `{Host}.

(** A value that serializes is cloned into new objects that hold the
    JSON value it serializes as. *)
Lemma cloneJSON_builds strict (h : heap) v j :
  serializes strict h v (Some j) →
  Forall number_round_trips (json_numbers j) →
  ∃ v' h', cloneJSON v h = Return v' h' ∧ h ⊆ h' ∧ denotes (h' ∖ h) v' j.
Proof.
  intros Hj Hnum. destruct (is_nullish v) eqn:Hn.
  - destruct v; try done; inversion Hj; simplify_eq.
    exists VNull, h. split; [done|]. split; [done|]. constructor.
  - rewrite (cloneJSON_serializes strict h v (Some j) Hn Hj Hnum).
    apply internalize_builds.
    by apply (proj1 (serializes_wf strict h) v (Some j) Hj).
Qed.

(** [JSON.stringify] raises on a circular structure only. *)
Lemma SerializeJSONProperty_errors (h : heap) fuel stack v e :
  SerializeJSONProperty h fuel stack v = Throw e →
  e = circular_error ∨ ∃ what, e = NotModelled what.
Proof.
  revert stack v. induction fuel as [|fuel IH]; intros stack v.
  - simpl. intros [= <-]. eauto.
  - destruct v as [| |[|]|n|s|d|l]; try done.
    rewrite SerializeJSONProperty_ref.
    destruct (h !! l) as [[ps|es|]|]; [| |done|intros [= <-]; eauto].
    + case_bool_decide; [intros [= <-]; eauto|].
      case_bool_decide; [intros [= <-]; eauto|].
      destruct (result_mapM _ ps) as [members|e'] eqn:Hmap; [done|].
      simpl. intros [= <-].
      apply result_mapM_Throw in Hmap as ([key v] & _ & Hv).
      destruct (SerializeJSONProperty h fuel (l :: stack) v) as [text|e'']
        eqn:Hser; [done|].
      simpl in Hv. injection Hv as <-. by eapply IH.
    + case_bool_decide; [intros [= <-]; eauto|].
      destruct (result_mapM _ es) as [parts|e'] eqn:Hmap; [done|].
      simpl. intros [= <-].
      apply result_mapM_Throw in Hmap as (v & _ & Hv).
      destruct (SerializeJSONProperty h fuel (l :: stack) v) as [text|e'']
        eqn:Hser; [done|].
      simpl in Hv. injection Hv as <-. by eapply IH.
Qed.

(** X15: [cloneJSON] changes no object that exists: where it returns,
    the heap has gained the objects of the copy and is otherwise as it
    was; where it raises, the heap is as it was. *)
Theorem cloneJSON_frame (v : val) (h : heap) :
  (∀ v' h', cloneJSON v h = Return v' h' → h ⊆ h')
  ∧ (∀ e h', cloneJSON v h = Raise e h' → h' = h).
Proof.
  unfold cloneJSON. destruct (is_nullish v).
  { split; [by intros v' h' [= _ <-]|done]. }
  unfold mbind, M_bind, read.
  destruct (JSON_stringify h v) as [[text|]|e]; simpl.
  - rewrite JSON_parse_string. destruct (parse_text text) as [j|].
    + destruct (internalize_allocates j h) as (v' & h' & -> & Hsub & _).
      split; [by intros ? ? [= _ <-]|done].
    + split; [done|by intros ? ? [= _ <-]].
  - rewrite JSON_parse_undefined. split; [done|by intros ? ? [= _ <-]].
  - split; [done|by intros ? ? [= _ <-]].
Qed.

(** X16: on the values of this development, which have no BigInt and
    no accessor property, the only errors of [cloneJSON] are the
    SyntaxError of [JSON.parse], on a text it cannot read, and the
    TypeError of [JSON.stringify] on a circular structure;
    [NotModelled] stands for what the host does outside this
    development, a user [toJSON] for one. *)
Theorem cloneJSON_errors (v : val) (h : heap) (e : error) (h' : heap) :
  cloneJSON v h = Raise e h' →
  e = parse_error ∨ e = circular_error ∨ ∃ what, e = NotModelled what.
Proof.
  unfold cloneJSON. destruct (is_nullish v); [done|].
  unfold mbind, M_bind, read.
  destruct (JSON_stringify h v) as [[text|]|e'] eqn:Htext; simpl.
  - rewrite JSON_parse_string. destruct (parse_text text) as [j|].
    + by destruct (internalize_allocates j h) as (v' & h'' & -> & _).
    + intros [= <- _]. auto.
  - rewrite JSON_parse_undefined. intros [= <- _]. auto.
  - intros [= <- _]. right.
    by apply (SerializeJSONProperty_errors h _ _ _ _ Htext).
Qed.

(** X17: [cloneJSON] returns a string and a boolean as they are, and a
    finite number too when its digits read back as the number; NaN and
    the infinities come back as [null].  No object is made. *)
Theorem cloneJSON_primitives (h : heap) :
  (∀ s, cloneJSON (VStr s) h = Return (VStr s) h)
  ∧ (∀ b, cloneJSON (VBool b) h = Return (VBool b) h)
  ∧ (∀ n, is_finite n = true → number_round_trips n →
       cloneJSON (VNum n) h = Return (VNum n) h)
  ∧ (∀ n, is_finite n = false → cloneJSON (VNum n) h = Return VNull h).
Proof.
  split; [|split; [|split]].
  - intros s.
    by rewrite (cloneJSON_serializes false h (VStr s) (Some (JStr s)) eq_refl
                  (ser_string _ _ s)).
  - intros b.
    by rewrite (cloneJSON_serializes false h (VBool b) (Some (JBool b)) eq_refl
                  (ser_bool _ _ b)).
  - intros n Hfin Hn.
    rewrite (cloneJSON_serializes false h (VNum n) (Some (JNum n)) eq_refl
               (ser_number _ _ n Hfin)); [done|].
    by apply Forall_singleton.
  - intros n Hfin.
    by rewrite (cloneJSON_serializes false h (VNum n) (Some JNull) eq_refl
                  (ser_non_finite _ _ n eq_refl Hfin)).
Qed.

(** X18: the copy of a value that [cloneJSON] accepts is
    JSON-compatible, whatever was dropped from the value, so a copy of
    the copy is deeply equal to it and again made of new objects. *)
Theorem cloneJSON_idempotent (h : heap) (v : val) (j : json) :
  serializes false h v (Some j) →
  Forall number_round_trips (json_numbers j) →
  ∃ v' h' v'' h'',
    cloneJSON v h = Return v' h' ∧ cloneJSON v' h' = Return v'' h''
    ∧ deep_equal h' v' h'' v'' ∧ denotes (h'' ∖ h') v'' j.
Proof.
  intros Hj Hnum.
  destruct (cloneJSON_builds false h v j Hj Hnum) as (v' & h' & Hv' & Hsub & Hd).
  assert (denotes h' v' j) as Hd'.
  { eapply denotes_weaken; [|done]. apply map_subseteq_difference_l. done. }
  destruct (cloneJSON_builds true h' v' j Hd' Hnum) as (v'' & h'' & Hv'' & Hsub' & Hd'').
  exists v', h', v'', h''. split; [done|]. split; [done|]. split; [|done].
  exists j. split; [done|].
  eapply denotes_weaken; [|done]. apply map_subseteq_difference_l. done.
Qed.
(** X19: the copy of an Array is a new Array of the same length.  An
    element that is [undefined], a function, a symbol, NaN or an
    infinity is [null] in the copy; [null], a boolean and a string are
    in the copy as they are. *)
Theorem cloneJSON_array (h : heap) (l : loc) (elems : list val) (j : json) :
  h !! l = Some (Arr elems) →
  serializes false h (VRef l) (Some j) →
  Forall number_round_trips (json_numbers j) →
  ∃ l' elems' h',
    cloneJSON (VRef l) h = Return (VRef l') h'
    ∧ h !! l' = None ∧ h' !! l' = Some (Arr elems')
    ∧ length elems' = length elems
    ∧ (∀ i v, elems !! i = Some v →
         not_json h v ∨ (∃ n, v = VNum n ∧ is_finite n = false) →
         elems' !! i = Some VNull)
    ∧ (∀ i v, elems !! i = Some v → json_scalar v → elems' !! i = Some v).
Proof.
  intros Hl Hj Hnum.
  destruct (cloneJSON_builds false h (VRef l) j Hj Hnum)
    as (v' & h' & Hclone & Hsub & Hd).
  inversion Hj as [| | | | | | | |? elems0 jsons Hl0 Helems|]; simplify_eq.
  inversion Hd as [| | | | | | | |l' elems' ? Hl' Helems'|]; simplify_eq.
  apply lookup_difference_Some in Hl' as [Hl' Hnew].
  exists l', elems', h'. split; [done|]. split; [done|]. split; [done|].
  pose proof (serializes_elems_length _ _ _ _ Helems) as Hlen.
  pose proof (serializes_elems_length _ _ _ _ Helems') as Hlen'.
  split; [congruence|].
  assert (∀ i v r, elems !! i = Some v → serializes false h v r →
            ∃ v', elems' !! i = Some v' ∧ denotes (h' ∖ h) v' (default JNull r))
    as Hcopy.
  { intros i v r Hi Hr.
    destruct (serializes_elems_lookup _ _ _ _ _ _ Helems Hi) as (r0 & Hr0 & Hji).
    rewrite (proj1 (serializes_deterministic false h) _ _ Hr0 _ Hr) in Hji.
    destruct (lookup_lt_is_Some_2 elems' i) as [v' Hi'].
    { apply lookup_lt_Some in Hi. lia. }
    destruct (serializes_elems_lookup _ _ _ _ _ _ Helems' Hi') as (r' & Hr' & Hji').
    destruct (serializes_strict_Some _ _ _ Hr') as [j' ->].
    simpl in Hji'. rewrite Hji in Hji'. injection Hji' as <-.
    by exists v'. }
  split.
  - intros i v Hi Hv.
    assert (∃ r, serializes false h v r ∧ default JNull r = JNull) as (r & Hr & Hnull).
    { destruct Hv as [Hv|(n & -> & Hn)].
      - exists None. split; [by apply serializes_None|done].
      - exists (Some JNull). split; [by constructor|done]. }
    destruct (Hcopy i v r Hi Hr) as (v' & Hi' & Hd'). rewrite Hnull in Hd'.
    by rewrite (proj1 (denotes_scalar _ _ _ Hd') eq_refl) in Hi'.
  - intros i v Hi Hv.
    destruct (serializes_elems_lookup _ _ _ _ _ _ Helems Hi) as (r & Hr & _).
    destruct (serializes_scalar _ _ _ _ Hv Hr) as (j' & -> & Hback).
    destruct (Hcopy i v (Some j') Hi Hr) as (v' & Hi' & Hd').
    by rewrite (Hback _ _ Hd') in Hi'.
Qed.

(** X20: the copy of an ordinary object is a new ordinary object whose
    keys are keys of the original, in the same order.  A key is missing
    from the copy exactly when its value is [undefined], a function or a
    symbol; [null], a boolean and a string are in the copy at their
    key. *)
Theorem cloneJSON_object (h : heap) (l : loc) ps (j : json) :
  h !! l = Some (Obj ps) →
  serializes false h (VRef l) (Some j) →
  Forall number_round_trips (json_numbers j) →
  ∃ l' ps' h',
    cloneJSON (VRef l) h = Return (VRef l') h'
    ∧ h !! l' = None ∧ h' !! l' = Some (Obj ps')
    ∧ ps'.*1 `sublist_of` ps.*1
    ∧ (∀ key v, props_get key ps = Some v →
         not_json h v ↔ props_get key ps' = None)
    ∧ (∀ key v, props_get key ps = Some v → json_scalar v →
         props_get key ps' = Some v).
Proof.
  intros Hl Hj Hnum.
  destruct (cloneJSON_builds false h (VRef l) j Hj Hnum)
    as (v' & h' & Hclone & Hsub & Hd).
  inversion Hj as [| | | | | | | | |? ps0 members Hl0 Hnd _ Hprops]; simplify_eq.
  inversion Hd as [| | | | | | | | |l' ps' ? Hl' Hnd' _ Hprops']; simplify_eq.
  apply lookup_difference_Some in Hl' as [Hl' Hnew].
  exists l', ps', h'. split; [done|]. split; [done|]. split; [done|].
  pose proof (serializes_props_strict_keys _ _ _ Hprops') as Hkeys.
  split; [|split].
  - rewrite Hkeys. apply (proj2 (proj2 (serializes_wf false h)) _ _ Hprops).
  - intros key v Hget.
    rewrite <- serializes_None, (props_get_None key ps'), Hkeys.
    exact (serializes_props_dropped false h ps members key v Hprops Hnd Hget).
  - intros key v Hget Hv.
    destruct (serializes_props_get _ _ _ _ _ _ Hprops Hget) as [r Hr].
    destruct (serializes_scalar _ _ _ _ Hv Hr) as (j' & -> & Hback).
    pose proof (serializes_props_member _ _ _ _ _ _ _ Hprops Hnd Hget Hr) as Hin.
    destruct (denotes_props_member _ _ _ _ _ Hprops' Hnd' Hin) as (v' & Hget' & Hd').
    by rewrite (Hback _ _ Hd') in Hget'.
Qed.
(** X21: a JSON-compatible value and its copy are empty data together.
    Where [cloneJSON] dropped or coerced a part, empty data is still
    copied to empty data, but the copy may be empty where the value is
    not: [isEmptyData] then answers for the JSON value. *)
Theorem isEmptyData_cloneJSON (h : heap) (v : val) (j : json) :
  Forall number_round_trips (json_numbers j) →
  (denotes h v j →
     ∃ v' h', cloneJSON v h = Return v' h'
       ∧ isEmptyData h' v' = isEmptyData h v
       ∧ isEmptyData h v = Ok (empty_json j))
  ∧ (serializes false h v (Some j) →
       ∃ v' h', cloneJSON v h = Return v' h'
         ∧ isEmptyData h' v' = Ok (empty_json j)
         ∧ (isEmptyData h v = Ok true → isEmptyData h' v' = Ok true)).
Proof.
  intros Hnum.
  assert (∀ strict, serializes strict h v (Some j) →
            ∃ v' h', cloneJSON v h = Return v' h'
              ∧ isEmptyData h' v' = Ok (empty_json j)) as Hcopy.
  { intros strict Hj.
    destruct (cloneJSON_builds strict h v j Hj Hnum) as (v' & h' & Hclone & _ & Hd).
    exists v', h'. split; [done|].
    assert (denotes h' v' j) as Hd'.
    { eapply denotes_weaken; [|done]. apply map_subseteq_difference_l. done. }
    destruct (isEmptyData_serializes true h' v' j Hd') as (b & -> & _ & Hb).
    by rewrite Hb. }
  split; intros Hj.
  - destruct (Hcopy true Hj) as (v' & h' & Hclone & Hempty).
    destruct (isEmptyData_serializes true h v j Hj) as (b & Hv & _ & Hb).
    exists v', h'. rewrite Hempty, Hv, Hb; done.
  - destruct (Hcopy false Hj) as (v' & h' & Hclone & Hempty).
    destruct (isEmptyData_serializes false h v j Hj) as (b & Hv & Hb & _).
    exists v', h'. split; [done|]. split; [done|].
    rewrite Hv, Hempty. intros [= ->]. by rewrite Hb.
Qed.
End CloneMore.

Lemma skip_ws_blank s : Forall (λ c, is_json_ws c = true) s → skip_ws s = [].
Proof. induction 1 as [|c s Hc _ IH]; [done|]. simpl. by rewrite Hc. Qed.

Lemma is_json_ws_isWhiteSpace c : is_json_ws c = true → isWhiteSpace c = true.
Proof.
  unfold is_json_ws, isWhiteSpace. intros Hc. unit_tests; subst; done.
Qed.

Section ParseMore.
Context `{Host}.

(** X22: where the text is JSON, [tryParseJSON] returns a value that is
    not [undefined], so that [undefined] always tells a failure; an
    object it returns is a new one, and no object that existed is
    changed; [onError] has no part in the outcome. *)
Theorem tryParseJSON_success (s : jsstring) (onError : option (error → M val))
    (h : heap) :
  (∀ j, parse_text s = Some j →
     ∃ v h', tryParseJSON (VStr s) onError h = Return v h'
       ∧ tryParseJSON (VStr s) None h = Return v h'
       ∧ v ≠ VUndefined ∧ h ⊆ h' ∧ (∀ l, v = VRef l → h !! l = None))
  ∧ (∀ h', tryParseJSON (VStr s) onError h = Return VUndefined h' →
       parse_text s = None).
Proof.
  unfold tryParseJSON, try_catch, mbind, M_bind. rewrite JSON_parse_string.
  split.
  - intros j ->.
    destruct (internalize_allocates j h) as (v & h' & -> & Hsub & Hv & Hnew).
    by exists v, h'.
  - intros h'. destruct (parse_text s) as [j|]; [|done].
    destruct (internalize_allocates j h) as (v & h'' & -> & _ & Hv & _).
    by intros [= -> _].
Qed.

(** X23: the text [JSON.stringify] prints for a value always parses:
    [tryParseJSON] returns what [cloneJSON] returns on the value, and
    does not call [onError]. *)
Theorem tryParseJSON_stringify (h : heap) (v : val) (j : json)
    (onError : option (error → M val)) :
  is_nullish v = false →
  serializes false h v (Some j) →
  Forall number_round_trips (json_numbers j) →
  ∃ text, JSON_stringify h v = Ok (Some text)
    ∧ tryParseJSON (VStr text) onError h = cloneJSON v h
    ∧ ∃ v' h', cloneJSON v h = Return v' h'.
Proof.
  intros Hn Hj Hnum. exists (print j).
  pose proof (JSON_stringify_serializes false h v (Some j) Hj) as Htext.
  split; [done|].
  destruct (cloneJSON_builds false h v j Hj Hnum) as (v' & h' & Hclone & _).
  split; [|by eauto]. rewrite Hclone. revert Hclone.
  unfold cloneJSON, tryParseJSON, try_catch. rewrite Hn.
  unfold mbind, M_bind, read. rewrite Htext. simpl.
  by intros ->.
Qed.

(** X24: a string of JSON white space only, the empty string included,
    is not a JSON text: [tryParseJSON] calls [onError] and returns
    [undefined]; and it is empty data. *)
Theorem tryParseJSON_blank (s : jsstring) (h : heap) :
  Forall (λ c, is_json_ws c = true) s →
  parse_text s = None
  ∧ tryParseJSON (VStr s) None h = Return VUndefined h
  ∧ (∀ f, tryParseJSON (VStr s) (Some f) h
          = (f parse_error ;; mret VUndefined) h)
  ∧ isEmptyData h (VStr s) = Ok true.
Proof.
  intros Hs.
  assert (parse_text s = None) as Hparse.
  { unfold parse_text. change (2 * length s + 2)%nat with (2 * length s + 2)%nat.
    replace (2 * length s + 2)%nat with (S (2 * length s + 1)) by lia.
    by rewrite parse_value_S, (skip_ws_blank s Hs). }
  split; [done|].
  unfold tryParseJSON, try_catch, mbind, M_bind. rewrite JSON_parse_string, Hparse.
  split; [done|]. split.
  - intros f. simpl. by destruct (f parse_error h).
  - unfold isEmptyData. simpl. f_equal. apply bool_decide_eq_true_2.
    apply trim_nil. eapply Forall_impl; [exact Hs|].
    intros c. apply is_json_ws_isWhiteSpace.
Qed.
(** X26: without [onError], and whatever its argument is, a string or
    not, [tryParseJSON] raises nothing: it returns, and no object that
    existed is changed; [NotModelled] stands for what the host does
    outside this development. *)
Theorem tryParseJSON_no_handler (str : val) (h : heap) :
  (∃ v h', tryParseJSON str None h = Return v h' ∧ h ⊆ h')
  ∨ (∃ what, tryParseJSON str None h = Raise (NotModelled what) h).
Proof.
  unfold tryParseJSON, try_catch, JSON_parse, mbind, M_bind, read.
  destruct (ToStringArgument h str) as [s|e].
  - left. destruct (parse_text s) as [j|].
    + destruct (internalize_allocates j h) as (v & h' & -> & Hsub & _).
      by exists v, h'.
    + by exists VUndefined, h.
  - destruct e; [left; by exists VUndefined, h..|right; by eauto].
Qed.
End ParseMore.
(** * The further statements at concrete values *)

Section PlainExamplesMore.
Existing Instance plain_host.

(** X11 at [extend({a:1}, {b:2})]. *)
Lemma extend_frame_witness :
  let one := VNum (number_of_Z 1) in
  let two := VNum (number_of_Z 2) in
  let h : heap := {[ 1%positive := Obj [(js "a", one)];
                     2%positive := Obj [(js "b", two)] ]} in
  let h' : heap := <[1%positive := Obj [(js "a", one); (js "b", two)]]> h in
  extend (VRef 1) [VRef 2] h = Return (VRef 1) h'
  ∧ VRef 1 = VRef 1 ∧ only_changes (VRef 1) h h'.
Proof.
  intros one two h h'.
  assert (extend (VRef 1) [VRef 2] h = Return (VRef 1) h') as Hext by reflexivity.
  split; [exact Hext|]. split.
  - exact (proj2 (extend_frame (VRef 1) [VRef 2] h) (VRef 1) h' Hext).
  - exact (proj1 (extend_frame (VRef 1) [VRef 2] h)).
Defined.

(** X15 at an object that holds itself. *)
Lemma cloneJSON_frame_witness :
  cloneJSON (VRef 3) h_self = Raise circular_error h_self ∧ h_self = h_self.
Proof.
  assert (cloneJSON (VRef 3) h_self = Raise circular_error h_self) as Hclone
    by reflexivity.
  split; [exact Hclone|].
  exact (proj2 (cloneJSON_frame (VRef 3) h_self) circular_error h_self Hclone).
Defined.

(** X16 at an object that holds itself. *)
Lemma cloneJSON_errors_witness :
  cloneJSON (VRef 3) h_self = Raise circular_error h_self
  ∧ (circular_error = parse_error ∨ circular_error = circular_error
     ∨ ∃ what, circular_error = NotModelled what).
Proof.
  assert (cloneJSON (VRef 3) h_self = Raise circular_error h_self) as Hclone
    by reflexivity.
  split; [exact Hclone|].
  exact (cloneJSON_errors (VRef 3) h_self circular_error h_self Hclone).
Defined.

(** X17 at [1] and at NaN. *)
Lemma cloneJSON_primitives_witness :
  cloneJSON (VNum d1) ∅ = Return (VNum d1) ∅
  ∧ cloneJSON (VNum S754_nan) ∅ = Return VNull ∅.
Proof.
  split.
  - exact (proj1 (proj2 (proj2 (cloneJSON_primitives ∅))) d1 eq_refl d1_round_trips).
  - exact (proj2 (proj2 (proj2 (cloneJSON_primitives ∅))) S754_nan eq_refl).
Defined.

Lemma h_f_numbers : Forall number_round_trips (json_numbers (JObj [(js "a", JNum d1)])).
Proof. repeat constructor; reflexivity. Qed.

(** X18 at [{a: 1, f: function () {}, u: undefined}]. *)
Lemma cloneJSON_idempotent_witness :
  ∃ v' h' v'' h'',
    cloneJSON (VRef 1) h_f = Return v' h' ∧ cloneJSON v' h' = Return v'' h''
    ∧ deep_equal h' v' h'' v''
    ∧ denotes (h'' ∖ h') v'' (JObj [(js "a", JNum d1)]).
Proof. exact (cloneJSON_idempotent h_f (VRef 1) _ h_f_serializes h_f_numbers). Defined.

(** [[1, undefined, "a", function () {}]] *)
Definition h_arr : heap :=
  {[ 1%positive := Arr [VNum d1; VUndefined; VStr (js "a"); VRef 2];
     2%positive := Fun ]}.

Definition j_arr : json := JArr [JNum d1; JNull; JStr (js "a"); JNull].

Lemma h_arr_serializes : serializes false h_arr (VRef 1) (Some j_arr).
Proof.
  eapply ser_array; [reflexivity|].
  apply (ser_elems_cons false h_arr (VNum d1) (Some (JNum d1))); [by apply ser_number|].
  apply (ser_elems_cons false h_arr VUndefined None); [by apply ser_undefined|].
  apply (ser_elems_cons false h_arr (VStr (js "a")) (Some (JStr (js "a"))));
    [by apply ser_string|].
  apply (ser_elems_cons false h_arr (VRef 2) None); [by apply ser_function|].
  apply ser_elems_nil.
Qed.

Lemma j_arr_numbers : Forall number_round_trips (json_numbers j_arr).
Proof. repeat constructor; reflexivity. Qed.

(** X19 at [[1, undefined, "a", function () {}]]. *)
Lemma cloneJSON_array_witness :
  ∃ l' elems' h',
    cloneJSON (VRef 1) h_arr = Return (VRef l') h'
    ∧ h_arr !! l' = None ∧ h' !! l' = Some (Arr elems')
    ∧ length elems' = 4%nat
    ∧ elems' !! 1%nat = Some VNull
    ∧ elems' !! 2%nat = Some (VStr (js "a"))
    ∧ elems' !! 3%nat = Some VNull.
Proof.
  destruct (cloneJSON_array h_arr 1%positive _ j_arr eq_refl h_arr_serializes
              j_arr_numbers)
    as (l' & elems' & h' & Hclone & Hnew & Hl' & Hlen & Hnull & Hkeep).
  exists l', elems', h'.
  split; [exact Hclone|]. split; [exact Hnew|]. split; [exact Hl'|].
  split; [exact Hlen|]. split; [|split].
  - apply (Hnull 1%nat VUndefined eq_refl). left. left. reflexivity.
  - apply (Hkeep 2%nat (VStr (js "a")) eq_refl). right. right. eexists. reflexivity.
  - apply (Hnull 3%nat (VRef 2) eq_refl). left. right. right.
    exists 2%positive. split; reflexivity.
Defined.

(** X20 at [{a: 1, f: function () {}, u: undefined}]. *)
Lemma cloneJSON_object_witness :
  ∃ l' ps' h',
    cloneJSON (VRef 1) h_f = Return (VRef l') h'
    ∧ h_f !! l' = None ∧ h' !! l' = Some (Obj ps')
    ∧ props_get (js "f") ps' = None
    ∧ props_get (js "u") ps' = None.
Proof.
  destruct (cloneJSON_object h_f 1%positive _ _ eq_refl h_f_serializes h_f_numbers)
    as (l' & ps' & h' & Hclone & Hnew & Hl' & _ & Hdrop & _).
  exists l', ps', h'.
  split; [exact Hclone|]. split; [exact Hnew|]. split; [exact Hl'|]. split.
  - apply (Hdrop (js "f") (VRef 2) eq_refl). right. right.
    exists 2%positive. split; reflexivity.
  - apply (Hdrop (js "u") VUndefined eq_refl). left. reflexivity.
Defined.

(** [{u: undefined}] *)
Definition h_u : heap := {[ 1%positive := Obj [(js "u", VUndefined)] ]}.

Lemma h_u_serializes : serializes false h_u (VRef 1) (Some (JObj [])).
Proof.
  eapply ser_object; [reflexivity|refine (bool_decide_unpack _ _); vm_compute; exact I|done|].
  apply ser_props_skip; [by apply ser_undefined|]. apply ser_props_nil.
Qed.

(** X21 at [{a: 1, b: [1, 2]}], and at [{u: undefined}], which is not
    empty data and whose copy is. *)
Lemma isEmptyData_cloneJSON_witness :
  (∃ v' h', cloneJSON (VRef 1) h_ab = Return v' h'
     ∧ isEmptyData h' v' = isEmptyData h_ab (VRef 1)
     ∧ isEmptyData h_ab (VRef 1) = Ok false)
  ∧ (∃ v' h', cloneJSON (VRef 1) h_u = Return v' h'
       ∧ isEmptyData h' v' = Ok true
       ∧ isEmptyData h_u (VRef 1) = Ok false).
Proof.
  split.
  - refine (proj1 (isEmptyData_cloneJSON h_ab (VRef 1) j_ab _) h_ab_denotes).
    repeat constructor; reflexivity.
  - destruct (proj2 (isEmptyData_cloneJSON h_u (VRef 1) (JObj []) (Forall_nil_2 _))
                h_u_serializes) as (v' & h' & Hclone & Hempty & _).
    exists v', h'. split; [exact Hclone|]. split; [exact Hempty|reflexivity].
Defined.

(** X22 at the text [{"a":1}]. *)
Lemma tryParseJSON_success_witness :
  ∃ v h', tryParseJSON (VStr (jsq "{'a':1}")) (Some keep_error) ∅ = Return v h'
    ∧ tryParseJSON (VStr (jsq "{'a':1}")) None ∅ = Return v h'
    ∧ v ≠ VUndefined ∧ ∅ ⊆ h' ∧ (∀ l, v = VRef l → (∅ : heap) !! l = None).
Proof.
  exact (proj1 (tryParseJSON_success (jsq "{'a':1}") (Some keep_error) ∅)
           _ parse_text_a1).
Defined.

(** X23 at [{a: 1, f: function () {}, u: undefined}]. *)
Lemma tryParseJSON_stringify_witness :
  ∃ text, JSON_stringify h_f (VRef 1) = Ok (Some text)
    ∧ tryParseJSON (VStr text) (Some keep_error) h_f = cloneJSON (VRef 1) h_f
    ∧ ∃ v' h', cloneJSON (VRef 1) h_f = Return v' h'.
Proof.
  exact (tryParseJSON_stringify h_f (VRef 1) _ (Some keep_error) eq_refl
           h_f_serializes h_f_numbers).
Defined.

(** X24 at a space and a line feed. *)
Lemma tryParseJSON_blank_witness :
  parse_text [32; 10] = None
  ∧ tryParseJSON (VStr [32; 10]) None ∅ = Return VUndefined ∅
  ∧ (∀ f, tryParseJSON (VStr [32; 10]) (Some f) ∅
          = (f parse_error ;; mret VUndefined) ∅)
  ∧ isEmptyData ∅ (VStr [32; 10]) = Ok true.
Proof.
  apply (tryParseJSON_blank [32; 10] ∅). repeat constructor.
Defined.
End PlainExamplesMore.
